(** * meshgl: scene illumination and exposure control

    A shallow embedding of the render controllers of the viewer
    ([AutoExposureController], [EnvironmentController], [LightsController],
    [PostProcessingPipeline]) together with the properties stated for them.

    JavaScript numbers are modelled as exact rationals in canonical form
    ([Qc]): arithmetic is the real-number arithmetic that IEEE doubles
    approximate, equality is Leibniz equality, and every definition
    computes.  [Math.pow], [Math.cos], [Math.sin] and [Math.PI] have no
    rational counterpart; they are section variables wherever the source
    calls them.

    Two properties depend on how doubles round: the angle that
    [setRotation] stores and the value at which the auto-exposure settles.
    For these the functions involved are embedded a second time with
    every arithmetic result passed through a rounding function
    ([EnvironmentRounded], [LightsRounded], [AutoExposureRounded]), and
    [Binary64.round] is rounding to the nearest double, ties to even, on
    the rationals. *)

From Stdlib Require Import QArith Qcanon Qround Qpower Lqa Lia ZArith List.
From stdpp Require Import base decidable option numbers list strings gmap.
Import ListNotations.

Local Open Scope Qc_scope.

(* ===================================================================== *)
(** * Part I: the embedding                                               *)
(* ===================================================================== *)

(** ** Numbers and the [THREE.MathUtils] helpers *)

Module Num.

Definition num : Type := Qc.

(** A decimal literal of the source, e.g. [lit 0.45]. *)
Definition lit (q : Q) : num := Q2Qc q.

Definition ofZ (z : Z) : num := Q2Qc (inject_Z z).

Definition Math_min (a b : num) : num := if decide (a <= b) then a else b.
Definition Math_max (a b : num) : num := if decide (a <= b) then b else a.

(** [THREE.MathUtils.clamp(value, min, max)] is
    [Math.max(min, Math.min(max, value))]. *)
Definition clamp (value lo hi : num) : num := Math_max lo (Math_min hi value).

(** [THREE.MathUtils.lerp(x, y, t)] is [(1 - t) * x + t * y]. *)
Definition lerp (x y t : num) : num := (1 - t) * x + t * y.

(** [Math.trunc]: rounding toward zero. *)
Definition trunc (x : num) : Z :=
  if decide (0 <= x) then Qfloor x else Qceiling x.

(** The remainder operator [x % m] of JavaScript: the result has the sign
    of the dividend, [x - m * trunc (x / m)]. *)
Definition rem (x m : num) : num := x - m * ofZ (trunc (x / m)).

(** The double remainder [((v % m) + m) % m] that both [setRotation]s use. *)
Definition wrap (v m : num) : num := rem (rem v m + m) m.

Definition Qcabs (x : num) : num := if decide (0 <= x) then x else - x.

(** [a ?? b] on a nullable value, with [b] a value and with [b] itself
    nullable. *)
Definition nullish {A} (a : option A) (b : A) : A := default b a.
Definition nullish_opt {A} (a b : option A) : option A :=
  match a with Some _ => a | None => b end.

End Num.

Export Num.
Infix "??" := nullish (at level 45, left associativity).

(** A JavaScript call either completes normally or throws; in both cases the
    mutations made so far persist. *)
Inductive completion (S : Type) : Type :=
| Normal (s : S)
| Abrupt (err : string) (s : S).
Arguments Normal {S} s.
Arguments Abrupt {S} err s.

Definition state_of {S} (c : completion S) : S :=
  match c with Normal s => s | Abrupt _ s => s end.

Definition throws {S} (c : completion S) : bool :=
  match c with Normal _ => false | Abrupt _ _ => true end.

(** [try { body } catch (error) { handler }] *)
Definition try_catch {S} (body : completion S) (handler : string -> S -> completion S)
  : completion S :=
  match body with
  | Normal s => Normal s
  | Abrupt err s => handler err s
  end.

(** ** AutoExposureController.js *)

Module AutoExposureController.

(** What the controller does to its collaborators (renderer, callback,
    console), in program order. *)
Inductive effect : Type :=
| GetRenderTarget
| SetRenderTargetLuminance        (* renderer.setRenderTarget(luminanceRenderTarget) *)
| RenderScene                     (* renderer.render(scene, camera) *)
| SetRenderTargetPrevious         (* renderer.setRenderTarget(previousTarget) *)
| ReadRenderTargetPixels          (* renderer.readRenderTargetPixels(...) *)
| OnExposureChange (value : num)  (* this.onExposureChange(value) *)
| DisposeRenderTarget             (* luminanceRenderTarget.dispose() *)
| ConsoleLog (msg : string).      (* any console.* call *)

(** Outcome of [renderer.readRenderTargetPixels]: the RGBA bytes written
    into the buffer, or an exception. *)
Inductive readback : Type :=
| PixelsRead (pixels : list Byte.byte)
| ReadThrows (err : string).

(** The constructor's parameters, fixed for the life of the object: no
    method assigns them. *)
Definition target : num := lit 0.45.
Definition min : num := lit 0.5.                  (* written 0.50 *)
Definition max : num := lit 2.5.
Definition smooth : num := lit 0.12.
Definition brightThreshold : num := lit 0.65.
Definition sampleSize : nat := 8.

Record controller : Type := Controller {
  renderer : bool;                     (* this.renderer is an object *)
  exposurePass : option num;           (* exposurePass.uniforms.exposure.value, if a pass was given *)
  onExposureChange : bool;             (* a callback was given *)
  enabled : bool;
  manualExposure : option num;
  currentExposure : option num;
  autoExposureValue : option num;
  luminanceRenderTarget : bool;        (* false once set to null *)
  luminanceBuffer : list Byte.byte;
  averageLuminance : option num;
  effects : list effect;               (* most recent last *)
}.

Definition emit (e : list effect) (c : controller) : controller :=
  Controller (renderer c) (exposurePass c) (onExposureChange c) (enabled c)
    (manualExposure c) (currentExposure c) (autoExposureValue c)
    (luminanceRenderTarget c) (luminanceBuffer c) (averageLuminance c)
    (effects c ++ e).

Definition set_enabled (b : bool) (c : controller) : controller :=
  Controller (renderer c) (exposurePass c) (onExposureChange c) b
    (manualExposure c) (currentExposure c) (autoExposureValue c)
    (luminanceRenderTarget c) (luminanceBuffer c) (averageLuminance c)
    (effects c).

Definition set_manualExposure (v : option num) (c : controller) : controller :=
  Controller (renderer c) (exposurePass c) (onExposureChange c) (enabled c)
    v (currentExposure c) (autoExposureValue c)
    (luminanceRenderTarget c) (luminanceBuffer c) (averageLuminance c)
    (effects c).

Definition set_currentExposure (v : option num) (c : controller) : controller :=
  Controller (renderer c) (exposurePass c) (onExposureChange c) (enabled c)
    (manualExposure c) v (autoExposureValue c)
    (luminanceRenderTarget c) (luminanceBuffer c) (averageLuminance c)
    (effects c).

Definition set_autoExposureValue (v : option num) (c : controller) : controller :=
  Controller (renderer c) (exposurePass c) (onExposureChange c) (enabled c)
    (manualExposure c) (currentExposure c) v
    (luminanceRenderTarget c) (luminanceBuffer c) (averageLuminance c)
    (effects c).

Definition set_uniform (v : num) (c : controller) : controller :=
  Controller (renderer c) (Some v) (onExposureChange c) (enabled c)
    (manualExposure c) (currentExposure c) (autoExposureValue c)
    (luminanceRenderTarget c) (luminanceBuffer c) (averageLuminance c)
    (effects c).

Definition set_luminanceRenderTarget (b : bool) (c : controller) : controller :=
  Controller (renderer c) (exposurePass c) (onExposureChange c) (enabled c)
    (manualExposure c) (currentExposure c) (autoExposureValue c)
    b (luminanceBuffer c) (averageLuminance c)
    (effects c).

Definition set_luminanceBuffer (b : list Byte.byte) (c : controller) : controller :=
  Controller (renderer c) (exposurePass c) (onExposureChange c) (enabled c)
    (manualExposure c) (currentExposure c) (autoExposureValue c)
    (luminanceRenderTarget c) b (averageLuminance c)
    (effects c).

Definition set_averageLuminance (v : option num) (c : controller) : controller :=
  Controller (renderer c) (exposurePass c) (onExposureChange c) (enabled c)
    (manualExposure c) (currentExposure c) (autoExposureValue c)
    (luminanceRenderTarget c) (luminanceBuffer c) v
    (effects c).

(** [constructor({ renderer, exposurePass, onExposureChange, ... })] *)
Definition new (has_renderer : bool) (pass : option num) (callback : bool)
  : controller :=
  {| renderer := has_renderer;
     exposurePass := pass;
     onExposureChange := callback;
     enabled := false;
     manualExposure := Some (lit 1.0);
     currentExposure := Some (lit 1.0);
     autoExposureValue := Some (lit 1.0);
     luminanceRenderTarget := true;
     luminanceBuffer := repeat Byte.x00 (sampleSize * sampleSize * 4);
     averageLuminance := Some (lit 0.5);
     effects := [] |}.

(** [setExposure(value)] *)
Definition setExposure (value : num) (c : controller) : controller :=
  let c := set_currentExposure (Some value) c in
  let c := match exposurePass c with
           | Some _ => set_uniform value c
           | None => c
           end in
  if onExposureChange c then emit [OnExposureChange value] c else c.

(** [init(initialState)] with [initialState = { exposure, autoExposure }] *)
Definition init (exposure : option num) (autoExposure : option bool)
    (c : controller) : controller :=
  let m := exposure ?? lit 1.0 in
  let c := set_manualExposure (Some m) c in
  let c := set_currentExposure (manualExposure c) c in
  let c := set_autoExposureValue (manualExposure c) c in
  let c := set_enabled (autoExposure ?? false) c in
  match exposurePass c with
  | Some _ => set_uniform m c      (* the value just stored in currentExposure *)
  | None => c
  end.

(** [setEnabled(enabled)] *)
Definition setEnabled (b : bool) (c : controller) : controller :=
  let c := set_enabled b c in
  if enabled c then
    set_autoExposureValue
      (Some (nullish_opt (currentExposure c) (manualExposure c) ?? 1)) c
  else
    setExposure (manualExposure c ?? 1) c.

(** [setManualExposure(value)] *)
Definition setManualExposure (value : num) (c : controller) : controller :=
  let c := set_manualExposure (Some value) c in
  if negb (enabled c) then setExposure value c else c.

(** The typed array keeps its length: the bytes read overwrite it from
    index 0. *)
Definition write_pixels (buffer pixels : list Byte.byte) : list Byte.byte :=
  firstn (length buffer) (pixels ++ skipn (length pixels) buffer).

Definition channel (b : Byte.byte) : num := ofZ (Z.of_N (Byte.to_N b)) / lit 255.

(** The loop [for (i = 0; i < buffer.length; i += 4)] summing the Rec. 709
    luminance of every RGBA pixel.  The buffer length is a multiple of 4
    (it is [8 * 8 * 4]), so no trailing partial pixel is ever read. *)
Fixpoint sum_luminance (buffer : list Byte.byte) : num :=
  match buffer with
  | r :: g :: b :: _ :: rest =>
      (lit 0.2126 * channel r + lit 0.7152 * channel g + lit 0.0722 * channel b)
      + sum_luminance rest
  | _ => 0
  end.

(** [const avg = sum / (this.luminanceBuffer.length / 4)] *)
Definition average (buffer : list Byte.byte) : num :=
  sum_luminance buffer / (ofZ (Z.of_nat (length buffer)) / lit 4).

(** [sampleSceneLuminance()] *)
Definition sampleSceneLuminance (rb : readback) (c : controller)
  : completion controller :=
  if negb (luminanceRenderTarget c) || negb (renderer c) then Normal c
  else
    let c := emit [GetRenderTarget; SetRenderTargetLuminance; RenderScene;
                   SetRenderTargetPrevious] c in
    try_catch
      (let c := emit [ReadRenderTargetPixels] c in
       match rb with
       | ReadThrows err => Abrupt err c
       | PixelsRead pixels =>
           let c := set_luminanceBuffer (write_pixels (luminanceBuffer c) pixels) c in
           let avg := average (luminanceBuffer c) in
           Normal (set_averageLuminance
                     (Some (clamp (lerp (averageLuminance c ?? avg) avg (lit 0.35)) 0 1))
                     c)
       end)
      (fun _ c => Normal c).

Section WithMath.

(** [Math.pow] *)
Variable Math_pow : num -> num -> num.

(** The clamped luminance of [applyAutoExposure]. *)
Definition luminance (c : controller) : num :=
  clamp (averageLuminance c ?? target) (lit 0.05) (lit 1.2).

(** The target exposure of [applyAutoExposure], before the final clamp
    ([let targetExposure; if ... else ...]). *)
Definition rawTargetExposure (c : controller) : num :=
  let luminance := luminance c in
  if decide (brightThreshold < luminance) then
    let thresholdExposure := target / brightThreshold in
    let normalizedBrightness :=
      (luminance - brightThreshold) / (lit 1.2 - brightThreshold) in
    let curve := Math_pow normalizedBrightness (lit 1.8) in
    lerp thresholdExposure min curve
  else
    target / luminance.

(** [targetExposure = clamp(targetExposure, this.min, this.max)] *)
Definition targetExposure (c : controller) : num :=
  clamp (rawTargetExposure c) min max.

(** [applyAutoExposure()] *)
Definition applyAutoExposure (c : controller) : controller :=
  if negb (enabled c) then c
  else
    let targetExposure := targetExposure c in
    let value := lerp (autoExposureValue c ?? targetExposure) targetExposure smooth in
    let c := set_autoExposureValue (Some value) c in
    setExposure value c.

(** [update(unlitMode = false)] *)
Definition update (unlitMode : bool) (rb : readback) (c : controller)
  : completion controller :=
  if unlitMode then Normal c
  else
    match sampleSceneLuminance rb c with
    | Normal c => Normal (applyAutoExposure c)
    | Abrupt err c => Abrupt err c
    end.

End WithMath.

Definition getExposure (c : controller) : option num := currentExposure c.
Definition getAverageLuminance (c : controller) : option num := averageLuminance c.

(** [resetLuminance()] *)
Definition resetLuminance (c : controller) : controller :=
  let c := set_averageLuminance (Some target) c in
  set_autoExposureValue
    (Some (nullish_opt (currentExposure c) (manualExposure c) ?? 1)) c.

(** [applyStateSnapshot(state)] *)
Definition applyStateSnapshot (exposure : option num) (autoExposure : option bool)
    (c : controller) : controller :=
  let m := exposure ?? lit 1.0 in
  let c := set_manualExposure (Some m) c in
  let c := set_autoExposureValue (manualExposure c) c in
  let c := setEnabled (autoExposure ?? false) c in
  if negb (enabled c) then setExposure m c else c.

(** [dispose()] *)
Definition dispose (c : controller) : controller :=
  if luminanceRenderTarget c then
    set_luminanceRenderTarget false (emit [DisposeRenderTarget] c)
  else c.

(** The public operations a host performs on a controller. *)
Inductive op : Type :=
| Init (exposure : option num) (autoExposure : option bool)
| Update (unlitMode : bool) (rb : readback)
| SetManualExposure (value : num)
| SetEnabled (b : bool)
| ResetLuminance.

Definition step (Math_pow : num -> num -> num) (o : op) (c : controller)
  : completion controller :=
  match o with
  | Init e a => Normal (init e a c)
  | Update u rb => update Math_pow u rb c
  | SetManualExposure v => Normal (setManualExposure v c)
  | SetEnabled b => Normal (setEnabled b c)
  | ResetLuminance => Normal (resetLuminance c)
  end.

(** Runs the operations in order; an exception ends the run. *)
Fixpoint run (Math_pow : num -> num -> num) (ops : list op) (c : controller)
  : completion controller :=
  match ops with
  | [] => Normal c
  | o :: ops =>
      match step Math_pow o c with
      | Normal c => run Math_pow ops c
      | Abrupt err c => Abrupt err c
      end
  end.

End AutoExposureController.

(** ** PostProcessingPipeline (its constructor) *)

Module PostProcessingPipeline.

(** The pass-valued fields of the pipeline object. *)
Inductive slot : Type :=
| renderPass | bokehPass | bloomPass | filmPass | bloomTintPass
| grainTintPass | lensDirtPass | aberrationPass | exposurePass | fxaaPass
| colorAdjustPass | toneMappingPass.

Global Instance slot_eq_dec : EqDecision slot.
Proof. solve_decision. Defined.

(** What the constructor reads or writes of a three.js pass. *)
Record pass : Type := Pass {
  enabled : bool;
  renderToScreen : bool;
  clearAlpha : option num;
  uniforms : list (string * num);
}.

(** A pass as the three.js constructors ([RenderPass], [BokehPass],
    [UnrealBloomPass], [FilmPass], [ShaderPass]) leave it: the base class
    [Pass] sets [enabled = true] and [renderToScreen = false]. *)
Definition new_pass (uniforms : list (string * num)) : pass :=
  {| enabled := true; renderToScreen := false; clearAlpha := None;
     uniforms := uniforms |}.

Definition with_enabled (b : bool) (p : pass) : pass :=
  Pass b (renderToScreen p) (clearAlpha p) (uniforms p).
Definition with_renderToScreen (b : bool) (p : pass) : pass :=
  Pass (enabled p) b (clearAlpha p) (uniforms p).
Definition with_clearAlpha (a : num) (p : pass) : pass :=
  Pass (enabled p) (renderToScreen p) (Some a) (uniforms p).
Definition with_uniform (name : string) (v : num) (p : pass) : pass :=
  Pass (enabled p) (renderToScreen p) (clearAlpha p)
    ((name, v) :: List.filter (fun kv => negb (String.eqb (fst kv) name)) (uniforms p)).

(** The pipeline object: its fields, and the composer's pass list, which
    holds references to the same objects. *)
Record pipeline : Type := Pipeline {
  field : slot -> option pass;
  composer : list slot;
}.

Definition empty : pipeline := {| field := fun _ => None; composer := [] |}.

(** [this.<slot> = p] *)
Definition assign (s : slot) (p : pass) (P : pipeline) : pipeline :=
  {| field := fun s' => if decide (s' = s) then Some p else field P s';
     composer := composer P |}.

(** [this.<slot>.<property> = ...] *)
Definition modify (s : slot) (f : pass -> pass) (P : pipeline) : pipeline :=
  {| field := fun s' => if decide (s' = s) then f <$> field P s else field P s';
     composer := composer P |}.

(** [this.composer.addPass(this.<slot>)]: appended at the end. *)
Definition addPass (s : slot) (P : pipeline) : pipeline :=
  {| field := field P; composer := composer P ++ [s] |}.

(** [constructor(renderer, scene, camera)], with the size and pixel ratio
    the renderer reports and the pass [ColorAdjustController.getPass()]
    returns (that controller is not part of these sources). *)
Definition constructor (size_x size_y pixelRatio : num) (colorAdjust_getPass : pass)
  : pipeline :=
  let P := empty in
  let P := assign renderPass (new_pass []) P in
  let P := modify renderPass (with_clearAlpha 0) P in
  let P := assign bokehPass
             (new_pass [("focus"%string, lit 10); ("aperture"%string, lit 0.003);
                        ("maxblur"%string, lit 0.01)]) P in
  let P := assign bloomPass
             (new_pass [("strength"%string, lit 1.2); ("radius"%string, lit 0.35);
                        ("threshold"%string, lit 0.85)]) P in
  let P := assign filmPass (new_pass [("intensity"%string, lit 0.0)]) P in
  let P := assign bloomTintPass (new_pass []) P in
  let P := assign grainTintPass (new_pass []) P in
  let P := modify grainTintPass (with_uniform "time" 0) P in
  let P := assign lensDirtPass (new_pass []) P in
  let P := modify lensDirtPass (with_enabled false) P in
  let P := assign aberrationPass (new_pass []) P in
  let P := assign exposurePass (new_pass []) P in
  let P := assign fxaaPass (new_pass []) P in
  let P := modify fxaaPass (with_uniform "resolution.x" (1 / (size_x * pixelRatio))) P in
  let P := modify fxaaPass (with_uniform "resolution.y" (1 / (size_y * pixelRatio))) P in
  let P := modify fxaaPass (with_enabled false) P in
  let P := modify aberrationPass (with_renderToScreen false) P in
  let P := modify fxaaPass (with_renderToScreen false) P in
  let P := modify exposurePass (with_renderToScreen false) P in
  let P := assign colorAdjustPass colorAdjust_getPass P in
  let P := assign toneMappingPass (new_pass []) P in
  let P := modify toneMappingPass (with_renderToScreen true) P in
  let P := addPass renderPass P in
  let P := addPass bokehPass P in
  let P := addPass bloomPass P in
  let P := addPass bloomTintPass P in
  let P := addPass lensDirtPass P in
  let P := addPass filmPass P in
  let P := addPass grainTintPass P in
  let P := addPass aberrationPass P in
  let P := addPass fxaaPass P in
  let P := addPass exposurePass P in
  let P := addPass colorAdjustPass P in
  addPass toneMappingPass P.

(** The passes of the chain that satisfy [f], in chain order. *)
Definition chain_where (f : pass -> bool) (P : pipeline) : list slot :=
  List.filter (fun s => match field P s with Some p => f p | None => false end)
    (composer P).

(** The stage of the chain a pass implements, in the spec's vocabulary. *)
Inductive stage : Type :=
| GeometryRender | DepthOfField | Bloom | Tint | Grain | ChromaticAberration
| AntiAliasing | Exposure | ColorGrade | ToneMap.

Definition stage_of (s : slot) : stage :=
  match s with
  | renderPass => GeometryRender
  | bokehPass => DepthOfField
  | bloomPass => Bloom
  | bloomTintPass | lensDirtPass => Tint
  | filmPass | grainTintPass => Grain
  | aberrationPass => ChromaticAberration
  | fxaaPass => AntiAliasing
  | exposurePass => Exposure
  | colorAdjustPass => ColorGrade
  | toneMappingPass => ToneMap
  end.

Global Instance stage_eq_dec : EqDecision stage.
Proof. solve_decision. Defined.

(** Collapses runs of equal neighbours. *)
Fixpoint runs {A} `{EqDecision A} (l : list A) : list A :=
  match l with
  | [] => []
  | x :: rest =>
      match rest with
      | y :: _ => if decide (x = y) then runs rest else x :: runs rest
      | [] => [x]
      end
  end.

End PostProcessingPipeline.

(** ** EnvironmentController.js *)

Module EnvironmentController.

(** GPU resources (textures, render targets, the PMREM generator,
    geometries, materials) are told apart by an identity. *)
Definition res : Type := nat.

Inductive texType : Type := UnsignedByteType | HalfFloatType | FloatType.
Inductive texEncoding : Type := RGBEEncoding | sRGBEncoding | LinearEncoding.
Inductive texFormat : Type := RGBAFormat | RGBFormat.
Inductive texMapping : Type := UVMapping | EquirectangularReflectionMapping.

Global Instance texType_eq_dec : EqDecision texType.
Proof. solve_decision. Defined.
Global Instance texEncoding_eq_dec : EqDecision texEncoding.
Proof. solve_decision. Defined.

(** [{ width, height }], either of which may be undefined. *)
Record size : Type := Size { width : option nat; height : option nat }.

(** Where the pixels of a texture come from. *)
Inductive content : Type :=
| Decoded (url : string)                       (* a loader's output *)
| RotatedFrom (source : res) (rotation : num)  (* rendered by the RotateEquirect shader *)
| ConvolvedFrom (source : res).                (* PMREMGenerator.fromEquirectangular *)

Record texture : Type := Texture {
  tex_id : res;
  tex_content : content;
  image : option size;         (* texture.image *)
  image_data : option size;    (* texture.image.data *)
  source_data : option size;   (* texture.source.data *)
  format : option texFormat;   (* None: undefined or 0 *)
  type : option texType;
  encoding : option texEncoding;
  mapping : texMapping;
  mipmapFilters : bool;        (* minFilter/magFilter set by _applyEnvironment *)
}.

Record renderTarget : Type := RenderTarget {
  rt_id : res;
  rt_texture : texture;
}.

(** A preset entry: a URL string, or an object [{ url, type }]. *)
Inductive preset_config : Type :=
| ConfigUrl (url : string)
| ConfigObject (url : option string) (type : option string).

(** The fields of the scene the controller writes. *)
Record sceneGraph : Type := SceneGraph {
  environment : option texture;
  environmentIntensity : num;
  background : option texture;
  has_backgroundBlurriness : bool;     (* 'backgroundBlurriness' in scene *)
  backgroundBlurriness : num;
  backgroundIntensity : num;
}.

Inductive effect : Type :=
| CompileEquirectangularShader
| SetClearColor (color : string) (alpha : num)
| NotifyEnvironmentMapUpdated (t : option texture) (intensity : num)
| RenderQuad (target : res) (source : res) (rotation : num)
| ConsoleError (msg : string) (preset : string)
| ConsoleWarn (msg : string).

(** What a loader's promise settles to. *)
Inductive load_outcome : Type :=
| Resolved (t : option texture)      (* [None]: resolved with a falsy value *)
| Rejected (err : string).

Record controller : Type := Controller {
  presets : gmap string preset_config;    (* the preset table given to the constructor *)
  moods : gmap string string;
  onEnvironmentMapUpdated : bool;    (* a callback function was given *)
  enabled : bool;
  backgroundEnabled : bool;
  strength : num;
  blurriness : num;
  rotation : num;
  fallbackColor : string;
  pmremGenerator : option res;
  cache : gmap string texture;
  currentPreset : option string;
  currentEnvironmentTexture : option texture;
  environmentRenderTarget : option renderTarget;
  rotationRenderTarget : option renderTarget;
  scene : sceneGraph;    (* the scene object shared with the renderer *)
  clearColor : option (string * num);    (* renderer.setClearColor(color, alpha) *)
  next_id : res;    (* the next unused resource identity *)
  disposed : gset res;    (* resources on which dispose() was called *)
  effects : list effect;    (* most recent last *)
}.

Definition set_enabled (v : bool) (c : controller) : controller :=
  Controller (presets c) (moods c) (onEnvironmentMapUpdated c) v
    (backgroundEnabled c) (strength c) (blurriness c) (rotation c) (fallbackColor
    c) (pmremGenerator c) (cache c) (currentPreset c) (currentEnvironmentTexture
    c) (environmentRenderTarget c) (rotationRenderTarget c) (scene c) (clearColor
    c) (next_id c) (disposed c) (effects c).

Definition set_backgroundEnabled (v : bool) (c : controller) : controller :=
  Controller (presets c) (moods c) (onEnvironmentMapUpdated c) (enabled c) v
    (strength c) (blurriness c) (rotation c) (fallbackColor c) (pmremGenerator c)
    (cache c) (currentPreset c) (currentEnvironmentTexture c)
    (environmentRenderTarget c) (rotationRenderTarget c) (scene c) (clearColor c)
    (next_id c) (disposed c) (effects c).

Definition set_strength (v : num) (c : controller) : controller :=
  Controller (presets c) (moods c) (onEnvironmentMapUpdated c) (enabled c)
    (backgroundEnabled c) v (blurriness c) (rotation c) (fallbackColor c)
    (pmremGenerator c) (cache c) (currentPreset c) (currentEnvironmentTexture c)
    (environmentRenderTarget c) (rotationRenderTarget c) (scene c) (clearColor c)
    (next_id c) (disposed c) (effects c).

Definition set_blurriness (v : num) (c : controller) : controller :=
  Controller (presets c) (moods c) (onEnvironmentMapUpdated c) (enabled c)
    (backgroundEnabled c) (strength c) v (rotation c) (fallbackColor c)
    (pmremGenerator c) (cache c) (currentPreset c) (currentEnvironmentTexture c)
    (environmentRenderTarget c) (rotationRenderTarget c) (scene c) (clearColor c)
    (next_id c) (disposed c) (effects c).

Definition set_rotation (v : num) (c : controller) : controller :=
  Controller (presets c) (moods c) (onEnvironmentMapUpdated c) (enabled c)
    (backgroundEnabled c) (strength c) (blurriness c) v (fallbackColor c)
    (pmremGenerator c) (cache c) (currentPreset c) (currentEnvironmentTexture c)
    (environmentRenderTarget c) (rotationRenderTarget c) (scene c) (clearColor c)
    (next_id c) (disposed c) (effects c).

Definition set_fallbackColor (v : string) (c : controller) : controller :=
  Controller (presets c) (moods c) (onEnvironmentMapUpdated c) (enabled c)
    (backgroundEnabled c) (strength c) (blurriness c) (rotation c) v
    (pmremGenerator c) (cache c) (currentPreset c) (currentEnvironmentTexture c)
    (environmentRenderTarget c) (rotationRenderTarget c) (scene c) (clearColor c)
    (next_id c) (disposed c) (effects c).

Definition set_cache (v : gmap string texture) (c : controller) : controller :=
  Controller (presets c) (moods c) (onEnvironmentMapUpdated c) (enabled c)
    (backgroundEnabled c) (strength c) (blurriness c) (rotation c) (fallbackColor
    c) (pmremGenerator c) v (currentPreset c) (currentEnvironmentTexture c)
    (environmentRenderTarget c) (rotationRenderTarget c) (scene c) (clearColor c)
    (next_id c) (disposed c) (effects c).

Definition set_currentPreset (v : option string) (c : controller) : controller :=
  Controller (presets c) (moods c) (onEnvironmentMapUpdated c) (enabled c)
    (backgroundEnabled c) (strength c) (blurriness c) (rotation c) (fallbackColor
    c) (pmremGenerator c) (cache c) v (currentEnvironmentTexture c)
    (environmentRenderTarget c) (rotationRenderTarget c) (scene c) (clearColor c)
    (next_id c) (disposed c) (effects c).

Definition set_currentEnvironmentTexture (v : option texture) (c : controller) : controller :=
  Controller (presets c) (moods c) (onEnvironmentMapUpdated c) (enabled c)
    (backgroundEnabled c) (strength c) (blurriness c) (rotation c) (fallbackColor
    c) (pmremGenerator c) (cache c) (currentPreset c) v (environmentRenderTarget
    c) (rotationRenderTarget c) (scene c) (clearColor c) (next_id c) (disposed c)
    (effects c).

Definition set_environmentRenderTarget (v : option renderTarget) (c : controller) : controller :=
  Controller (presets c) (moods c) (onEnvironmentMapUpdated c) (enabled c)
    (backgroundEnabled c) (strength c) (blurriness c) (rotation c) (fallbackColor
    c) (pmremGenerator c) (cache c) (currentPreset c) (currentEnvironmentTexture
    c) v (rotationRenderTarget c) (scene c) (clearColor c) (next_id c) (disposed
    c) (effects c).

Definition set_rotationRenderTarget (v : option renderTarget) (c : controller) : controller :=
  Controller (presets c) (moods c) (onEnvironmentMapUpdated c) (enabled c)
    (backgroundEnabled c) (strength c) (blurriness c) (rotation c) (fallbackColor
    c) (pmremGenerator c) (cache c) (currentPreset c) (currentEnvironmentTexture
    c) (environmentRenderTarget c) v (scene c) (clearColor c) (next_id c)
    (disposed c) (effects c).

Definition set_scene (v : sceneGraph) (c : controller) : controller :=
  Controller (presets c) (moods c) (onEnvironmentMapUpdated c) (enabled c)
    (backgroundEnabled c) (strength c) (blurriness c) (rotation c) (fallbackColor
    c) (pmremGenerator c) (cache c) (currentPreset c) (currentEnvironmentTexture
    c) (environmentRenderTarget c) (rotationRenderTarget c) v (clearColor c)
    (next_id c) (disposed c) (effects c).

Definition set_clearColor (v : option (string * num)) (c : controller) : controller :=
  Controller (presets c) (moods c) (onEnvironmentMapUpdated c) (enabled c)
    (backgroundEnabled c) (strength c) (blurriness c) (rotation c) (fallbackColor
    c) (pmremGenerator c) (cache c) (currentPreset c) (currentEnvironmentTexture
    c) (environmentRenderTarget c) (rotationRenderTarget c) (scene c) v (next_id
    c) (disposed c) (effects c).

Definition set_next_id (v : res) (c : controller) : controller :=
  Controller (presets c) (moods c) (onEnvironmentMapUpdated c) (enabled c)
    (backgroundEnabled c) (strength c) (blurriness c) (rotation c) (fallbackColor
    c) (pmremGenerator c) (cache c) (currentPreset c) (currentEnvironmentTexture
    c) (environmentRenderTarget c) (rotationRenderTarget c) (scene c) (clearColor
    c) v (disposed c) (effects c).

Definition set_disposed (v : gset res) (c : controller) : controller :=
  Controller (presets c) (moods c) (onEnvironmentMapUpdated c) (enabled c)
    (backgroundEnabled c) (strength c) (blurriness c) (rotation c) (fallbackColor
    c) (pmremGenerator c) (cache c) (currentPreset c) (currentEnvironmentTexture
    c) (environmentRenderTarget c) (rotationRenderTarget c) (scene c) (clearColor
    c) (next_id c) v (effects c).

Definition set_effects (v : list effect) (c : controller) : controller :=
  Controller (presets c) (moods c) (onEnvironmentMapUpdated c) (enabled c)
    (backgroundEnabled c) (strength c) (blurriness c) (rotation c) (fallbackColor
    c) (pmremGenerator c) (cache c) (currentPreset c) (currentEnvironmentTexture
    c) (environmentRenderTarget c) (rotationRenderTarget c) (scene c) (clearColor
    c) (next_id c) (disposed c) v.

Definition emit (e : effect) (c : controller) : controller :=
  set_effects (effects c ++ [e]) c.

(** Takes the next resource identity. *)
Definition alloc (c : controller) : res * controller :=
  (next_id c, set_next_id (S (next_id c)) c).

(** [resource.dispose()] *)
Definition gpu_dispose (r : res) (c : controller) : controller :=
  set_disposed ({[ r ]} ∪ disposed c) c.

Definition truthy_string (s : string) : bool := negb (String.eqb s "").
Definition truthy_nat (n : option nat) : bool :=
  match n with Some (S _) => true | _ => false end.

(** [constructor(scene, renderer, options)]; the options arrive with their
    defaults filled in. *)
Definition constructor (scene0 : sceneGraph)
    (presets0 : gmap string preset_config) (moods0 : gmap string string)
    (initialPreset : option string) (enabled0 backgroundEnabled0 : bool)
    (strength0 blurriness0 rotation0 : num) (fallbackColor0 : string)
    (callback : bool) : controller :=
  {| presets := presets0; moods := moods0; onEnvironmentMapUpdated := callback;
     enabled := enabled0; backgroundEnabled := backgroundEnabled0;
     strength := strength0; blurriness := blurriness0; rotation := rotation0;
     fallbackColor := fallbackColor0;
     pmremGenerator := Some 0%nat;
     cache := ∅;
     currentPreset := initialPreset;
     currentEnvironmentTexture := None;
     environmentRenderTarget := None;
     rotationRenderTarget := None;
     scene := scene0;
     clearColor := None;
     next_id := 1%nat;
     disposed := ∅;
     effects := [CompileEquirectangularShader] |}.

(** [dispose()] *)
Definition dispose (c : controller) : controller :=
  let c := match environmentRenderTarget c with
           | Some rt => set_environmentRenderTarget None (gpu_dispose (rt_id rt) c)
           | None => c
           end in
  let c := match rotationRenderTarget c with
           | Some rt => set_rotationRenderTarget None (gpu_dispose (rt_id rt) c)
           | None => c
           end in
  match pmremGenerator c with
  | Some g => gpu_dispose g c
  | None => c
  end.

(** [renderer.setClearColor(new THREE.Color(this.fallbackColor), 1)] *)
Definition clear_to_fallback (c : controller) : controller :=
  emit (SetClearColor (fallbackColor c) 1)
    (set_clearColor (Some (fallbackColor c, 1)) c).

(** [setFallbackColor(color)] *)
Definition setFallbackColor (color : option string) (c : controller) : controller :=
  let c := set_fallbackColor (color ?? fallbackColor c) c in
  if negb (backgroundEnabled c) || negb (enabled c)
     || negb (bool_decide (is_Some (currentEnvironmentTexture c)))
  then clear_to_fallback c else c.

(** [_notifyEnvironmentMapUpdated(texture, intensity)] *)
Definition _notifyEnvironmentMapUpdated (t : option texture) (intensity : num)
    (c : controller) : controller :=
  if onEnvironmentMapUpdated c then emit (NotifyEnvironmentMapUpdated t intensity) c
  else c.

(** [_createRotatedTexture(sourceTexture, rotationDegrees)], called with a
    texture that is not null. *)
Definition _createRotatedTexture (sourceTexture : texture) (rotationDegrees : num)
    (c : controller) : texture * controller :=
  let rotation := rem (rotationDegrees / lit 360) (lit 1.0) in
  let c := match rotationRenderTarget c with
           | Some rt => set_rotationRenderTarget None (gpu_dispose (rt_id rt) c)
           | None => c
           end in
  let wh := (image sourceTexture ≫= width, image sourceTexture ≫= height) in
  let wh := match image_data sourceTexture with
            | Some d => if negb (truthy_nat (fst wh)) then (width d, height d) else wh
            | None => wh
            end in
  let wh := match source_data sourceTexture with
            | Some d => if negb (truthy_nat (fst wh)) then (width d, height d) else wh
            | None => wh
            end in
  if negb (truthy_nat (fst wh)) then
    (sourceTexture,
     emit (ConsoleWarn "Could not detect HDRI texture dimensions, skipping rotation") c)
  else
    let isHDR :=
      bool_decide (encoding sourceTexture = Some RGBEEncoding)
      || bool_decide (type sourceTexture = Some HalfFloatType)
      || bool_decide (type sourceTexture = Some FloatType) in
    let format := format sourceTexture ?? RGBAFormat in
    let type := type sourceTexture ?? UnsignedByteType in
    let encoding := encoding sourceTexture ?? sRGBEncoding in
    let type :=
      if isHDR then
        if bool_decide (type = UnsignedByteType) && bool_decide (encoding = RGBEEncoding)
        then UnsignedByteType
        else if bool_decide (type <> HalfFloatType) && bool_decide (type <> FloatType)
             then HalfFloatType else type
      else type in
    let '(target, c) := alloc c in       (* new THREE.WebGLRenderTarget *)
    let '(material, c) := alloc c in     (* new THREE.ShaderMaterial *)
    let '(geometry, c) := alloc c in     (* new THREE.PlaneGeometry *)
    let c := emit (RenderQuad target (tex_id sourceTexture) rotation) c in
    let c := gpu_dispose geometry c in
    let c := gpu_dispose material c in
    let rotatedTexture :=
      {| tex_id := target;
         tex_content := RotatedFrom (tex_id sourceTexture) rotation;
         image := Some (Size (fst wh) (snd wh));
         image_data := None;
         source_data := None;
         format := Some format;
         type := Some type;
         encoding := Some encoding;
         mapping := EquirectangularReflectionMapping;
         mipmapFilters := false |} in
    (rotatedTexture,
     set_rotationRenderTarget (Some (RenderTarget target rotatedTexture)) c).

(** [this.pmremGenerator.fromEquirectangular(sourceTexture)], followed by
    the two filter assignments on the target's texture. *)
Definition fromEquirectangular (sourceTexture : texture) (c : controller)
  : renderTarget * controller :=
  let '(target, c) := alloc c in
  (RenderTarget target
     {| tex_id := target;
        tex_content := ConvolvedFrom (tex_id sourceTexture);
        image := None; image_data := None; source_data := None;
        format := None; type := None; encoding := None;
        mapping := UVMapping;
        mipmapFilters := true |},
   c).

(** [_applyEnvironment()] *)
Definition _applyEnvironment (c : controller) : controller :=
  match (if enabled c then currentEnvironmentTexture c else None) with
  | None =>
      let sc := scene c in
      let c := set_scene
                 (SceneGraph None 0 None (has_backgroundBlurriness sc)
                    (backgroundBlurriness sc) (backgroundIntensity sc)) c in
      let c := clear_to_fallback c in
      _notifyEnvironmentMapUpdated None 0 c
  | Some current =>
      let c := match environmentRenderTarget c with
               | Some rt => set_environmentRenderTarget None (gpu_dispose (rt_id rt) c)
               | None => c
               end in
      let '(sourceTexture, c) :=
        if bool_decide (rotation c <> 0)
        then _createRotatedTexture current (rotation c) c
        else (current, c) in
      let '(envTexture, c) :=
        match pmremGenerator c with
        | Some _ =>
            let '(target, c) := fromEquirectangular sourceTexture c in
            (rt_texture target, set_environmentRenderTarget (Some target) c)
        | None => (sourceTexture, c)
        end in
      let sc := scene c in
      let c := set_scene
                 (SceneGraph (Some envTexture) (strength c) (background sc)
                    (has_backgroundBlurriness sc) (backgroundBlurriness sc)
                    (backgroundIntensity sc)) c in
      let c := _notifyEnvironmentMapUpdated (Some envTexture) (strength c) c in
      if backgroundEnabled c then
        let '(bgTexture, c) :=
          if bool_decide (rotation c <> 0)
          then _createRotatedTexture current (rotation c) c
          else (current, c) in
        let bgTexture := if bool_decide (0 < blurriness c) then envTexture else bgTexture in
        let sc := scene c in
        set_scene
          (if has_backgroundBlurriness sc then
             SceneGraph (environment sc) (environmentIntensity sc) (Some bgTexture)
               true (blurriness c) (strength c)
           else
             SceneGraph (environment sc) (environmentIntensity sc) (Some bgTexture)
               false (backgroundBlurriness sc) (backgroundIntensity sc)) c
      else
        let sc := scene c in
        let c := set_scene
                   (if has_backgroundBlurriness sc then
                      SceneGraph (environment sc) (environmentIntensity sc) None true 0 1
                    else
                      SceneGraph (environment sc) (environmentIntensity sc) None
                        false (backgroundBlurriness sc) (backgroundIntensity sc)) c in
        clear_to_fallback c
  end.

(** [getMood(preset)] *)
Definition getMood (preset : string) (c : controller) : option string :=
  moods c !! preset.

Definition getCurrentPreset (c : controller) : option string := currentPreset c.

(** The first half of [_loadHdriTexture(config)]: the URL to fetch and
    whether the LDR loader is used, or the exception for a missing source. *)
Definition load_request (config : preset_config) : string + (string * bool) :=
  let source := match config with
                | ConfigUrl url => Some url
                | ConfigObject url _ => url
                end in
  let type := match config with
              | ConfigUrl _ => Some "hdr"%string
              | ConfigObject _ type => type
              end in
  match source with
  | Some url =>
      if truthy_string url
      then inr (url, bool_decide (type = Some "ldr"%string))
      else inl "Missing HDRI source"%string
  | None => inl "Missing HDRI source"%string
  end.

(** [setPreset(preset)] is asynchronous.  It either finishes at once with
    its result, or suspends on the loader. *)
Inductive started : Type :=
| Finished (result : option string) (c : controller)
| Awaiting (url : string) (ldr : bool).

Definition setPreset_catch (preset err : string) (c : controller)
  : option string * controller :=
  (None, emit (ConsoleError err preset) c).

(** [setPreset] up to the [await].  The preset table is modelled by its
    own keys: [this.presets[preset]] is taken to be truthy exactly when
    the key is present, so an entry whose URL is the empty string, and the
    keys a plain object inherits ([toString] and the like), are outside
    the model. *)
Definition setPreset_start (preset : option string) (c : controller) : started :=
  match preset with
  | None => Finished None c
  | Some preset =>
      match (if truthy_string preset then presets c !! preset else None) with
      | None => Finished None c
      | Some config =>
          let cached := if bool_decide (currentPreset c = Some preset)
                        then cache c !! preset else None in
          match cached with
          | Some t =>
              let c := set_currentEnvironmentTexture (Some t) c in
              let c := _applyEnvironment c in
              Finished (moods c !! preset) c
          | None =>
              match load_request config with
              | inl err =>
                  let '(r, c) := setPreset_catch preset err c in Finished r c
              | inr (url, ldr) => Awaiting url ldr
              end
          end
      end
  end.

(** [setPreset] from the [await] on, once the loader has settled.  The
    texture the loader built gets a fresh identity; the LDR path tags it
    sRGB, both paths tag it equirectangular. *)
Definition setPreset_resume (preset : string) (ldr : bool) (outcome : load_outcome)
    (c : controller) : option string * controller :=
  match outcome with
  | Rejected err => setPreset_catch preset err c
  | Resolved None => setPreset_catch preset "HDRI texture failed to load" c
  | Resolved (Some t) =>
      let '(id, c) := alloc c in
      let texture :=
        Texture id (tex_content t) (image t) (image_data t) (source_data t)
          (format t) (type t) (if ldr then Some sRGBEncoding else encoding t)
          EquirectangularReflectionMapping (mipmapFilters t) in
      let c := set_cache (<[preset := texture]> (cache c)) c in
      let c := set_currentPreset (Some preset) c in
      let c := set_currentEnvironmentTexture (Some texture) c in
      let c := _applyEnvironment c in
      (moods c !! preset, c)
  end.

(** A call of [setPreset] that nothing else interleaves with. *)
Definition setPreset (preset : option string) (outcome : load_outcome)
    (c : controller) : option string * controller :=
  match setPreset_start preset c with
  | Finished r c => (r, c)
  | Awaiting _ ldr => setPreset_resume (preset ?? ""%string) ldr outcome c
  end.

(** [setEnabled(enabled)] *)
Definition setEnabled (b : bool) (c : controller) : controller :=
  _applyEnvironment (set_enabled b c).

(** [setBackgroundEnabled(enabled)] *)
Definition setBackgroundEnabled (b : bool) (c : controller) : controller :=
  _applyEnvironment (set_backgroundEnabled b c).

(** [setStrength(value)] *)
Definition setStrength (value : option num) (c : controller) : controller :=
  _applyEnvironment (set_strength (Math_max 0 (value ?? strength c)) c).

(** [setBlurriness(value)] *)
Definition setBlurriness (value : option num) (c : controller) : controller :=
  _applyEnvironment
    (set_blurriness (Math_min 1 (Math_max 0 (value ?? blurriness c))) c).

(** [((value ?? 0) % 360 + 360) % 360] *)
Definition normalize (value : num) : num :=
  rem (rem value (lit 360) + lit 360) (lit 360).

(** [setRotation(value)] *)
Definition setRotation (value : option num) (c : controller) : controller :=
  let normalized := normalize (value ?? 0) in
  if bool_decide (rotation c = normalized) then c
  else _applyEnvironment (set_rotation normalized c).

End EnvironmentController.

(** ** LightsController.js (the rig, its rotation and its indicators) *)

Module LightsController.

Record Vector3 : Type := Vec { x : num; y : num; z : num }.

Definition sub (a b : Vector3) : Vector3 := Vec (x a - x b) (y a - y b) (z a - z b).
Definition add (a b : Vector3) : Vector3 := Vec (x a + x b) (y a + y b) (z a + z b).
Definition multiplyScalar (a : Vector3) (s : num) : Vector3 :=
  Vec (x a * s) (y a * s) (z a * s).
Definition negate (a : Vector3) : Vector3 := Vec (- x a) (- y a) (- z a).

Record Quaternion : Type := Quat { qx : num; qy : num; qz : num; qw : num }.

(** The directional lights that [setRotation] and the indicators visit:
    [['key', 'fill', 'rim']]. *)
Inductive lightId : Type := key | fill | rim.

Record shadowSettings : Type := Shadow {
  radius : num; mapSize : num * num; bias : num;
}.

Record light : Type := Light {
  position : Vector3;
  color : string;
  intensity : num;
  isAmbientLight : bool;
  castShadow : bool;
  shadow : option shadowSettings;
}.

Definition with_position (p : Vector3) (l : light) : light :=
  Light p (color l) (intensity l) (isAmbientLight l) (castShadow l) (shadow l).

(** [this.lights] *)
Record rig : Type := Rig {
  key_light : light; fill_light : light; rim_light : light; ambient_light : light;
}.

(** [this.basePositions] *)
Record bases : Type := Bases { key_base : Vector3; fill_base : Vector3; rim_base : Vector3 }.

Record bounds : Type := Bounds { center : Vector3; radius_of : num }.

(** One cone of the indicator group. *)
Record indicator : Type := Indicator {
  lightId_of : lightId;           (* userData.lightId *)
  ind_position : Vector3;
  ind_color : string;             (* material.color *)
  ind_scale : Vector3;
  ind_quaternion : Quaternion;
}.

Record controller : Type := Controller {
  lightsEnabled : bool;
  lightsMaster : num;
  rotation : num;
  autoRotateSpeed : num;
  modelBounds : option bounds;
  showIndicators : bool;
  lightIndicators : option (list indicator);
  lights : rig;
  basePositions : option bases;
}.

Definition light_of (id : lightId) (r : rig) : light :=
  match id with key => key_light r | fill => fill_light r | rim => rim_light r end.

Definition base_of (id : lightId) (b : bases) : Vector3 :=
  match id with key => key_base b | fill => fill_base b | rim => rim_base b end.

Definition set_light (id : lightId) (l : light) (r : rig) : rig :=
  match id with
  | key => Rig l (fill_light r) (rim_light r) (ambient_light r)
  | fill => Rig (key_light r) l (rim_light r) (ambient_light r)
  | rim => Rig (key_light r) (fill_light r) l (ambient_light r)
  end.

Definition set_rotation (v : num) (c : controller) : controller :=
  Controller (lightsEnabled c) (lightsMaster c) v (autoRotateSpeed c) (modelBounds c)
    (showIndicators c) (lightIndicators c) (lights c) (basePositions c).
Definition set_modelBounds (v : option bounds) (c : controller) : controller :=
  Controller (lightsEnabled c) (lightsMaster c) (rotation c) (autoRotateSpeed c) v
    (showIndicators c) (lightIndicators c) (lights c) (basePositions c).
Definition set_showIndicators (v : bool) (c : controller) : controller :=
  Controller (lightsEnabled c) (lightsMaster c) (rotation c) (autoRotateSpeed c)
    (modelBounds c) v (lightIndicators c) (lights c) (basePositions c).
Definition set_lightIndicators (v : option (list indicator)) (c : controller)
  : controller :=
  Controller (lightsEnabled c) (lightsMaster c) (rotation c) (autoRotateSpeed c)
    (modelBounds c) (showIndicators c) v (lights c) (basePositions c).
Definition set_lights (v : rig) (c : controller) : controller :=
  Controller (lightsEnabled c) (lightsMaster c) (rotation c) (autoRotateSpeed c)
    (modelBounds c) (showIndicators c) (lightIndicators c) v (basePositions c).

Definition directional (intensity0 : num) (p : Vector3) : light :=
  {| position := p; color := "#ffffff"; intensity := intensity0;
     isAmbientLight := false; castShadow := true;
     shadow := Some (Shadow (lit 4) (lit 2048, lit 2048) (- lit 0.0001)) |}.

(** [constructor(scene, options)], with the four options after their
    [??] defaults. *)
Definition constructor (enabled0 : option bool) (master0 rotation0 speed0 : option num)
  : controller :=
  let rig0 :=
    {| key_light := directional (lit 4) (Vec (lit 5) (lit 5) (lit 5));
       fill_light := directional (lit 2.5) (Vec (- lit 4) (lit 3) (lit 3));
       rim_light := directional (lit 3) (Vec (- lit 2) (lit 4) (- lit 4));
       ambient_light :=
         {| position := Vec 0 0 0; color := "#7c8ca6"; intensity := lit 1.5;
            isAmbientLight := true; castShadow := false; shadow := None |} |} in
  {| lightsEnabled := enabled0 ?? true;
     lightsMaster := master0 ?? 1;
     rotation := rotation0 ?? 0;
     autoRotateSpeed := speed0 ?? lit 30;
     modelBounds := None;
     showIndicators := false;
     lightIndicators := None;
     lights := rig0;
     basePositions :=
       Some (Bases (position (key_light rig0)) (position (fill_light rig0))
               (position (rim_light rig0))) |}.

Section WithMath.

(** [Math.cos], [Math.sin], [THREE.MathUtils.DEG2RAD] (that is
    [Math.PI / 180]), [Vector3.normalize] and
    [Quaternion.setFromUnitVectors]. *)
Variable Math_cos Math_sin : num -> num.
Variable DEG2RAD : num.
Variable Vector3_normalize : Vector3 -> Vector3.
Variable setFromUnitVectors : Vector3 -> Vector3 -> Quaternion.

Definition degToRad (degrees : num) : num := degrees * DEG2RAD.

(** The body of the [traverse] callback of [updateIndicators] for one
    cone. *)
Definition place_indicator (b : bounds) (r : rig) (child : indicator) : indicator :=
  let baseDistance := radius_of b * lit 2.5 in
  let light := light_of (lightId_of child) r in
  let lightPos := position light in
  let direction := Vector3_normalize (sub lightPos (center b)) in
  let newPosition := add (center b) (multiplyScalar direction baseDistance) in
  let maxIntensity := lit 10 in
  let normalizedIntensity := Math_min (intensity light / maxIntensity) 1 in
  let scale := lit 0.5 + normalizedIntensity * lit 2.0 in
  let dirToCenter := Vector3_normalize (sub (center b) newPosition) in
  {| lightId_of := lightId_of child;
     ind_position := newPosition;
     ind_color := color light;
     ind_scale := Vec scale scale scale;
     ind_quaternion := setFromUnitVectors (negate (Vec 0 1 0)) dirToCenter |}.

(** [updateIndicators()] *)
Definition updateIndicators (c : controller) : controller :=
  match lightIndicators c, modelBounds c with
  | Some group, Some b =>
      set_lightIndicators (Some (map (place_indicator b (lights c)) group)) c
  | _, _ => c
  end.

(** [clearIndicators()] *)
Definition clearIndicators (c : controller) : controller :=
  match lightIndicators c with
  | Some _ => set_lightIndicators None c
  | None => c
  end.

(** [createIndicators()] *)
Definition createIndicators (c : controller) : controller :=
  let c := clearIndicators c in
  match modelBounds c, basePositions c with
  | Some b, Some _ =>
      let baseDistance := radius_of b * lit 2.5 in
      let cone (id : lightId) : indicator :=
        let light := light_of id (lights c) in
        let direction := Vector3_normalize (sub (position light) (center b)) in
        let position := add (center b) (multiplyScalar direction baseDistance) in
        let dirToCenter := Vector3_normalize (sub (center b) position) in
        {| lightId_of := id;
           ind_position := position;
           ind_color := color light;
           ind_scale := Vec 1 1 1;
           ind_quaternion := setFromUnitVectors (negate (Vec 0 1 0)) dirToCenter |} in
      updateIndicators (set_lightIndicators (Some (map cone [key; fill; rim])) c)
  | _, _ => c
  end.

(** [setModelBounds(bounds)] *)
Definition setModelBounds (b : option bounds) (c : controller) : controller :=
  let c := set_modelBounds b c in
  if showIndicators c then createIndicators c else c.

(** [setIndicatorsVisible(enabled)] *)
Definition setIndicatorsVisible (b : bool) (c : controller) : controller :=
  let c := set_showIndicators b c in
  if showIndicators c then createIndicators c else clearIndicators c.

(** [((value % 360) + 360) % 360] *)
Definition normalize (value : num) : num :=
  rem (rem value (lit 360) + lit 360) (lit 360).

(** The body of the [forEach] of [setRotation] for one light. *)
Definition rotate_light (b : bases) (cos sin : num) (r : rig) (id : lightId) : rig :=
  let base := base_of id b in
  let light := light_of id r in
  let rotatedX := x base * cos + z base * sin in
  let rotatedZ := - x base * sin + z base * cos in
  set_light id (with_position (Vec rotatedX (y base) rotatedZ) light) r.

(** [setRotation(value)]: the new state and the returned angle. *)
Definition setRotation (value : num) (c : controller) : num * controller :=
  let normalized := normalize value in
  let c := set_rotation normalized c in
  match basePositions c with
  | None => (normalized, c)
  | Some b =>
      let radians := degToRad normalized in
      let cos := Math_cos radians in
      let sin := Math_sin radians in
      let c := set_lights (fold_left (rotate_light b cos sin) [key; fill; rim] (lights c)) c in
      (normalized, updateIndicators c)
  end.

End WithMath.

End LightsController.

(** ** AutoExposureController: frames, scenarios and spec-side notions *)

Module AutoExposureSpec.
Import AutoExposureController.

(** A rational stand-in for [Math.pow], used to run the definitions on
  concrete inputs: it squares its base.  Like the real function it maps
  1 to 1 and keeps the unit interval. *)
Definition pow_square (x _e : num) : num := x * x.

(** 48 mid-grey pixels of value 115 and 16 of value 114: their Rec. 709
  average is 0.45 in exact arithmetic, and 0.45 to fifteen places as the
  loop computes it in double precision. *)
Definition grey_frame : list Byte.byte :=
concat (repeat [Byte.x73; Byte.x73; Byte.x73; Byte.xff] 48)
++ concat (repeat [Byte.x72; Byte.x72; Byte.x72; Byte.xff] 16).

Definition black_frame : list Byte.byte :=
concat (repeat [Byte.x00; Byte.x00; Byte.x00; Byte.xff] 64).

Definition white_frame : list Byte.byte := repeat Byte.xff 256.

Definition sampling_effects : list effect :=
[GetRenderTarget; SetRenderTargetLuminance; RenderScene;
 SetRenderTargetPrevious; ReadRenderTargetPixels].

(** The value [sampleSceneLuminance] stores after a successful readback. *)
Definition blended (c : controller) (pixels : list Byte.byte) : num :=
let avg := average (write_pixels (luminanceBuffer c) pixels) in
clamp (lerp (averageLuminance c ?? avg) avg (lit 0.35)) 0 1.

(** A freshly constructed controller with a renderer, an exposure pass and
  a callback, then switched to automatic exposure. *)
Definition fresh : controller := new true (Some 1) true.

Definition fresh_auto : controller := setEnabled true fresh.

(** The manual value in force after a run of operations: the argument of
  the last [setManualExposure], or what the last [init] before it
  installed ([initialState.exposure ?? 1.0]), or the value the run
  started with. *)
Fixpoint spec_lastManual (ops : list op) (initial : num) : num :=
match ops with
| [] => initial
| Init exposure _ :: ops => spec_lastManual ops (exposure ?? lit 1.0)
| SetManualExposure value :: ops => spec_lastManual ops value
| _ :: ops => spec_lastManual ops initial
end.

(** What every operation preserves: the manual value is [m], and while
  auto-exposure is off the current exposure is [m] too. *)
Definition manual_inv (m : num) (c : controller) : Prop :=
manualExposure c = Some m
/\ (enabled c = false -> currentExposure c = Some m).

(** A session: initialise at 1.5 in manual mode, switch to automatic, let
  three bright frames pull the exposure down, set the manual value to 2
  meanwhile, reset the luminance, and switch automatic exposure off. *)
Definition session : list op :=
[Init (Some (lit 1.5)) None; SetEnabled true;
 Update false (PixelsRead white_frame); Update false (PixelsRead white_frame);
 SetManualExposure (lit 2); Update false (PixelsRead white_frame);
 ResetLuminance; SetEnabled false].

Definition natQ (n : nat) : num := ofZ (Z.of_nat n).

End AutoExposureSpec.

(** ** Rotation: spec-side notions and stand-ins for the library functions *)

Module RotationSpec.
Import LightsController.

(** The lights after the [forEach]: every directional light sits at its
  base position turned about the vertical axis. *)
Definition turned (b : bases) (cos sin : num) (r : rig) : rig :=
fold_left (rotate_light b cos sin) [key; fill; rim] r.

(** Rational stand-ins for the library functions the rig calls, used to
  run it on concrete inputs: truncated Taylor series for the cosine and
  the sine, a decimal for pi / 180, the taxicab norm for
  [Vector3.normalize], the identity rotation for
  [Quaternion.setFromUnitVectors]. *)
Definition cos_series (a : num) : num := 1 - a * a / lit 2.

Definition sin_series (a : num) : num := a - a * a * a / lit 6.

Definition deg2rad_decimal : num := lit 0.017453292519943295.

Definition taxicab_normalize (v : LightsController.Vector3) : LightsController.Vector3 :=
let n := Qcabs (LightsController.x v) + Qcabs (LightsController.y v)
         + Qcabs (LightsController.z v) in
if decide (n = 0) then v else LightsController.multiplyScalar v (1 / n).

Definition identity_rotation (_ _ : LightsController.Vector3) : LightsController.Quaternion :=
LightsController.Quat 0 0 0 1.

Definition studio_rig : LightsController.controller :=
LightsController.constructor None None None None.

End RotationSpec.

(** ** EnvironmentController: a loaded viewer *)

Module TeardownSpec.
Import EnvironmentController.

(** A 2048 x 1024 Radiance HDR image as the RGBE loader delivers it. *)
Definition studio_hdr : texture :=
{| tex_id := 0%nat;
   tex_content := Decoded "hdri/studio.hdr";
   image := Some (Size (Some 2048%nat) (Some 1024%nat));
   image_data := None;
   source_data := None;
   format := Some RGBAFormat;
   type := Some HalfFloatType;
   encoding := None;
   mapping := UVMapping;
   mipmapFilters := false |}.

(** A viewer with one preset, which it has loaded. *)
Definition viewer : controller :=
constructor (SceneGraph None 1 None true 0 1)
  {[ "studio"%string := ConfigUrl "hdri/studio.hdr" ]}
  {[ "studio"%string := "neutral"%string ]}
  None true true 1 0 0 "#000000" false.

Definition viewer_loaded : controller :=
snd (setPreset (Some "studio"%string) (Resolved (Some studio_hdr)) viewer).

End TeardownSpec.

(** ** AutoExposureController: pixel frames and whole sessions *)

Module AutoExposureFrames.
Import AutoExposureController.

(** An RGBA pixel and the byte layout [readRenderTargetPixels] produces. *)
Definition pixel : Type := (Byte.byte * Byte.byte * Byte.byte * Byte.byte)%type.

Definition frame_of (pixels : list pixel) : list Byte.byte :=
  concat (map (fun p : pixel => let '(r, g, b, a) := p in [r; g; b; a]) pixels).

(** The same pixel with its alpha byte replaced. *)
Definition with_alpha (a : Byte.byte) (p : pixel) : pixel :=
  let '(r, g, b, _) := p in (r, g, b, a).

(** Every state-changing public method of the controller the host may
    call, numbers being passed where the code expects numbers. *)
Inductive call : Type :=
| Call (o : op)
| SetExposure (value : num)
| ApplyStateSnapshot (exposure : option num) (autoExposure : option bool)
| Dispose.

Definition perform (Math_pow : num -> num -> num) (k : call) (c : controller)
  : completion controller :=
  match k with
  | Call o => step Math_pow o c
  | SetExposure v => Normal (setExposure v c)
  | ApplyStateSnapshot e a => Normal (applyStateSnapshot e a c)
  | Dispose => Normal (dispose c)
  end.

Fixpoint perform_all (Math_pow : num -> num -> num) (ks : list call) (c : controller)
  : completion controller :=
  match ks with
  | [] => Normal c
  | k :: ks =>
      match perform Math_pow k c with
      | Normal c => perform_all Math_pow ks c
      | Abrupt err c => Abrupt err c
      end
  end.

(** No field the code guards with [??] is null, the smoothed luminance is
    in the unit interval and the readback buffer has its 8 x 8 x 4 bytes. *)
Definition healthy (c : controller) : Prop :=
  is_Some (manualExposure c)
  /\ is_Some (currentExposure c)
  /\ is_Some (autoExposureValue c)
  /\ (exists L, averageLuminance c = Some L /\ 0 <= L /\ L <= 1)
  /\ length (luminanceBuffer c) = 256%nat.

(** There is an exposure pass and its uniform holds the current exposure. *)
Definition uniform_in_sync (c : controller) : Prop :=
  is_Some (exposurePass c) /\ exposurePass c = currentExposure c.

End AutoExposureFrames.

(** ** LightsController.js: settings, dimming and the host's calls *)

Module LightsDimming.
Import LightsController.

(** The own keys of [this.lights]. *)
Inductive lightName : Type := key_name | fill_name | rim_name | ambient_name.

Global Instance lightName_eq_dec : EqDecision lightName.
Proof. solve_decision. Defined.

(** [this.lights[id]] for a string [id]: a light of the rig only when [id]
    is one of the four keys (what an inherited name such as ["toString"]
    yields is not a light, and writing to it leaves the rig alone). *)
Definition light_named (id : string) : option lightName :=
  if String.eqb id "key" then Some key_name
  else if String.eqb id "fill" then Some fill_name
  else if String.eqb id "rim" then Some rim_name
  else if String.eqb id "ambient" then Some ambient_name
  else None.

Definition lookup_light (n : lightName) (r : rig) : light :=
  match n with
  | key_name => key_light r
  | fill_name => fill_light r
  | rim_name => rim_light r
  | ambient_name => ambient_light r
  end.

Definition store_light (n : lightName) (l : light) (r : rig) : rig :=
  match n with
  | key_name => Rig l (fill_light r) (rim_light r) (ambient_light r)
  | fill_name => Rig (key_light r) l (rim_light r) (ambient_light r)
  | rim_name => Rig (key_light r) (fill_light r) l (ambient_light r)
  | ambient_name => Rig (key_light r) (fill_light r) (rim_light r) l
  end.

Definition with_color (v : string) (l : light) : light :=
  Light (position l) v (intensity l) (isAmbientLight l) (castShadow l) (shadow l).
Definition with_intensity (v : num) (l : light) : light :=
  Light (position l) (color l) v (isAmbientLight l) (castShadow l) (shadow l).

Definition set_lightsEnabled (v : bool) (c : controller) : controller :=
  Controller v (lightsMaster c) (rotation c) (autoRotateSpeed c) (modelBounds c)
    (showIndicators c) (lightIndicators c) (lights c) (basePositions c).
Definition set_lightsMaster (v : num) (c : controller) : controller :=
  Controller (lightsEnabled c) v (rotation c) (autoRotateSpeed c) (modelBounds c)
    (showIndicators c) (lightIndicators c) (lights c) (basePositions c).

(** One value of the [lightsState] object: [{ color, intensity }]. *)
Record lightConfig : Type := LightConfig {
  cfg_color : option string;
  cfg_intensity : option num;
}.

Definition truthy_color (v : option string) : option string :=
  match v with
  | Some s => if String.eqb s "" then None else Some s
  | None => None
  end.

(** [light.intensity = this.lightsEnabled ? targetIntensity : 0], with the
    ambient multiplier 4 and the directional multiplier 2. *)
Definition dimmed (enabled : bool) (master : num) (value : option num) (l : light) : num :=
  let multiplier := if isAmbientLight l then lit 4 else lit 2 in
  let baseIntensity := (value ?? 0) * multiplier in
  let targetIntensity := baseIntensity * master in
  if enabled then targetIntensity else 0.

(** The body of the [forEach] of [applySettings] for one [[id, config]]. *)
Definition apply_entry (enabled : bool) (master : num) (r : rig)
    (entry : string * lightConfig) : rig :=
  match light_named (fst entry) with
  | None => r
  | Some n =>
      let light := lookup_light n r in
      let light := match truthy_color (cfg_color (snd entry)) with
                   | Some v => with_color v light
                   | None => light
                   end in
      store_light n
        (with_intensity (dimmed enabled master (cfg_intensity (snd entry)) light) light) r
  end.

(** The argument of [updateLightProperty(lightId, property, value)]. *)
Inductive property : Type :=
| ColorProperty (value : string)
| IntensityProperty (value : option num)
| OtherProperty (name : string).

Section WithMath.

Variable Vector3_normalize : Vector3 -> Vector3.
Variable setFromUnitVectors : Vector3 -> Vector3 -> Quaternion.

(** [getLights()] *)
Definition getLights (c : controller) : rig := lights c.

(** [applySettings(lightsState = {})], the entries in [Object.entries] order. *)
Definition applySettings (lightsState : list (string * lightConfig)) (c : controller)
  : controller :=
  let c := set_lights
             (fold_left (apply_entry (lightsEnabled c) (lightsMaster c)) lightsState
                (lights c)) c in
  updateIndicators Vector3_normalize setFromUnitVectors c.

(** [setEnabled(enabled, lightsState = {})] *)
Definition setEnabled (b : bool) (lightsState : list (string * lightConfig))
    (c : controller) : controller :=
  let c := set_lightsEnabled b c in
  if lightsEnabled c then applySettings lightsState c
  else
    set_lights
      (fold_left (fun r n => store_light n (with_intensity 0 (lookup_light n r)) r)
         [key_name; fill_name; rim_name; ambient_name] (lights c)) c.

(** [setMaster(value, lightsState = {})] *)
Definition setMaster (value : option num) (lightsState : list (string * lightConfig))
    (c : controller) : controller :=
  let c := set_lightsMaster (value ?? 1) c in
  let c := if lightsEnabled c then applySettings lightsState c else c in
  updateIndicators Vector3_normalize setFromUnitVectors c.

(** [updateLightProperty(lightId, property, value)] *)
Definition updateLightProperty (lightId : string) (p : property) (c : controller)
  : controller :=
  match light_named lightId with
  | None => c
  | Some n =>
      let light := lookup_light n (lights c) in
      let c :=
        match p with
        | ColorProperty v => set_lights (store_light n (with_color v light) (lights c)) c
        | IntensityProperty v =>
            set_lights
              (store_light n
                 (with_intensity (dimmed (lightsEnabled c) (lightsMaster c) v light) light)
                 (lights c)) c
        | OtherProperty _ => c
        end in
      updateIndicators Vector3_normalize setFromUnitVectors c
  end.

Variable Math_cos Math_sin : num -> num.
Variable DEG2RAD : num.

(** The calls a host makes on the rig. *)
Inductive rig_call : Type :=
| ApplySettings (lightsState : list (string * lightConfig))
| SetEnabled (b : bool) (lightsState : list (string * lightConfig))
| SetMaster (value : option num) (lightsState : list (string * lightConfig))
| UpdateLightProperty (lightId : string) (p : property)
| SetRotation (value : num)
| SetModelBounds (b : option bounds)
| SetIndicatorsVisible (b : bool).

Definition rig_step (k : rig_call) (c : controller) : controller :=
  match k with
  | ApplySettings st => applySettings st c
  | SetEnabled b st => setEnabled b st c
  | SetMaster v st => setMaster v st c
  | UpdateLightProperty id p => updateLightProperty id p c
  | SetRotation v =>
      snd (setRotation Math_cos Math_sin DEG2RAD Vector3_normalize setFromUnitVectors v c)
  | SetModelBounds b => setModelBounds Vector3_normalize setFromUnitVectors b c
  | SetIndicatorsVisible b => setIndicatorsVisible Vector3_normalize setFromUnitVectors b c
  end.

Definition rig_run (ks : list rig_call) (c : controller) : controller :=
  fold_left (fun c k => rig_step k c) ks c.

End WithMath.

(** The configuration that ends up applied to the light [n]: the last
    entry of [lightsState] whose key names it. *)
Fixpoint last_config (n : lightName) (lightsState : list (string * lightConfig))
  : option lightConfig :=
  match lightsState with
  | [] => None
  | e :: rest =>
      match last_config n rest with
      | Some cfg => Some cfg
      | None => if bool_decide (light_named (fst e) = Some n) then Some (snd e) else None
      end
  end.

(** The indicator group [updateIndicators] leaves behind. *)
Definition refreshed (Vector3_normalize : Vector3 -> Vector3)
    (setFromUnitVectors : Vector3 -> Vector3 -> Quaternion)
    (r : rig) (b : option bounds) (group : option (list indicator))
  : option (list indicator) :=
  match group, b with
  | Some g, Some bd => Some (map (place_indicator Vector3_normalize setFromUnitVectors bd r) g)
  | _, _ => group
  end.

(** Every light of the rig is switched off. *)
Definition dark (r : rig) : Prop :=
  forall n, intensity (lookup_light n r) = 0.

(** A [lightsState] object with an entry that names no light. *)
Definition two_lights_state : list (string * lightConfig) :=
  [("key"%string, LightConfig (Some "#ffeedd"%string) (Some (lit 1.5)));
   ("backlight"%string, LightConfig None (Some (lit 9)));
   ("ambient"%string, LightConfig None (Some (lit 0.5)))].

End LightsDimming.

(** ** EnvironmentController: sessions, GPU bookkeeping and the scene *)

Module EnvironmentSession.
Import EnvironmentController.

(** What the user sets and what the loaders delivered: everything that
    deriving the environment reads but must not write. *)
Definition settings (c : controller) :=
  (presets c, moods c, onEnvironmentMapUpdated c, enabled c, backgroundEnabled c,
   strength c, blurriness c, rotation c, fallbackColor c, pmremGenerator c,
   cache c, currentPreset c, currentEnvironmentTexture c).

Definition target_id (rt : option renderTarget) : option res := rt_id <$> rt.

(** How calls may touch the GPU: the PMREM generator is never replaced,
    identities are only handed out upwards, nothing is ever un-disposed,
    whatever is newly disposed is one of the two render targets the
    controller held, its PMREM generator or a resource created on the way, a
    render target that is no longer held has been disposed, and a render
    target newly held was created on the way. *)
Definition gpu_footprint (c c' : controller) : Prop :=
  pmremGenerator c' = pmremGenerator c
  /\ (next_id c <= next_id c')%nat
  /\ disposed c ⊆ disposed c'
  /\ (forall r, r ∈ disposed c' ->
        r ∈ disposed c \/ Some r = target_id (environmentRenderTarget c)
        \/ Some r = target_id (rotationRenderTarget c)
        \/ Some r = pmremGenerator c
        \/ (next_id c <= r < next_id c')%nat)
  /\ (forall rt, environmentRenderTarget c = Some rt ->
        environmentRenderTarget c' = Some rt \/ rt_id rt ∈ disposed c')
  /\ (forall rt, rotationRenderTarget c = Some rt ->
        rotationRenderTarget c' = Some rt \/ rt_id rt ∈ disposed c')
  /\ (forall rt, environmentRenderTarget c' = Some rt ->
        environmentRenderTarget c = Some rt \/ (next_id c <= rt_id rt < next_id c')%nat)
  /\ (forall rt, rotationRenderTarget c' = Some rt ->
        rotationRenderTarget c = Some rt \/ (next_id c <= rt_id rt < next_id c')%nat).

(** A derivation step: the GPU footprint above, and the settings untouched. *)
Definition derives (c c' : controller) : Prop :=
  settings c' = settings c /\ gpu_footprint c c'.

(** The calls a host makes on the controller.  [SetPreset] is a call whose
    load settles before anything else happens; [ResumePreset] is the second
    half of a call whose load settles later, after other calls. *)
Inductive env_call : Type :=
| SetPreset (preset : option string) (outcome : load_outcome)
| ResumePreset (preset : string) (ldr : bool) (outcome : load_outcome)
| SetEnabled (b : bool)
| SetBackgroundEnabled (b : bool)
| SetStrength (value : option num)
| SetBlurriness (value : option num)
| SetRotation (value : option num)
| SetFallbackColor (color : option string)
| Dispose.

Definition env_step (k : env_call) (c : controller) : controller :=
  match k with
  | SetPreset p o => snd (setPreset p o c)
  | ResumePreset p ldr o => snd (setPreset_resume p ldr o c)
  | SetEnabled b => setEnabled b c
  | SetBackgroundEnabled b => setBackgroundEnabled b c
  | SetStrength v => setStrength v c
  | SetBlurriness v => setBlurriness v c
  | SetRotation v => setRotation v c
  | SetFallbackColor v => setFallbackColor v c
  | Dispose => dispose c
  end.

Definition env_run (ks : list env_call) (c : controller) : controller :=
  fold_left (fun c k => env_step k c) ks c.

(** The block [if (this.environmentRenderTarget) { ....dispose(); ... = null }]
    that [dispose] and [_applyEnvironment] share, and its twin for the
    rotation target, shared by [dispose] and [_createRotatedTexture]. *)
Definition release_environment_target (c : controller) : controller :=
  match environmentRenderTarget c with
  | Some rt => set_environmentRenderTarget None (gpu_dispose (rt_id rt) c)
  | None => c
  end.

Definition release_rotation_target (c : controller) : controller :=
  match rotationRenderTarget c with
  | Some rt => set_rotationRenderTarget None (gpu_dispose (rt_id rt) c)
  | None => c
  end.

(** The identities of the decoded textures the controller holds. *)
Definition held_texture (c : controller) (r : res) : Prop :=
  (exists p t, cache c !! p = Some t /\ tex_id t = r)
  \/ (exists t, currentEnvironmentTexture c = Some t /\ tex_id t = r).

Definition held_target (c : controller) (rt : renderTarget) : Prop :=
  environmentRenderTarget c = Some rt \/ rotationRenderTarget c = Some rt.

(** A render target the controller holds is in use: it carries its own
    texture, it has been created, it is not disposed and it is not one of
    the decoded textures. *)
Definition live_target (c : controller) (t : option renderTarget) : Prop :=
  forall rt, t = Some rt ->
    tex_id (rt_texture rt) = rt_id rt /\ (rt_id rt < next_id c)%nat
    /\ (rt_id rt ∉ disposed c) /\ ~ held_texture c (rt_id rt).

(** Identities are consistent. *)
Definition well_formed (c : controller) : Prop :=
  (forall r, r ∈ disposed c -> (r < next_id c)%nat)
  /\ (forall r, held_texture c r -> (r < next_id c)%nat /\ (r ∉ disposed c))
  /\ live_target c (environmentRenderTarget c)
  /\ live_target c (rotationRenderTarget c)
  /\ (forall e r, environmentRenderTarget c = Some e -> rotationRenderTarget c = Some r ->
        rt_id e <> rt_id r)
  /\ (exists g, pmremGenerator c = Some g /\ (g < next_id c)%nat /\ ~ held_texture c g).

(** What the renderer draws from: the textures the scene points at. *)
Definition shown (c : controller) (t : texture) : Prop :=
  environment (scene c) = Some t \/ background (scene c) = Some t.

(** A stage of a derivation, seen from its start: the footprint so far,
    well-formedness carried along, and the scene still of the same kind. *)
Definition stage (c ci : controller) : Prop :=
  derives c ci /\ (well_formed c -> well_formed ci)
  /\ has_backgroundBlurriness (scene ci) = has_backgroundBlurriness (scene c).

(** What [_applyEnvironment] leaves behind when there is nothing to show. *)
Definition cleared (c c' : controller) : Prop :=
  environment (scene c') = None /\ environmentIntensity (scene c') = 0
  /\ background (scene c') = None
  /\ clearColor c' = Some (fallbackColor c, 1)
  /\ next_id c' = next_id c /\ disposed c' = disposed c
  /\ environmentRenderTarget c' = environmentRenderTarget c
  /\ rotationRenderTarget c' = rotationRenderTarget c.

(** What it leaves behind when it shows [current]. *)
Definition lit_by (current : texture) (c c' : controller) : Prop :=
  environmentIntensity (scene c') = strength c
  /\ (is_Some (pmremGenerator c) ->
        exists rt,
          environmentRenderTarget c' = Some rt
          /\ environment (scene c') = Some (rt_texture rt)
          /\ mipmapFilters (rt_texture rt) = true
          /\ tex_id (rt_texture rt) = rt_id rt
          /\ (if backgroundEnabled c then
                exists bg,
                  background (scene c') = Some bg
                  /\ (if bool_decide (0 < blurriness c) then bg = rt_texture rt
                      else bg = current
                           \/ exists rr, rotationRenderTarget c' = Some rr
                                         /\ rt_texture rr = bg)
              else background (scene c') = None
                   /\ clearColor c' = Some (fallbackColor c, 1)))
  /\ (has_backgroundBlurriness (scene c) = true ->
        backgroundBlurriness (scene c') = (if backgroundEnabled c then blurriness c else 0)
        /\ backgroundIntensity (scene c') = (if backgroundEnabled c then strength c else 1)).

(** Nothing the scene points at has been disposed. *)
Definition shown_live (c : controller) : Prop :=
  forall t, shown c t -> tex_id t ∉ disposed c.

Definition is_dispose (k : env_call) : bool :=
  match k with Dispose => true | _ => false end.

(** The calls that leave a disabled controller disabled and alive. *)
Definition keeps_disabled (k : env_call) : bool :=
  match k with
  | SetEnabled b => negb b
  | Dispose => false
  | _ => true
  end.

(** Nothing is shown and the renderer clears to the fallback colour. *)
Definition unlit (c : controller) : Prop :=
  enabled c = false
  /\ environment (scene c) = None /\ background (scene c) = None
  /\ environmentIntensity (scene c) = 0
  /\ clearColor c = Some (fallbackColor c, 1).

(** The GPU side of the controller is as it was in [c0]. *)
Definition gpu_untouched (c0 c : controller) : Prop :=
  disposed c = disposed c0
  /\ environmentRenderTarget c = environmentRenderTarget c0
  /\ rotationRenderTarget c = rotationRenderTarget c0.

(** The current texture is the cache entry of the current preset. *)
Definition current_is_cached (c : controller) : Prop :=
  forall t, currentEnvironmentTexture c = Some t ->
    exists p, currentPreset c = Some p /\ cache c !! p = Some t.

(** The studio image once [setPreset] has stored it: under the identity
    the controller gave it and tagged equirectangular. *)
Definition studio_loaded : texture :=
  Texture 1%nat (tex_content TeardownSpec.studio_hdr) (image TeardownSpec.studio_hdr)
    (image_data TeardownSpec.studio_hdr) (source_data TeardownSpec.studio_hdr)
    (format TeardownSpec.studio_hdr) (type TeardownSpec.studio_hdr)
    (encoding TeardownSpec.studio_hdr) EquirectangularReflectionMapping
    (mipmapFilters TeardownSpec.studio_hdr).

(** The PMREM render target of the studio image, unrotated. *)
Definition studio_target : renderTarget :=
  RenderTarget 2%nat
    (Texture 2%nat (ConvolvedFrom 1%nat) None None None None None None UVMapping true).

Definition load_studio : env_call :=
  SetPreset (Some "studio"%string) (Resolved (Some TeardownSpec.studio_hdr)).

End EnvironmentSession.

(** ** Double precision *)

Module Binary64.

(** [2 ^ e] for an integer exponent. *)
Definition pow2 (e : Z) : num := Q2Qc (Qpower 2 e).

(** The binade of a positive number: the [e] with [2 ^ e <= x < 2 ^ (e + 1)]. *)
Definition binade (x : num) : Z :=
  let e := (Z.log2 (Qnum (this x)) - Z.log2 (Zpos (Qden (this x))))%Z in
  if decide (pow2 e <= x) then e else (e - 1)%Z.

(** The integer nearest to a number, ties to even. *)
Definition nearest_even (q : num) : Z :=
  let f := Qfloor q in
  let r := q - ofZ f in
  if decide (r < lit 0.5) then f
  else if decide (lit 0.5 < r) then (f + 1)%Z
  else if Z.even f then f else (f + 1)%Z.

(** The spacing of the doubles around a positive number: 53 significant
    bits, and no exponent below that of the smallest normal number. *)
Definition ulp (x : num) : num := pow2 (Z.max (binade x) (-1022) - 52).

(** Rounding to the nearest double, ties to even.  Numbers beyond the
    largest double, which the code rounds to an infinity, do not occur. *)
Definition round (x : num) : num :=
  if decide (x = 0) then 0
  else
    let a := Qcabs x in
    let m := ofZ (nearest_even (a / ulp a)) * ulp a in
    if decide (0 <= x) then m else - m.

(** The unit roundoff and the largest error on a subnormal result. *)
Definition u64 : num := pow2 (-53).
Definition eta64 : num := pow2 (-1075).

End Binary64.

(** ** The two [setRotation]s in double precision *)

Module EnvironmentRounded.
Import EnvironmentController.

Section WithRounding.

(** The rounding of an arithmetic result to the nearest double. *)
Variable rnd : num -> num.

(** [_createRotatedTexture(sourceTexture, rotationDegrees)]: the quotient
    [rotationDegrees / 360] is rounded, the remainder is exact. *)
Definition _createRotatedTexture (sourceTexture : texture) (rotationDegrees : num)
    (c : controller) : texture * controller :=
  let rotation := rem (rnd (rotationDegrees / lit 360)) (lit 1.0) in
  let c := match rotationRenderTarget c with
           | Some rt => set_rotationRenderTarget None (gpu_dispose (rt_id rt) c)
           | None => c
           end in
  let wh := (image sourceTexture ≫= width, image sourceTexture ≫= height) in
  let wh := match image_data sourceTexture with
            | Some d => if negb (truthy_nat (fst wh)) then (width d, height d) else wh
            | None => wh
            end in
  let wh := match source_data sourceTexture with
            | Some d => if negb (truthy_nat (fst wh)) then (width d, height d) else wh
            | None => wh
            end in
  if negb (truthy_nat (fst wh)) then
    (sourceTexture,
     emit (ConsoleWarn "Could not detect HDRI texture dimensions, skipping rotation") c)
  else
    let isHDR :=
      bool_decide (encoding sourceTexture = Some RGBEEncoding)
      || bool_decide (type sourceTexture = Some HalfFloatType)
      || bool_decide (type sourceTexture = Some FloatType) in
    let format := format sourceTexture ?? RGBAFormat in
    let type := type sourceTexture ?? UnsignedByteType in
    let encoding := encoding sourceTexture ?? sRGBEncoding in
    let type :=
      if isHDR then
        if bool_decide (type = UnsignedByteType) && bool_decide (encoding = RGBEEncoding)
        then UnsignedByteType
        else if bool_decide (type <> HalfFloatType) && bool_decide (type <> FloatType)
             then HalfFloatType else type
      else type in
    let '(target, c) := alloc c in       (* new THREE.WebGLRenderTarget *)
    let '(material, c) := alloc c in     (* new THREE.ShaderMaterial *)
    let '(geometry, c) := alloc c in     (* new THREE.PlaneGeometry *)
    let c := emit (RenderQuad target (tex_id sourceTexture) rotation) c in
    let c := gpu_dispose geometry c in
    let c := gpu_dispose material c in
    let rotatedTexture :=
      {| tex_id := target;
         tex_content := RotatedFrom (tex_id sourceTexture) rotation;
         image := Some (Size (fst wh) (snd wh));
         image_data := None;
         source_data := None;
         format := Some format;
         type := Some type;
         encoding := Some encoding;
         mapping := EquirectangularReflectionMapping;
         mipmapFilters := false |} in
    (rotatedTexture,
     set_rotationRenderTarget (Some (RenderTarget target rotatedTexture)) c).

(** [_applyEnvironment()]; it does no arithmetic of its own. *)
Definition _applyEnvironment (c : controller) : controller :=
  match (if enabled c then currentEnvironmentTexture c else None) with
  | None =>
      let sc := scene c in
      let c := set_scene
                 (SceneGraph None 0 None (has_backgroundBlurriness sc)
                    (backgroundBlurriness sc) (backgroundIntensity sc)) c in
      let c := clear_to_fallback c in
      _notifyEnvironmentMapUpdated None 0 c
  | Some current =>
      let c := match environmentRenderTarget c with
               | Some rt => set_environmentRenderTarget None (gpu_dispose (rt_id rt) c)
               | None => c
               end in
      let '(sourceTexture, c) :=
        if bool_decide (rotation c <> 0)
        then _createRotatedTexture current (rotation c) c
        else (current, c) in
      let '(envTexture, c) :=
        match pmremGenerator c with
        | Some _ =>
            let '(target, c) := fromEquirectangular sourceTexture c in
            (rt_texture target, set_environmentRenderTarget (Some target) c)
        | None => (sourceTexture, c)
        end in
      let sc := scene c in
      let c := set_scene
                 (SceneGraph (Some envTexture) (strength c) (background sc)
                    (has_backgroundBlurriness sc) (backgroundBlurriness sc)
                    (backgroundIntensity sc)) c in
      let c := _notifyEnvironmentMapUpdated (Some envTexture) (strength c) c in
      if backgroundEnabled c then
        let '(bgTexture, c) :=
          if bool_decide (rotation c <> 0)
          then _createRotatedTexture current (rotation c) c
          else (current, c) in
        let bgTexture := if bool_decide (0 < blurriness c) then envTexture else bgTexture in
        let sc := scene c in
        set_scene
          (if has_backgroundBlurriness sc then
             SceneGraph (environment sc) (environmentIntensity sc) (Some bgTexture)
               true (blurriness c) (strength c)
           else
             SceneGraph (environment sc) (environmentIntensity sc) (Some bgTexture)
               false (backgroundBlurriness sc) (backgroundIntensity sc)) c
      else
        let sc := scene c in
        let c := set_scene
                   (if has_backgroundBlurriness sc then
                      SceneGraph (environment sc) (environmentIntensity sc) None true 0 1
                    else
                      SceneGraph (environment sc) (environmentIntensity sc) None
                        false (backgroundBlurriness sc) (backgroundIntensity sc)) c in
        clear_to_fallback c
  end.

(** [((value ?? 0) % 360 + 360) % 360]: both remainders are exact, the sum
    between them is rounded. *)
Definition normalize (value : num) : num :=
  rem (rnd (rem value (lit 360) + lit 360)) (lit 360).

(** [setRotation(value)] *)
Definition setRotation (value : option num) (c : controller) : controller :=
  let normalized := normalize (value ?? 0) in
  if bool_decide (rotation c = normalized) then c
  else _applyEnvironment (set_rotation normalized c).

End WithRounding.

End EnvironmentRounded.

Module LightsRounded.
Import LightsController.

Section WithRounding.

Variable rnd : num -> num.

(** [Math.cos], [Math.sin], [THREE.MathUtils.DEG2RAD], [Vector3.normalize]
    and [Quaternion.setFromUnitVectors]: each returns a double. *)
Variable Math_cos Math_sin : num -> num.
Variable DEG2RAD : num.
Variable Vector3_normalize : Vector3 -> Vector3.
Variable setFromUnitVectors : Vector3 -> Vector3 -> Quaternion.

(** The methods of [Vector3] round every component they compute. *)
Definition sub (a b : Vector3) : Vector3 :=
  Vec (rnd (x a - x b)) (rnd (y a - y b)) (rnd (z a - z b)).
Definition add (a b : Vector3) : Vector3 :=
  Vec (rnd (x a + x b)) (rnd (y a + y b)) (rnd (z a + z b)).
Definition multiplyScalar (a : Vector3) (s : num) : Vector3 :=
  Vec (rnd (x a * s)) (rnd (y a * s)) (rnd (z a * s)).

Definition degToRad (degrees : num) : num := rnd (degrees * DEG2RAD).

(** The body of the [traverse] callback of [updateIndicators] for one
    cone. *)
Definition place_indicator (b : bounds) (r : rig) (child : indicator) : indicator :=
  let baseDistance := rnd (radius_of b * lit 2.5) in
  let light := light_of (lightId_of child) r in
  let lightPos := position light in
  let direction := Vector3_normalize (sub lightPos (center b)) in
  let newPosition := add (center b) (multiplyScalar direction baseDistance) in
  let maxIntensity := lit 10 in
  let normalizedIntensity := Math_min (rnd (intensity light / maxIntensity)) 1 in
  let scale := rnd (lit 0.5 + rnd (normalizedIntensity * lit 2.0)) in
  let dirToCenter := Vector3_normalize (sub (center b) newPosition) in
  {| lightId_of := lightId_of child;
     ind_position := newPosition;
     ind_color := color light;
     ind_scale := Vec scale scale scale;
     ind_quaternion := setFromUnitVectors (negate (Vec 0 1 0)) dirToCenter |}.

(** [updateIndicators()] *)
Definition updateIndicators (c : controller) : controller :=
  match lightIndicators c, modelBounds c with
  | Some group, Some b =>
      set_lightIndicators (Some (map (place_indicator b (lights c)) group)) c
  | _, _ => c
  end.

(** [((value % 360) + 360) % 360] *)
Definition normalize (value : num) : num :=
  rem (rnd (rem value (lit 360) + lit 360)) (lit 360).

(** The body of the [forEach] of [setRotation] for one light: two rounded
    products and their rounded sum for each of the two coordinates. *)
Definition rotate_light (b : bases) (cos sin : num) (r : rig) (id : lightId) : rig :=
  let base := base_of id b in
  let light := light_of id r in
  let rotatedX := rnd (rnd (x base * cos) + rnd (z base * sin)) in
  let rotatedZ := rnd (rnd (- x base * sin) + rnd (z base * cos)) in
  set_light id (with_position (Vec rotatedX (y base) rotatedZ) light) r.

(** [setRotation(value)]: the new state and the returned angle. *)
Definition setRotation (value : num) (c : controller) : num * controller :=
  let normalized := normalize value in
  let c := set_rotation normalized c in
  match basePositions c with
  | None => (normalized, c)
  | Some b =>
      let radians := degToRad normalized in
      let cos := Math_cos radians in
      let sin := Math_sin radians in
      let c := set_lights (fold_left (rotate_light b cos sin) [key; fill; rim] (lights c)) c in
      (normalized, updateIndicators c)
  end.

End WithRounding.

(** A vector whose coordinates are doubles. *)
Definition representable (rnd : num -> num) (v : Vector3) : Prop :=
  rnd (x v) = x v /\ rnd (y v) = y v /\ rnd (z v) = z v.

End LightsRounded.

(** ** AutoExposureController.js in double precision *)

Module AutoExposureRounded.
Import AutoExposureController.

Section WithRounding.

(** The rounding of an arithmetic result to the nearest double, and
    [Math.pow]. *)
Variable rnd : num -> num.
Variable Math_pow : num -> num -> num.

(** A decimal literal of the source denotes the double nearest to it; the
    small integers 0, 1, 4 and 255 are doubles themselves. *)
Definition dbl (q : Q) : num := rnd (lit q).

Definition target : num := dbl 0.45.
Definition min : num := dbl 0.5.                  (* written 0.50 *)
Definition max : num := dbl 2.5.
Definition smooth : num := dbl 0.12.
Definition brightThreshold : num := dbl 0.65.

(** [THREE.MathUtils.lerp(x, y, t)] is [(1 - t) * x + t * y]: a
    difference, two products and a sum, each rounded. *)
Definition lerp (x y t : num) : num := rnd (rnd (rnd (1 - t) * x) + rnd (t * y)).

Definition channel (b : Byte.byte) : num := rnd (ofZ (Z.of_N (Byte.to_N b)) / lit 255).

(** The loop [for (i = 0; i < buffer.length; i += 4)] with its running
    [sum]: the Rec. 709 luminance of a pixel takes three products and two
    sums, [sum += value] one more.  The buffer length is a multiple of 4
    (it is [8 * 8 * 4]), so no trailing partial pixel is ever read. *)
Fixpoint sum_luminance (sum : num) (buffer : list Byte.byte) : num :=
  match buffer with
  | r :: g :: b :: _ :: rest =>
      let value :=
        rnd (rnd (rnd (dbl 0.2126 * channel r) + rnd (dbl 0.7152 * channel g))
             + rnd (dbl 0.0722 * channel b)) in
      sum_luminance (rnd (sum + value)) rest
  | _ => sum
  end.

(** [const avg = sum / (this.luminanceBuffer.length / 4)] *)
Definition average (buffer : list Byte.byte) : num :=
  rnd (sum_luminance 0 buffer / rnd (ofZ (Z.of_nat (length buffer)) / lit 4)).

(** [sampleSceneLuminance()] *)
Definition sampleSceneLuminance (rb : readback) (c : controller)
  : completion controller :=
  if negb (luminanceRenderTarget c) || negb (renderer c) then Normal c
  else
    let c := emit [GetRenderTarget; SetRenderTargetLuminance; RenderScene;
                   SetRenderTargetPrevious] c in
    try_catch
      (let c := emit [ReadRenderTargetPixels] c in
       match rb with
       | ReadThrows err => Abrupt err c
       | PixelsRead pixels =>
           let c := set_luminanceBuffer (write_pixels (luminanceBuffer c) pixels) c in
           let avg := average (luminanceBuffer c) in
           Normal (set_averageLuminance
                     (Some (clamp (lerp (averageLuminance c ?? avg) avg (dbl 0.35)) 0 1))
                     c)
       end)
      (fun _ c => Normal c).

(** The clamped luminance of [applyAutoExposure]. *)
Definition luminance (c : controller) : num :=
  clamp (averageLuminance c ?? target) (dbl 0.05) (dbl 1.2).

(** The target exposure of [applyAutoExposure], before the final clamp. *)
Definition rawTargetExposure (c : controller) : num :=
  let luminance := luminance c in
  if decide (brightThreshold < luminance) then
    let thresholdExposure := rnd (target / brightThreshold) in
    let normalizedBrightness :=
      rnd (rnd (luminance - brightThreshold) / rnd (dbl 1.2 - brightThreshold)) in
    let curve := Math_pow normalizedBrightness (dbl 1.8) in
    lerp thresholdExposure min curve
  else
    rnd (target / luminance).

(** [targetExposure = clamp(targetExposure, this.min, this.max)] *)
Definition targetExposure (c : controller) : num :=
  clamp (rawTargetExposure c) min max.

(** [applyAutoExposure()] *)
Definition applyAutoExposure (c : controller) : controller :=
  if negb (enabled c) then c
  else
    let targetExposure := targetExposure c in
    let value := lerp (autoExposureValue c ?? targetExposure) targetExposure smooth in
    let c := set_autoExposureValue (Some value) c in
    setExposure value c.

(** [update(unlitMode = false)] *)
Definition update (unlitMode : bool) (rb : readback) (c : controller)
  : completion controller :=
  if unlitMode then Normal c
  else
    match sampleSceneLuminance rb c with
    | Normal c => Normal (applyAutoExposure c)
    | Abrupt err c => Abrupt err c
    end.

(** [resetLuminance()] *)
Definition resetLuminance (c : controller) : controller :=
  let c := set_averageLuminance (Some target) c in
  set_autoExposureValue
    (Some (nullish_opt (currentExposure c) (manualExposure c) ?? 1)) c.

(** One [update()] per rendered frame, each reading back the given pixels;
    an exception ends the run. *)
Fixpoint updates (frames : list (list Byte.byte)) (c : controller)
  : completion controller :=
  match frames with
  | [] => Normal c
  | pixels :: frames =>
      match update false (PixelsRead pixels) c with
      | Normal c => updates frames c
      | Abrupt err c => Abrupt err c
      end
  end.

(** The auto value after the frames. *)
Definition exposure_after (frames : list (list Byte.byte)) (c : controller)
  : option num :=
  autoExposureValue (state_of (updates frames c)).

(** A frame that fills the luminance buffer of [c] and whose computed
    average is within [delta] of the target luminance 0.45. *)
Definition near_target (delta : num) (c : controller) (pixels : list Byte.byte) : Prop :=
  length pixels = length (luminanceBuffer c)
  /\ Qcabs (average pixels - lit 0.45) <= delta.

(** The state of a controller that samples on every frame: its smoothed
    luminance [L] is in the unit interval and its auto value [a] has
    [|a - 1| + 3 |L - 0.45|] at most [W]. *)
Definition settling (W : num) (c : controller) : Prop :=
  enabled c = true /\ renderer c = true /\ luminanceRenderTarget c = true
  /\ exists L a,
       averageLuminance c = Some L /\ autoExposureValue c = Some a
       /\ 0 <= L /\ L <= 1
       /\ Qcabs (a - 1) + lit 3 * Qcabs (L - lit 0.45) <= W.

End WithRounding.

(** A rounding that is off by at most the fraction [u] of its argument
    plus [eta], for arguments of magnitude at most [bound]. *)
Definition faithful (rnd : num -> num) (u eta bound : num) : Prop :=
  forall x, Qcabs x <= bound -> Qcabs (rnd x - x) <= u * Qcabs x + eta.

(** What the analysis assumes of the rounding: a relative error of at most
    a thousandth, as much for the absolute error, and a range that
    reaches 8. *)
Definition rounding_model (rnd : num -> num) (u eta bound : num) : Prop :=
  (0 <= u /\ u <= lit 0.001) /\ (0 <= eta /\ eta <= lit 0.001)
  /\ lit 8 <= bound /\ faithful rnd u eta bound.

(** How far the auto value of a state is from 1; a missing value starts
    from the target exposure and counts as 0. *)
Definition start_error (c : controller) : num :=
  match autoExposureValue c with
  | Some a => Qcabs (a - 1)
  | None => 0
  end.

(** The margin within which the auto value settles: 14 times the spread of
    the sampled luminance, and 200 roundings. *)
Definition margin (delta u eta : num) : num :=
  lit 14 * delta + lit 200 * u + lit 200 * eta.

End AutoExposureRounded.

(* ===================================================================== *)
(** * Part II: properties                                                 *)
(* ===================================================================== *)

(** ** Arithmetic on canonical rationals, by way of [Q] *)

Module NumFacts.

Lemma this_plus (x y : Qc) : (this (x + y) == this x + this y)%Q.
Proof. apply Qred_correct. Qed.

Lemma this_mult (x y : Qc) : (this (x * y) == this x * this y)%Q.
Proof. apply Qred_correct. Qed.

Lemma this_opp (x : Qc) : (this (- x) == - this x)%Q.
Proof. apply Qred_correct. Qed.

Lemma this_minus (x y : Qc) : (this (x - y) == this x - this y)%Q.
Proof. unfold Qcminus. rewrite this_plus, this_opp. reflexivity. Qed.

Lemma this_inv (x : Qc) : (this (/ x) == / this x)%Q.
Proof. apply Qred_correct. Qed.

Lemma this_div (x y : Qc) : (this (x / y) == this x / this y)%Q.
Proof. unfold Qcdiv. rewrite this_mult, this_inv. reflexivity. Qed.

Lemma this_Q2Qc (q : Q) : (this (Q2Qc q) == q)%Q.
Proof. apply Qred_correct. Qed.

Lemma Qc_eq_this (x y : Qc) : x = y <-> (this x == this y)%Q.
Proof. split; [intros ->; reflexivity | apply Qc_is_canon]. Qed.

End NumFacts.

Import NumFacts.

(** [qc_push] restates a goal and its hypotheses about [Qc] over [Q], where
    [lra], [nra] and [field] apply. *)
Ltac qc_push :=
  unfold num, lit, ofZ in *;
  repeat match goal with
    | H : @eq Qc _ _ |- _ => apply Qc_eq_this in H
    | H : ~ @eq Qc _ _ |- _ => rewrite Qc_eq_this in H
    | |- @eq Qc _ _ => apply Qc_is_canon
    | |- ~ @eq Qc _ _ => rewrite Qc_eq_this
    end;
  unfold Qcle, Qclt in *;
  repeat (rewrite ?this_plus, ?this_mult, ?this_minus, ?this_opp, ?this_div,
            ?this_inv, ?this_Q2Qc in * ).

Ltac qc_lra := qc_push; lra.
Ltac qc_nra := qc_push; nra.

Ltac case_minmax :=
  unfold clamp, Math_max, Math_min, Qcabs in *; repeat case_decide.

Module NumProps.

Lemma clamp_bounds (x lo hi : num) : lo <= hi -> lo <= clamp x lo hi /\ clamp x lo hi <= hi.
Proof. intros H. case_minmax; split; qc_lra. Qed.

Lemma clamp_id (x lo hi : num) : lo <= x -> x <= hi -> clamp x lo hi = x.
Proof. intros H1 H2. case_minmax; qc_lra. Qed.

Lemma clamp_low (x lo hi : num) : lo <= hi -> x <= lo -> clamp x lo hi = lo.
Proof. intros H1 H2. case_minmax; qc_lra. Qed.

Lemma clamp_high (x lo hi : num) : lo <= hi -> hi <= x -> clamp x lo hi = hi.
Proof. intros H1 H2. case_minmax; qc_lra. Qed.

Lemma lerp_step (x y t : num) : lerp x y t - x = t * (y - x).
Proof. unfold lerp. qc_lra. Qed.

Lemma lerp_end (x y : num) : lerp x y 1 = y.
Proof. unfold lerp. qc_lra. Qed.

Lemma Qcabs_nonneg (x : num) : 0 <= Qcabs x.
Proof. case_minmax; qc_lra. Qed.

Lemma Qcabs_mult (t x : num) : 0 <= t -> Qcabs (t * x) = t * Qcabs x.
Proof. intros H. case_minmax; qc_nra. Qed.

(** Division by a non-zero number is the inverse of multiplication. *)
Lemma div_mult (a b : num) : b <> 0 -> a / b * b = a.
Proof.
  intros H. unfold Qcdiv. rewrite <- Qcmult_assoc, (Qcmult_comm (/ b)).
  rewrite Qcmult_inv_r by exact H. apply Qcmult_1_r.
Qed.

Lemma div_ge (a b k : num) : 0 < b -> k * b <= a -> k <= a / b.
Proof.
  intros Hb H. assert (Hne : b <> 0) by (intros ->; revert Hb; qc_lra).
  pose proof (div_mult a b Hne) as E. set (q := a / b) in *. clearbody q.
  qc_nra.
Qed.

Lemma div_le (a b k : num) : 0 < b -> a <= k * b -> a / b <= k.
Proof.
  intros Hb H. assert (Hne : b <> 0) by (intros ->; revert Hb; qc_lra).
  pose proof (div_mult a b Hne) as E. set (q := a / b) in *. clearbody q.
  qc_nra.
Qed.

End NumProps.

(** ** AutoExposureController: the luminance-to-exposure curve *)

Module AutoExposureProps.
Import AutoExposureController AutoExposureSpec NumProps.

Lemma pow_square_1 : pow_square 1 (lit 1.8) = 1.
Proof. unfold pow_square. qc_lra. Qed.

Lemma setExposure_spec (v : num) (c : controller) :
  currentExposure (setExposure v c) = Some v
  /\ exposurePass (setExposure v c) = (fun _ => v) <$> exposurePass c
  /\ effects (setExposure v c)
     = effects c ++ (if onExposureChange c then [OnExposureChange v] else [])
  /\ enabled (setExposure v c) = enabled c
  /\ manualExposure (setExposure v c) = manualExposure c
  /\ autoExposureValue (setExposure v c) = autoExposureValue c
  /\ averageLuminance (setExposure v c) = averageLuminance c
  /\ luminanceBuffer (setExposure v c) = luminanceBuffer c
  /\ luminanceRenderTarget (setExposure v c) = luminanceRenderTarget c
  /\ renderer (setExposure v c) = renderer c
  /\ onExposureChange (setExposure v c) = onExposureChange c.
Proof.
  destruct c as [r p cb e m cu a rt buf av fx]. unfold setExposure.
  destruct p, cb; cbn; rewrite ?app_nil_r; repeat split; reflexivity.
Qed.

Section Curve.
Variable Math_pow : num -> num -> num.

Lemma luminance_bounds c : lit 0.05 <= luminance c /\ luminance c <= lit 1.2.
Proof. unfold luminance. apply clamp_bounds. qc_lra. Qed.

Lemma luminance_pos c : 0 < luminance c.
Proof. destruct (luminance_bounds c) as [H _]. revert H. qc_lra. Qed.

Lemma targetExposure_bounds c :
  min <= targetExposure Math_pow c /\ targetExposure Math_pow c <= max.
Proof. unfold targetExposure. apply clamp_bounds. unfold min, max. qc_lra. Qed.

Lemma luminance_of (c : controller) (L : num) :
  averageLuminance c = Some L -> luminance c = clamp L (lit 0.05) (lit 1.2).
Proof. unfold luminance. intros ->. reflexivity. Qed.

(** Below the threshold the clamp of the luminance to 0.05 is absorbed by
    the clamp of the exposure to 2.5. *)
Lemma targetExposure_inverse (c : controller) (L : num) :
  averageLuminance c = Some L -> 0 < L -> L <= lit 0.65 ->
  targetExposure Math_pow c = clamp (lit 0.45 / L) (lit 0.5) (lit 2.5).
Proof.
  intros HL Hpos Hle. unfold targetExposure, rawTargetExposure.
  rewrite (luminance_of c L HL). unfold brightThreshold, target, min, max.
  destruct (decide (lit 0.05 <= L)) as [Hlow|Hlow].
  - rewrite (clamp_id L) by (trivial; revert Hle; qc_lra).
    case_decide as Hd; [exfalso; revert Hd Hle; qc_lra | reflexivity].
  - rewrite (clamp_low L) by (revert Hlow; qc_lra).
    case_decide as Hd; [exfalso; revert Hd; qc_lra |].
    assert (H1 : lit 2.5 <= lit 0.45 / lit 0.05) by (apply div_ge; qc_lra).
    assert (H2 : lit 2.5 <= lit 0.45 / L)
      by (apply div_ge; [exact Hpos | revert Hlow; qc_lra]).
    rewrite !clamp_high; trivial; qc_lra.
Qed.

Lemma targetExposure_power (c : controller) (L : num) :
  averageLuminance c = Some L -> lit 0.65 < L -> L <= lit 1.2 ->
  targetExposure Math_pow c =
    clamp (lerp (lit 0.45 / lit 0.65) (lit 0.5)
             (Math_pow ((L - lit 0.65) / (lit 1.2 - lit 0.65)) (lit 1.8)))
      (lit 0.5) (lit 2.5).
Proof.
  intros HL Hgt Hle. unfold targetExposure, rawTargetExposure.
  rewrite (luminance_of c L HL). unfold brightThreshold, target, min, max.
  rewrite (clamp_id L) by (trivial; revert Hgt; qc_lra).
  case_decide as Hd; [reflexivity | exfalso; revert Hd Hgt; qc_lra].
Qed.

Lemma targetExposure_ceiling (c : controller) (L : num) :
  Math_pow 1 (lit 1.8) = 1 ->
  averageLuminance c = Some L -> lit 1.2 <= L ->
  targetExposure Math_pow c = lit 0.5.
Proof.
  intros Hpow HL Hge. unfold targetExposure, rawTargetExposure.
  rewrite (luminance_of c L HL). unfold brightThreshold, target, min, max.
  rewrite (clamp_high L) by (trivial; qc_lra).
  case_decide as Hd; [| exfalso; revert Hd; qc_lra].
  replace ((lit 1.2 - lit 0.65) / (lit 1.2 - lit 0.65)) with (1 : num).
  - rewrite Hpow, lerp_end. apply clamp_id; qc_lra.
  - symmetry. unfold Qcdiv. apply Qcmult_inv_r. qc_lra.
Qed.

Lemma targetExposure_floor (c : controller) (L : num) :
  averageLuminance c = Some L -> L <= lit 0.05 ->
  luminance c = lit 0.05 /\ rawTargetExposure Math_pow c = lit 9
  /\ targetExposure Math_pow c = max.
Proof.
  intros HL Hle.
  assert (Hl : luminance c = lit 0.05)
    by (rewrite (luminance_of c L HL); apply clamp_low; trivial; qc_lra).
  assert (Hr : rawTargetExposure Math_pow c = lit 9).
  { unfold rawTargetExposure. rewrite Hl. unfold brightThreshold, target.
    case_decide as Hd; [exfalso; revert Hd; qc_lra |].
    apply Qc_is_canon. reflexivity. }
  repeat split; trivial. unfold targetExposure. rewrite Hr.
  unfold min, max. apply clamp_high; qc_lra.
Qed.

Lemma applyAutoExposure_enabled c :
  enabled c = true ->
  let T := targetExposure Math_pow c in
  let a := lerp (autoExposureValue c ?? T) T smooth in
  autoExposureValue (applyAutoExposure Math_pow c) = Some a
  /\ currentExposure (applyAutoExposure Math_pow c) = Some a
  /\ averageLuminance (applyAutoExposure Math_pow c) = averageLuminance c
  /\ enabled (applyAutoExposure Math_pow c) = true.
Proof.
  intros He T a. unfold applyAutoExposure. rewrite He. cbn [negb].
  fold T. fold a.
  destruct (setExposure_spec a (set_autoExposureValue (Some a) c))
    as (Hc & _ & _ & Hen & _ & Ha & Hav & _).
  rewrite Hc, Hen, Ha, Hav. repeat split; trivial.
Qed.

Lemma applyAutoExposure_disabled c :
  enabled c = false -> applyAutoExposure Math_pow c = c.
Proof. intros He. unfold applyAutoExposure. rewrite He. reflexivity. Qed.

(** *** Sampling *)

Lemma sampleSceneLuminance_spec (rb : readback) (c : controller) :
  let live := luminanceRenderTarget c && renderer c in
  exists c',
    sampleSceneLuminance rb c = Normal c'
    /\ effects c' = effects c ++ (if live then sampling_effects else [])
    /\ averageLuminance c'
       = (if live then
            match rb with
            | PixelsRead pixels => Some (blended c pixels)
            | ReadThrows _ => averageLuminance c
            end
          else averageLuminance c)
    /\ luminanceBuffer c'
       = (if live then
            match rb with
            | PixelsRead pixels => write_pixels (luminanceBuffer c) pixels
            | ReadThrows _ => luminanceBuffer c
            end
          else luminanceBuffer c)
    /\ enabled c' = enabled c
    /\ manualExposure c' = manualExposure c
    /\ currentExposure c' = currentExposure c
    /\ autoExposureValue c' = autoExposureValue c
    /\ exposurePass c' = exposurePass c
    /\ luminanceRenderTarget c' = luminanceRenderTarget c
    /\ renderer c' = renderer c
    /\ onExposureChange c' = onExposureChange c.
Proof.
  destruct c as [r p cb e m cu a rt buf av fx].
  unfold sampleSceneLuminance, try_catch, blended.
  destruct rt, r, rb; cbn [luminanceRenderTarget renderer negb orb andb];
    eexists; (split; [reflexivity |]); cbn;
    rewrite <- ?app_assoc, ?app_nil_r; repeat split; reflexivity.
Qed.

Lemma update_unlit (rb : readback) (c : controller) :
  update Math_pow true rb c = Normal c.
Proof. reflexivity. Qed.

Lemma update_lit (rb : readback) (c : controller) :
  exists c', sampleSceneLuminance rb c = Normal c'
             /\ update Math_pow false rb c = Normal (applyAutoExposure Math_pow c').
Proof.
  destruct (sampleSceneLuminance_spec rb c) as (c' & Hs & _).
  exists c'. split; [exact Hs |]. unfold update. rewrite Hs. reflexivity.
Qed.

(** No call of [update] ends in an exception. *)
Lemma update_normal (unlit : bool) (rb : readback) (c : controller) :
  exists c', update Math_pow unlit rb c = Normal c'.
Proof.
  destruct unlit; [eexists; apply update_unlit |].
  destruct (update_lit rb c) as (c' & _ & H). eexists; exact H.
Qed.

End Curve.

Ltac qc_eval := vm_compute; first [reflexivity | discriminate | exact I].

(** C1: with auto-exposure enabled, [applyAutoExposure] takes as target
    exposure [0.45 / luminance] while the smoothed luminance is at or below
    0.65; above it the target is the interpolation from the exposure at the
    threshold ([0.45 / 0.65]) towards the minimum 0.5 along
    [Math.pow(normalized, 1.8)], which is the minimum from luminance 1.2 on;
    the target lies in [0.5, 2.5] (it is 2.5 for every luminance up to 0.05),
    and the new auto value is the blend of the old one with that target by
    0.12. *)
Theorem applyAutoExposure_target_curve
    (Math_pow : num -> num -> num) (c : controller) (L : num) :
  Math_pow 1 (lit 1.8) = 1 ->
  enabled c = true ->
  averageLuminance c = Some L ->
  let T := targetExposure Math_pow c in
  (lit 0.5 <= T /\ T <= lit 2.5)
  /\ (0 < L -> L <= lit 0.65 -> T = clamp (lit 0.45 / L) (lit 0.5) (lit 2.5))
  /\ (L = lit 0.65 -> T = lit 0.45 / lit 0.65)
  /\ (lit 0.65 < L -> L <= lit 1.2 ->
      T = clamp (lerp (lit 0.45 / lit 0.65) (lit 0.5)
                   (Math_pow ((L - lit 0.65) / (lit 1.2 - lit 0.65)) (lit 1.8)))
            (lit 0.5) (lit 2.5))
  /\ (lit 1.2 <= L -> T = lit 0.5)
  /\ (L <= lit 0.05 -> T = lit 2.5)
  /\ autoExposureValue (applyAutoExposure Math_pow c)
     = Some (lerp (autoExposureValue c ?? T) T (lit 0.12))
  /\ currentExposure (applyAutoExposure Math_pow c)
     = autoExposureValue (applyAutoExposure Math_pow c).
Proof.
  intros Hpow He HL T.
  split; [apply (targetExposure_bounds Math_pow c) |].
  split; [intros; apply (targetExposure_inverse Math_pow c L); trivial |].
  split.
  { intros ->. unfold T. rewrite (targetExposure_inverse Math_pow c (lit 0.65) HL);
      [| qc_lra | qc_lra].
    apply clamp_id; [apply div_ge | apply div_le]; qc_lra. }
  split; [intros; apply (targetExposure_power Math_pow c L); trivial |].
  split; [intros; apply (targetExposure_ceiling Math_pow c L); trivial |].
  split; [intros Hlow; apply (targetExposure_floor Math_pow c L HL Hlow) |].
  destruct (applyAutoExposure_enabled Math_pow c He) as (Ha & Hc & _).
  rewrite Ha, Hc. split; reflexivity.
Qed.

Lemma applyAutoExposure_target_curve_witness :
  targetExposure pow_square fresh_auto = clamp (lit 0.45 / lit 0.5) (lit 0.5) (lit 2.5).
Proof.
  destruct (applyAutoExposure_target_curve pow_square fresh_auto (lit 0.5)
              pow_square_1 eq_refl eq_refl) as (_ & H & _).
  apply H; qc_eval.
Defined.

(** C10: the luminance [applyAutoExposure] divides by is the average
    luminance clamped to [0.05, 1.2]: it is at least 0.05, never zero, and
    so are the other two divisors (the threshold and [1.2 - threshold]); the
    target exposure is a number in [0.5, 2.5] in every state, and for a
    black scene (average luminance 0) it is the maximum 2.5. *)
Theorem applyAutoExposure_division_safe
    (Math_pow : num -> num -> num) (c : controller) :
  (lit 0.05 <= luminance c /\ luminance c <= lit 1.2)
  /\ luminance c <> 0
  /\ target / luminance c * luminance c = target
  /\ brightThreshold <> 0
  /\ lit 1.2 - brightThreshold <> 0
  /\ (min <= targetExposure Math_pow c /\ targetExposure Math_pow c <= max)
  /\ average black_frame = 0
  /\ luminance (set_averageLuminance (Some 0) c) = lit 0.05
  /\ rawTargetExposure Math_pow (set_averageLuminance (Some 0) c) = lit 0.45 / lit 0.05
  /\ targetExposure Math_pow (set_averageLuminance (Some 0) c) = lit 2.5.
Proof.
  pose proof (luminance_bounds c) as Hb. pose proof (luminance_pos c) as Hp.
  assert (Hne : luminance c <> 0) by (intros E; rewrite E in Hp; revert Hp; qc_lra).
  split; [exact Hb |]. split; [exact Hne |].
  split; [apply div_mult; exact Hne |].
  split; [unfold brightThreshold; qc_lra |].
  split; [unfold brightThreshold; qc_lra |].
  split; [apply targetExposure_bounds |].
  split; [apply Qc_is_canon; vm_compute; reflexivity |].
  destruct (targetExposure_floor Math_pow (set_averageLuminance (Some 0) c) 0)
    as (H1 & H2 & H3); [reflexivity | qc_lra |].
  split; [exact H1 |]. split; [| exact H3].
  rewrite H2. apply Qc_is_canon. reflexivity.
Qed.

(** *** Resetting the luminance *)

Lemma resetLuminance_spec (c : controller) :
  averageLuminance (resetLuminance c) = Some target
  /\ autoExposureValue (resetLuminance c)
     = Some (nullish_opt (currentExposure c) (manualExposure c) ?? 1)
  /\ enabled (resetLuminance c) = enabled c
  /\ manualExposure (resetLuminance c) = manualExposure c
  /\ currentExposure (resetLuminance c) = currentExposure c
  /\ effects (resetLuminance c) = effects c.
Proof. destruct c. repeat split; reflexivity. Qed.


(** *** Sampling regardless of the mode *)

Lemma applyAutoExposure_effects (Math_pow : num -> num -> num) (c : controller) :
  exists tail,
    effects (applyAutoExposure Math_pow c) = effects c ++ tail
    /\ (enabled c = false -> tail = [])
    /\ forall e, In e tail -> exists v, e = OnExposureChange v.
Proof.
  unfold applyAutoExposure. destruct (enabled c); cbn [negb].
  - match goal with |- context [setExposure ?v ?c'] =>
      destruct (setExposure_spec v c') as (_ & _ & Hfx & _); rewrite Hfx
    end.
    eexists. split; [reflexivity |]. split; [discriminate |].
    cbn. destruct (onExposureChange c); cbn; intros e He;
      [destruct He as [<- | []]; eexists; reflexivity | destruct He].
  - exists []. rewrite app_nil_r. repeat split; trivial. intros e [].
Qed.

(** C3, as the code has it: [update(false)] renders into the luminance
    target and reads it back whenever the target and the renderer exist,
    whether auto-exposure is enabled or not; only [unlitMode] skips the
    frame.  With auto-exposure disabled these five renderer calls are the
    only effects, a successful readback is blended into
    [averageLuminance], and the exposure values stay as they were. *)
Theorem update_samples_in_every_mode
    (Math_pow : num -> num -> num) (c : controller) (rb : readback) :
  luminanceRenderTarget c = true ->
  renderer c = true ->
  update Math_pow true rb c = Normal c
  /\ exists c',
       update Math_pow false rb c = Normal c'
       /\ (exists tail, effects c' = effects c ++ sampling_effects ++ tail)
       /\ (enabled c = false ->
           effects c' = effects c ++ sampling_effects
           /\ averageLuminance c'
              = match rb with
                | PixelsRead pixels => Some (blended c pixels)
                | ReadThrows _ => averageLuminance c
                end
           /\ currentExposure c' = currentExposure c
           /\ autoExposureValue c' = autoExposureValue c
           /\ manualExposure c' = manualExposure c
           /\ exposurePass c' = exposurePass c).
Proof.
  intros Hrt Hr. split; [reflexivity |].
  destruct (sampleSceneLuminance_spec rb c)
    as (cs & Hs & Hfx & Hav & _ & Hen & Hm & Hcu & Ha & Hp & _).
  rewrite Hrt, Hr in Hfx, Hav. cbn [andb] in Hfx, Hav.
  exists (applyAutoExposure Math_pow cs).
  split; [unfold update; rewrite Hs; reflexivity |].
  destruct (applyAutoExposure_effects Math_pow cs) as (tail & Ht & Hnil & _).
  split.
  - exists tail. rewrite Ht, Hfx, <- app_assoc. reflexivity.
  - intros Hd. rewrite applyAutoExposure_disabled by congruence.
    repeat split; trivial.
Qed.

Lemma update_samples_in_every_mode_witness :
  exists c',
    update pow_square false (PixelsRead white_frame) fresh = Normal c'
    /\ effects c' = sampling_effects
    /\ averageLuminance c' = Some (blended fresh white_frame).
Proof.
  destruct (update_samples_in_every_mode pow_square fresh (PixelsRead white_frame)
              eq_refl eq_refl) as (_ & c' & Hu & _ & H).
  destruct (H eq_refl) as (Hfx & Hav & _).
  exists c'. split; [exact Hu |]. split; [exact Hfx | exact Hav].
Defined.

(** C3 as stated fails: on a freshly constructed controller, whose
    auto-exposure is off, one lit frame renders into the luminance target,
    reads it back and moves [averageLuminance]. *)
Lemma update_skips_sampling_when_disabled_counterexample :
  ~ (enabled fresh = false ->
     let c' := state_of (update pow_square false (PixelsRead white_frame) fresh) in
     ~ In RenderScene (effects c')
     /\ ~ In ReadRenderTargetPixels (effects c')
     /\ averageLuminance c' = averageLuminance fresh).
Proof.
  intros H. destruct (H eq_refl) as (Hrender & _).
  apply Hrender. vm_compute. tauto.
Qed.

(** *** A failing readback *)

(** C8, as the code has it: when [readRenderTargetPixels] throws, [update]
    still completes normally, [averageLuminance] keeps its value, nothing
    is written to the console (the catch block is empty), and the
    exposure step runs on the state the sampling left. *)
Theorem update_survives_failed_readback
    (Math_pow : num -> num -> num) (c : controller) (unlit : bool) (err : string) :
  exists c',
    update Math_pow unlit (ReadThrows err) c = Normal c'
    /\ averageLuminance c' = averageLuminance c
    /\ (forall msg, In (ConsoleLog msg) (effects c') -> In (ConsoleLog msg) (effects c))
    /\ (unlit = false ->
        exists sampled,
          sampleSceneLuminance (ReadThrows err) c = Normal sampled
          /\ averageLuminance sampled = averageLuminance c
          /\ autoExposureValue sampled = autoExposureValue c
          /\ c' = applyAutoExposure Math_pow sampled).
Proof.
  destruct unlit.
  - exists c. repeat split; trivial. discriminate.
  - destruct (sampleSceneLuminance_spec (ReadThrows err) c)
      as (cs & Hs & Hfx & Hav & _ & Hen & _ & _ & Ha & _).
    assert (Hav' : averageLuminance cs = averageLuminance c)
      by (rewrite Hav; destruct (luminanceRenderTarget c && renderer c); reflexivity).
    exists (applyAutoExposure Math_pow cs).
    split; [unfold update; rewrite Hs; reflexivity |].
    split.
    { destruct (enabled cs) eqn:E.
      - destruct (applyAutoExposure_enabled Math_pow cs E) as (_ & _ & H & _).
        congruence.
      - rewrite applyAutoExposure_disabled; trivial. }
    split.
    { destruct (applyAutoExposure_effects Math_pow cs) as (tail & Ht & _ & Honly).
      intros msg. rewrite Ht, Hfx, !in_app_iff.
      intros [[H | H] | H]; trivial.
      - destruct (luminanceRenderTarget c && renderer c); cbn in H;
          intuition discriminate.
      - destruct (Honly _ H) as (v & Hv). discriminate. }
    intros _. exists cs. repeat split; trivial.
Qed.

Lemma update_survives_failed_readback_witness :
  exists c',
    update pow_square false (ReadThrows "readPixels unavailable") fresh_auto = Normal c'
    /\ averageLuminance c' = Some (lit 0.5)
    /\ c' = applyAutoExposure pow_square
              (emit sampling_effects fresh_auto).
Proof.
  destruct (update_survives_failed_readback pow_square fresh_auto false
              "readPixels unavailable") as (c' & Hu & Hav & _ & H).
  destruct (H eq_refl) as (cs & Hs & _ & _ & Hc).
  exists c'. split; [exact Hu |]. split; [exact Hav |].
  rewrite Hc. f_equal. injection Hs as <-. reflexivity.
Defined.

(** C8 as stated fails on its middle part: after a failed readback no
    console call has been made. *)
Lemma failed_readback_is_logged_counterexample :
  ~ (let r := update pow_square false (ReadThrows "readPixels unavailable") fresh_auto in
     throws r = false
     /\ (exists msg, In (ConsoleLog msg) (effects (state_of r)))
     /\ averageLuminance (state_of r) = averageLuminance fresh_auto).
Proof.
  intros (_ & (msg & Hin) & _). vm_compute in Hin.
  repeat (destruct Hin as [Hin | Hin]; [discriminate Hin |]). exact Hin.
Qed.

(** *** Manual exposure *)

Lemma manual_inv_new r p cb : manual_inv (lit 1.0) (new r p cb).
Proof. split; reflexivity. Qed.

Lemma manual_inv_init e a c : manual_inv (e ?? lit 1.0) (init e a c).
Proof.
  destruct c as [r p cb en m cu au rt buf av fx]. unfold init.
  destruct p; split; reflexivity.
Qed.

Lemma manual_inv_setManualExposure v m c :
  manual_inv m c -> manual_inv v (setManualExposure v c).
Proof.
  intros _. unfold setManualExposure.
  destruct (enabled (set_manualExposure (Some v) c)) eqn:E; cbn [negb].
  - split; [reflexivity | congruence].
  - match goal with |- manual_inv _ (setExposure ?x ?c') =>
      destruct (setExposure_spec x c') as (Hc & _ & _ & _ & Hm & _)
    end.
    split; [rewrite Hm; reflexivity | intros _; exact Hc].
Qed.

Lemma manual_inv_setEnabled b m c :
  manual_inv m c -> manual_inv m (setEnabled b c).
Proof.
  intros [Hm _]. unfold setEnabled.
  destruct b; cbn [enabled set_enabled].
  - split; [destruct c; exact Hm | discriminate].
  - match goal with |- manual_inv _ (setExposure ?x ?c') =>
      destruct (setExposure_spec x c') as (Hc & _ & _ & _ & Hm' & _)
    end.
    assert (E : manualExposure (set_enabled false c) = Some m) by (destruct c; exact Hm).
    rewrite E in *. split; [rewrite Hm'; reflexivity | intros _; exact Hc].
Qed.

Lemma manual_inv_resetLuminance m c :
  manual_inv m c -> manual_inv m (resetLuminance c).
Proof.
  intros [Hm Hc]. destruct (resetLuminance_spec c) as (_ & _ & He & Hm' & Hc' & _).
  split; [congruence | rewrite He, Hc'; exact Hc].
Qed.

Lemma manual_inv_update Math_pow unlit rb m c :
  manual_inv m c ->
  exists c', update Math_pow unlit rb c = Normal c' /\ manual_inv m c'.
Proof.
  intros [Hm Hc]. destruct unlit; [exists c; split; [reflexivity | split; trivial] |].
  destruct (sampleSceneLuminance_spec rb c)
    as (cs & Hs & _ & _ & _ & Hen & Hms & Hcs & _).
  exists (applyAutoExposure Math_pow cs).
  split; [unfold update; rewrite Hs; reflexivity |].
  destruct (enabled cs) eqn:E.
  - destruct (applyAutoExposure_enabled Math_pow cs E) as (_ & _ & _ & He').
    split; [| congruence].
    unfold applyAutoExposure. rewrite E. cbn [negb].
    match goal with |- manualExposure (setExposure ?x ?c') = _ =>
      destruct (setExposure_spec x c') as (_ & _ & _ & _ & Hm' & _); rewrite Hm'
    end.
    destruct cs; cbn in *; congruence.
  - rewrite applyAutoExposure_disabled by exact E.
    split; [congruence | intros _; rewrite Hcs; apply Hc; congruence].
Qed.

Lemma run_manual_inv Math_pow (ops : list op) :
  forall m c, manual_inv m c ->
    exists c', run Math_pow ops c = Normal c' /\ manual_inv (spec_lastManual ops m) c'.
Proof.
  induction ops as [| o ops IH]; intros m c Hinv.
  - exists c. split; [reflexivity | exact Hinv].
  - destruct o as [e a | u rb | v | b |]; cbn [run step spec_lastManual].
    + apply IH, manual_inv_init.
    + destruct (manual_inv_update Math_pow u rb m c Hinv) as (c1 & Hu & H1).
      rewrite Hu. apply IH, H1.
    + apply IH, (manual_inv_setManualExposure v m c Hinv).
    + apply IH, manual_inv_setEnabled, Hinv.
    + apply IH, manual_inv_resetLuminance, Hinv.
Qed.

(** C2, as the code has it: after any sequence of [init], [update],
    [setManualExposure], [setEnabled] and [resetLuminance] on a constructed
    controller, the run has not thrown and, if auto-exposure is off,
    [currentExposure] is the manual value in force: the argument of the
    most recent [setManualExposure] made since the most recent [init], or
    else the value that [init] installed ([initialState.exposure ?? 1.0]),
    or the constructor's 1.0 when there was neither; what auto-exposure did
    in between leaves no trace. *)
Theorem disabled_exposure_is_manual
    (Math_pow : num -> num -> num) (has_renderer : bool) (pass : option num)
    (callback : bool) (ops : list op) :
  exists c',
    run Math_pow ops (new has_renderer pass callback) = Normal c'
    /\ manualExposure c' = Some (spec_lastManual ops (lit 1.0))
    /\ (enabled c' = false ->
        currentExposure c' = Some (spec_lastManual ops (lit 1.0))).
Proof.
  destruct (run_manual_inv Math_pow ops (lit 1.0) (new has_renderer pass callback)
              (manual_inv_new _ _ _)) as (c' & Hr & Hm & Hc).
  exists c'. repeat split; trivial.
Qed.

Lemma disabled_exposure_is_manual_witness :
  exists c',
    run pow_square session fresh = Normal c'
    /\ enabled c' = false
    /\ currentExposure c' = Some (lit 2).
Proof.
  destruct (disabled_exposure_is_manual pow_square true (Some 1) true session)
    as (c' & Hr & _ & Hc).
  exists c'. split; [exact Hr |].
  assert (He : enabled c' = false).
  { assert (E : state_of (run pow_square session fresh) = c')
      by (unfold fresh; rewrite Hr; reflexivity).
    rewrite <- E. vm_compute. reflexivity. }
  split; [exact He | exact (Hc He)].
Defined.

(** C2 as stated fails when [init] comes after a [setManualExposure]: it
    overwrites the manual and the current exposure with its own value, so
    the exposure is 1 although the last [setManualExposure] argument is 2. *)
Lemma reinit_overrides_manual_counterexample :
  ~ (let c' := state_of (run pow_square
                           [SetManualExposure (lit 2); Init (Some 1) (Some false)]
                           fresh) in
     enabled c' = false -> currentExposure c' = Some (lit 2)).
Proof.
  intros H. specialize (H eq_refl). vm_compute in H.
  injection H as H. discriminate H.
Qed.

(** *** Settling under a constant scene *)

Lemma write_pixels_full (buffer pixels : list Byte.byte) :
  length pixels = length buffer -> write_pixels buffer pixels = pixels.
Proof.
  intros H. unfold write_pixels. rewrite <- H.
  rewrite skipn_all2 by (rewrite H; reflexivity).
  rewrite app_nil_r. apply firstn_all.
Qed.

Lemma natQ_S (n : nat) : natQ (S n) = natQ n + 1.
Proof.
  unfold natQ. rewrite Nat2Z.inj_succ. unfold Z.succ. qc_push.
  rewrite inject_Z_plus. reflexivity.
Qed.

Lemma natQ_nonneg (n : nat) : 0 <= natQ n.
Proof.
  unfold natQ. qc_push. change 0%Q with (inject_Z 0).
  rewrite <- Zle_Qle. lia.
Qed.

Lemma natQ_le (n m : nat) : (n <= m)%nat -> natQ n <= natQ m.
Proof. intros H. unfold natQ. qc_push. rewrite <- Zle_Qle. lia. Qed.

End AutoExposureProps.

(** ** PostProcessingPipeline: the chain built by the constructor *)

Module PostProcessingPipelineProps.
Import PostProcessingPipeline.

(** C9: in the chain the constructor assembles, the tone-mapping pass is
    last and is the only pass with [renderToScreen] set; the chain is
    render, bokeh, bloom, bloom tint, lens dirt, film, grain tint,
    aberration, FXAA, exposure, colour adjust, tone mapping, i.e. the
    stages geometry render, depth of field, bloom, tint, grain, chromatic
    aberration, anti-aliasing, exposure, colour grade, tone-map in that
    order; and the disabled passes are exactly FXAA and lens dirt.  The
    colour-adjust pass comes from another controller: it is assumed to
    arrive as [ShaderPass] leaves a pass, enabled and not rendering to the
    screen. *)
Theorem constructor_chain
    (size_x size_y pixelRatio : num) (colorAdjust_getPass : pass) :
  enabled colorAdjust_getPass = true ->
  renderToScreen colorAdjust_getPass = false ->
  let P := constructor size_x size_y pixelRatio colorAdjust_getPass in
  composer P = [renderPass; bokehPass; bloomPass; bloomTintPass; lensDirtPass;
                filmPass; grainTintPass; aberrationPass; fxaaPass; exposurePass;
                colorAdjustPass; toneMappingPass]
  /\ NoDup (composer P)
  /\ runs (map stage_of (composer P))
     = [GeometryRender; DepthOfField; Bloom; Tint; Grain; ChromaticAberration;
        AntiAliasing; Exposure; ColorGrade; ToneMap]
  /\ chain_where renderToScreen P = [toneMappingPass]
  /\ last (composer P) = Some toneMappingPass
  /\ chain_where (fun p => negb (enabled p)) P = [lensDirtPass; fxaaPass]
  /\ chain_where enabled P
     = [renderPass; bokehPass; bloomPass; bloomTintPass; filmPass; grainTintPass;
        aberrationPass; exposurePass; colorAdjustPass; toneMappingPass].
Proof.
  intros He Hr P.
  assert (Hchain : forall f g,
             (forall s, (f <$> field P s) = Some (g s)) ->
             chain_where f P = List.filter g (composer P)).
  { intros f g Hfg. unfold chain_where. apply List.filter_ext. intros s.
    specialize (Hfg s). destruct (field P s); cbn in Hfg; congruence. }
  split; [reflexivity |].
  split; [apply NoDup_ListNoDup; repeat constructor; cbn; intuition discriminate |].
  split; [reflexivity |].
  split.
  { rewrite (Hchain _ (fun s => bool_decide (s = toneMappingPass))); [reflexivity |].
    intros []; try reflexivity.
    change (Some (renderToScreen colorAdjust_getPass) = Some false).
    rewrite Hr. reflexivity. }
  split; [reflexivity |].
  split.
  { rewrite (Hchain _ (fun s => bool_decide (s = lensDirtPass \/ s = fxaaPass)));
      [reflexivity |].
    intros []; try reflexivity.
    change (Some (negb (enabled colorAdjust_getPass)) = Some false).
    rewrite He. reflexivity. }
  rewrite (Hchain _ (fun s => bool_decide (s <> lensDirtPass /\ s <> fxaaPass)));
    [reflexivity |].
  intros []; try reflexivity.
  change (Some (enabled colorAdjust_getPass) = Some true).
  rewrite He. reflexivity.
Qed.

Lemma constructor_chain_witness :
  chain_where renderToScreen
    (constructor (lit 1280) (lit 720) (lit 2) (new_pass []))
  = [toneMappingPass].
Proof.
  destruct (constructor_chain (lit 1280) (lit 720) (lit 2) (new_pass [])
              eq_refl eq_refl) as (_ & _ & _ & H & _).
  exact H.
Defined.

End PostProcessingPipelineProps.

(** ** The remainder operator and angle normalisation *)

Module RemProps.
Import NumProps.

Lemma rem_shift (x m : num) : exists k : Z, rem x m = x - m * ofZ k.
Proof. eexists. reflexivity. Qed.

Lemma rem_nonneg (x m : num) : 0 < m -> 0 <= x -> 0 <= rem x m /\ rem x m < m.
Proof.
  intros Hm Hx. assert (Hne : m <> 0) by (intros ->; revert Hm; qc_lra).
  pose proof (div_mult x m Hne) as E.
  assert (Hq : 0 <= x / m) by (apply div_ge; [exact Hm | qc_lra]).
  unfold rem, trunc. destruct (decide (0 <= x / m)) as [_ | Hn]; [| contradiction].
  pose proof (Qfloor_le (this (x / m)%Qc)) as Hlo.
  pose proof (Qlt_floor (this (x / m)%Qc)) as Hhi.
  rewrite inject_Z_plus in Hhi. unfold ofZ.
  revert Hlo Hhi. generalize (inject_Z (Qfloor (this (x / m)%Qc))). intros f Hlo Hhi.
  revert E Hq Hlo Hhi. generalize (x / m). intros q E Hq Hlo Hhi.
  split; qc_push; change (inject_Z 1) with 1%Q in *; nra.
Qed.

Lemma rem_neg (x m : num) : 0 < m -> x < 0 -> - m < rem x m /\ rem x m <= 0.
Proof.
  intros Hm Hx. assert (Hne : m <> 0) by (intros ->; revert Hm; qc_lra).
  pose proof (div_mult x m Hne) as E.
  assert (Hq : ~ 0 <= x / m).
  { intros Hq. revert E Hq. generalize (x / m). intros q E Hq. qc_nra. }
  unfold rem, trunc. destruct (decide (0 <= x / m)) as [Hn | _]; [contradiction |].
  pose proof (Qle_ceiling (this (x / m)%Qc)) as Hhi.
  pose proof (Qceiling_lt (this (x / m)%Qc)) as Hlo.
  unfold Z.sub in Hlo. rewrite inject_Z_plus in Hlo. unfold ofZ.
  revert Hlo Hhi. generalize (inject_Z (Qceiling (this (x / m)%Qc))). intros f Hlo Hhi.
  clear Hq. revert E Hlo Hhi. generalize (x / m). intros q E Hlo Hhi.
  split; qc_push; change (inject_Z (Z.opp 1)) with (-1)%Q in *; nra.
Qed.

Lemma wrap_spec (v m : num) :
  0 < m -> (0 <= wrap v m /\ wrap v m < m) /\ exists k : Z, wrap v m = v - m * ofZ k.
Proof.
  intros Hm. unfold wrap.
  assert (Hin : 0 <= rem v m + m).
  { destruct (Qclt_le_dec v 0) as [Hv | Hv].
    - destruct (rem_neg v m Hm Hv) as [H _]. revert H. qc_lra.
    - destruct (rem_nonneg v m Hm Hv) as [H _]. revert H Hm. qc_lra. }
  split; [apply rem_nonneg; trivial |].
  destruct (rem_shift v m) as (k1 & E1). destruct (rem_shift (rem v m + m) m) as (k2 & E2).
  exists (k1 + k2 - 1)%Z. rewrite E2, E1. unfold ofZ.
  unfold Z.sub. rewrite !inject_Z_plus.
  generalize (inject_Z k1), (inject_Z k2). intros a b. qc_push.
  change (inject_Z (Z.opp 1)) with (-1)%Q. lra.
Qed.

(** Two numbers in [[0, m)] that differ by a multiple of [m] are equal. *)
Lemma wrap_unique (x y m : num) (k : Z) :
  0 < m -> 0 <= x -> x < m -> 0 <= y -> y < m -> x = y + m * ofZ k -> x = y.
Proof.
  intros Hm Hx0 Hx1 Hy0 Hy1 E.
  assert (Hk : k = 0%Z).
  { assert (Hlt : (-1 < inject_Z k /\ inject_Z k < 1)%Q).
    { unfold ofZ in E. revert E. generalize (inject_Z k). intros f E.
      split; qc_push; nra. }
    destruct Hlt as [H1 H2].
    change (-1)%Q with (inject_Z (-1)) in H1. change 1%Q with (inject_Z 1) in H2.
    rewrite <- Zlt_Qlt in H1, H2. lia. }
  subst k. rewrite E. clear E. qc_push. change (inject_Z 0) with 0%Q. lra.
Qed.

Lemma full_turn_pos : 0 < lit 360.
Proof. qc_lra. Qed.

End RemProps.

(** ** Rotation of the environment and of the lighting rig *)

Module EnvironmentProps.
Import EnvironmentController RemProps.

Lemma env_normalize_range (v : num) : 0 <= normalize v /\ normalize v < lit 360.
Proof. apply (wrap_spec v (lit 360) full_turn_pos). Qed.

(** The rotation angle is a setting: deriving the environment reads it
    and never writes it. *)
Lemma rotation_set_rotationRenderTarget v c :
  rotation (set_rotationRenderTarget v c) = rotation c.
Proof. destruct c; reflexivity. Qed.
Lemma rotation_set_environmentRenderTarget v c :
  rotation (set_environmentRenderTarget v c) = rotation c.
Proof. destruct c; reflexivity. Qed.
Lemma rotation_set_scene v c : rotation (set_scene v c) = rotation c.
Proof. destruct c; reflexivity. Qed.
Lemma rotation_set_next_id v c : rotation (set_next_id v c) = rotation c.
Proof. destruct c; reflexivity. Qed.
Lemma rotation_gpu_dispose v c : rotation (gpu_dispose v c) = rotation c.
Proof. destruct c; reflexivity. Qed.
Lemma rotation_emit v c : rotation (emit v c) = rotation c.
Proof. destruct c; reflexivity. Qed.
Lemma rotation_clear c : rotation (clear_to_fallback c) = rotation c.
Proof. destruct c; reflexivity. Qed.

Create Rewrite HintDb env_rotation.
#[local] Hint Rewrite rotation_set_rotationRenderTarget rotation_set_environmentRenderTarget
  rotation_set_scene rotation_set_next_id rotation_gpu_dispose rotation_emit
  rotation_clear : env_rotation.

Lemma rotation_notify t i c : rotation (_notifyEnvironmentMapUpdated t i c) = rotation c.
Proof.
  unfold _notifyEnvironmentMapUpdated. destruct (onEnvironmentMapUpdated c);
    autorewrite with env_rotation; reflexivity.
Qed.

End EnvironmentProps.

Module RotationProps.
Import RotationSpec RemProps.

Lemma cos_series_0 : cos_series 0 = 1.
Proof. apply Qc_is_canon. reflexivity. Qed.

Lemma sin_series_0 : sin_series 0 = 0.
Proof. apply Qc_is_canon. reflexivity. Qed.


End RotationProps.

(** ** EnvironmentController: teardown *)

Module TeardownProps.
Import EnvironmentController TeardownSpec.

(** [dispose()] adds exactly the two render targets and the PMREM
    generator to the disposed resources. *)
Lemma dispose_disposed (c : controller) :
  disposed (dispose c)
  = (match pmremGenerator c with Some g => {[ g ]} | None => ∅ end)
    ∪ (match rotationRenderTarget c with Some rt => {[ rt_id rt ]} | None => ∅ end)
    ∪ (match environmentRenderTarget c with Some rt => {[ rt_id rt ]} | None => ∅ end)
    ∪ disposed c.
Proof.
  destruct c as [pr mo cb en bg st bl ro fc [g |] ca cp ct [ert |] [rrt |] sc cc ni d fx];
    unfold dispose; cbn; apply set_eq; intros r; rewrite ?elem_of_union, ?elem_of_singleton;
  rewrite ?elem_of_empty; tauto.
Qed.

Lemma dispose_cache (c : controller) : cache (dispose c) = cache c.
Proof.
  destruct c as [pr mo cb en bg st bl ro fc [g |] ca cp ct [ert |] [rrt |] sc cc ni d fx];
    reflexivity.
Qed.

(** C4, on the code: after the studio preset was loaded and the controller
    torn down, the render target holding the convolved map and the PMREM
    generator are disposed, but the decoded texture is still in the cache
    and was never disposed. *)
Theorem dispose_leaves_cached_texture :
  exists t rt,
    cache viewer_loaded !! "studio"%string = Some t
    /\ environmentRenderTarget viewer_loaded = Some rt
    /\ (tex_id t ∉ disposed viewer_loaded)
    /\ cache (dispose viewer_loaded) !! "studio"%string = Some t
    /\ (rt_id rt ∈ disposed (dispose viewer_loaded))
    /\ (0%nat ∈ disposed (dispose viewer_loaded))
    /\ (tex_id t ∉ disposed (dispose viewer_loaded)).
Proof.
  eexists _, _.
  split; [vm_compute; reflexivity |].
  split; [vm_compute; reflexivity |].
  assert (Hd : disposed viewer_loaded = ∅) by reflexivity.
  split; [rewrite Hd; apply not_elem_of_empty |].
  split; [rewrite dispose_cache; vm_compute; reflexivity |].
  rewrite dispose_disposed, Hd.
  change (pmremGenerator viewer_loaded) with (Some 0%nat).
  change (rotationRenderTarget viewer_loaded) with (@None renderTarget).
  change (environmentRenderTarget viewer_loaded)
    with (Some (RenderTarget 2%nat
                  (Texture 2%nat (ConvolvedFrom 1%nat) None None None None None None
                     UVMapping true))).
  cbn [rt_id tex_id].
rewrite !elem_of_union, !elem_of_singleton, !elem_of_empty.
split; [tauto |]. split; [tauto |]. intuition discriminate.
Qed.

End TeardownProps.

(** ** AutoExposureController: sampling and whole sessions *)

Module AutoExposureFrameProps.
Import AutoExposureController AutoExposureSpec AutoExposureFrames NumProps AutoExposureProps.

Lemma channel_range (b : Byte.byte) : 0 <= channel b /\ channel b <= 1.
Proof.
  unfold channel. pose proof (Byte.to_N_bounded b) as H.
  assert (H0 : (0 <= Z.of_N (Byte.to_N b))%Z) by lia.
  assert (H1 : (Z.of_N (Byte.to_N b) <= 255)%Z) by lia.
  rewrite Zle_Qle in H0, H1. revert H0 H1.
  generalize (Z.of_N (Byte.to_N b)). intros z H0 H1.
  split; [apply div_ge | apply div_le]; unfold ofZ; qc_push;
    change (inject_Z 0) with 0%Q in *; change (inject_Z 255) with 255%Q in *; lra.
Qed.

Lemma sum_luminance_cons (r g b a : Byte.byte) (rest : list Byte.byte) :
  sum_luminance (r :: g :: b :: a :: rest)
  = lit 0.2126 * channel r + lit 0.7152 * channel g + lit 0.0722 * channel b
    + sum_luminance rest.
Proof. reflexivity. Qed.

Lemma sum_luminance_frame (pixels : list pixel) :
  0 <= sum_luminance (frame_of pixels)
  /\ sum_luminance (frame_of pixels) <= natQ (length pixels).
Proof.
  induction pixels as [| [[[r g] b] a] pixels [IH0 IH1]].
  - change (sum_luminance (frame_of [])) with (0 : Qc).
    change (natQ (length (@nil pixel))) with (0 : Qc). split; qc_lra.
  - change (frame_of ((r, g, b, a) :: pixels))
      with (r :: g :: b :: a :: frame_of pixels).
    rewrite sum_luminance_cons. cbn [length]. rewrite natQ_S.
    destruct (channel_range r) as [Hr0 Hr1]. destruct (channel_range g) as [Hg0 Hg1].
    destruct (channel_range b) as [Hb0 Hb1].
    revert IH0 IH1 Hr0 Hr1 Hg0 Hg1 Hb0 Hb1.
    generalize (sum_luminance (frame_of pixels)), (natQ (length pixels)),
      (channel r), (channel g), (channel b).
    intros s n cr cg cb. intros. split; qc_lra.
Qed.

Lemma frame_of_length (pixels : list pixel) :
  length (frame_of pixels) = (4 * length pixels)%nat.
Proof.
  induction pixels as [| [[[r g] b] a] pixels IH]; [reflexivity |].
  change (frame_of ((r, g, b, a) :: pixels)) with (r :: g :: b :: a :: frame_of pixels).
  cbn [length]. rewrite IH. lia.
Qed.

Lemma average_frame (pixels : list pixel) :
  average (frame_of pixels) = sum_luminance (frame_of pixels) / natQ (length pixels).
Proof.
  unfold average. rewrite frame_of_length. f_equal.
  unfold natQ. rewrite Nat2Z.inj_mul. unfold ofZ. qc_push.
  rewrite inject_Z_mult. change (inject_Z (Z.of_nat 4)) with 4%Q.
  field.
Qed.

Lemma natQ_pos (n : nat) : (0 < n)%nat -> 0 < natQ n.
Proof.
  intros H. unfold natQ. qc_push. change 0%Q with (inject_Z 0).
  rewrite <- Zlt_Qlt. lia.
Qed.

(** X1: the sampled average of any non-empty frame is a luminance in [0, 1]. *)
Theorem average_in_unit_interval (pixels : list pixel) :
  pixels <> [] ->
  0 <= average (frame_of pixels) /\ average (frame_of pixels) <= 1.
Proof.
  intros Hne. rewrite average_frame.
  destruct (sum_luminance_frame pixels) as [H0 H1].
  assert (Hn : 0 < natQ (length pixels))
    by (apply natQ_pos; destruct pixels; [congruence | cbn; lia]).
  split; [apply div_ge | apply div_le]; trivial; revert H0 H1; qc_lra.
Qed.

Lemma average_in_unit_interval_witness :
  0 <= average (frame_of [(Byte.x10, Byte.x80, Byte.xff, Byte.x00)])
  /\ average (frame_of [(Byte.x10, Byte.x80, Byte.xff, Byte.x00)]) <= 1.
Proof. apply average_in_unit_interval. discriminate. Defined.


Lemma sum_luminance_alpha (a : Byte.byte) (pixels : list pixel) :
  sum_luminance (frame_of (map (with_alpha a) pixels)) = sum_luminance (frame_of pixels).
Proof.
  induction pixels as [| [[[r g] b] a'] pixels IH]; [reflexivity |].
  change (frame_of (map (with_alpha a) ((r, g, b, a') :: pixels)))
    with (r :: g :: b :: a :: frame_of (map (with_alpha a) pixels)).
  change (frame_of ((r, g, b, a') :: pixels)) with (r :: g :: b :: a' :: frame_of pixels).
  rewrite !sum_luminance_cons, IH. reflexivity.
Qed.

(** X3: the alpha channel never enters the sampled luminance. *)
Theorem average_ignores_alpha (a : Byte.byte) (pixels : list pixel) :
  average (frame_of (map (with_alpha a) pixels)) = average (frame_of pixels).
Proof. rewrite !average_frame, sum_luminance_alpha, length_map. reflexivity. Qed.




(** *** What every public method keeps *)

Lemma write_pixels_length (buffer pixels : list Byte.byte) :
  length (write_pixels buffer pixels) = length buffer.
Proof.
  unfold write_pixels. rewrite length_firstn, length_app, length_skipn. lia.
Qed.

Lemma healthy_new r p cb : healthy (new r p cb).
Proof.
  unfold healthy. cbn [new manualExposure currentExposure autoExposureValue
                       averageLuminance luminanceBuffer].
  repeat split; try (eexists; reflexivity).
  exists (lit 0.5). split; [reflexivity |]. split; qc_lra.
Qed.

Lemma healthy_setExposure v c : healthy c -> healthy (setExposure v c).
Proof.
  intros (Hm & _ & Ha & Hl & Hb).
  destruct (setExposure_spec v c) as (Hc' & _ & _ & _ & Hm' & Ha' & Hl' & Hb' & _).
  unfold healthy. rewrite Hc', Hm', Ha', Hl', Hb'.
  repeat split; trivial; try (eexists; reflexivity).
Qed.

Lemma healthy_init e a c : healthy c -> healthy (init e a c).
Proof.
  intros (_ & _ & _ & Hl & Hb). destruct c as [r p cb en m cu au rt buf av fx].
  unfold init. destruct p; cbn in *; repeat split; trivial; try (eexists; reflexivity).
Qed.

Lemma healthy_setEnabled b c : healthy c -> healthy (setEnabled b c).
Proof.
  intros H. unfold setEnabled. destruct b; cbn [enabled set_enabled].
  - destruct H as (Hm & Hc & _ & Hl & Hb). destruct c as [r p cb en m cu au rt buf av fx].
    cbn in *. repeat split; trivial; try (eexists; reflexivity).
  - apply healthy_setExposure. destruct c; exact H.
Qed.

Lemma healthy_setManualExposure v c : healthy c -> healthy (setManualExposure v c).
Proof.
  intros H. unfold setManualExposure.
  assert (H' : healthy (set_manualExposure (Some v) c)).
  { destruct H as (_ & Hc & Ha & Hl & Hb). destruct c. cbn in *.
    repeat split; trivial; try (eexists; reflexivity). }
  destruct (negb (enabled (set_manualExposure (Some v) c)));
    [apply healthy_setExposure |]; exact H'.
Qed.

Lemma healthy_resetLuminance c : healthy c -> healthy (resetLuminance c).
Proof.
  intros (Hm & Hc & _ & _ & Hb). destruct c as [r p cb en m cu au rt buf av fx].
  cbn in *. repeat split; trivial; try (eexists; reflexivity).
  exists target. split; [reflexivity |]. unfold target. split; qc_lra.
Qed.

Lemma healthy_applyStateSnapshot e a c : healthy c -> healthy (applyStateSnapshot e a c).
Proof.
  intros H. unfold applyStateSnapshot.
  match goal with |- context [setEnabled ?b ?c'] =>
    assert (H' : healthy (setEnabled b c'))
  end.
  { apply healthy_setEnabled. destruct H as (_ & Hc & _ & Hl & Hb). destruct c. cbn in *.
    repeat split; trivial; try (eexists; reflexivity). }
  match goal with |- healthy (if ?g then _ else _) => destruct g end;
    [apply healthy_setExposure |]; exact H'.
Qed.

Lemma healthy_dispose c : healthy c -> healthy (dispose c).
Proof.
  intros H. unfold dispose. destruct (luminanceRenderTarget c); [| exact H].
  destruct c. exact H.
Qed.

Lemma healthy_sample rb c :
  healthy c -> exists c', sampleSceneLuminance rb c = Normal c' /\ healthy c'.
Proof.
  intros (Hm & Hc & Ha & (L & HL & H0 & H1) & Hb).
  destruct (sampleSceneLuminance_spec rb c)
    as (c' & Hs & _ & Hav & Hbuf & _ & Hm' & Hc' & Ha' & _).
  exists c'. split; [exact Hs |]. unfold healthy. rewrite Hm', Hc', Ha'.
  repeat split; trivial.
  - rewrite Hav. destruct (luminanceRenderTarget c && renderer c); [destruct rb |].
    + eexists. split; [reflexivity |]. unfold blended. apply clamp_bounds. qc_lra.
    + exists L. repeat split; trivial.
    + exists L. repeat split; trivial.
  - rewrite Hbuf. destruct (luminanceRenderTarget c && renderer c), rb; trivial.
    rewrite write_pixels_length. exact Hb.
Qed.

Lemma healthy_applyAutoExposure Math_pow c :
  healthy c -> healthy (applyAutoExposure Math_pow c).
Proof.
  intros H. unfold applyAutoExposure. destruct (negb (enabled c)); [exact H |].
  apply healthy_setExposure. destruct H as (Hm & Hc & _ & Hl & Hb). destruct c. cbn in *.
  repeat split; trivial; try (eexists; reflexivity).
Qed.

Lemma healthy_perform Math_pow k c :
  healthy c -> exists c', perform Math_pow k c = Normal c' /\ healthy c'.
Proof.
  intros H. destruct k as [[e a | u rb | v | b |] | v | e a |]; cbn [perform step].
  - eexists; split; [reflexivity | apply healthy_init, H].
  - unfold update. destruct u; [eexists; split; [reflexivity | exact H] |].
    destruct (healthy_sample rb c H) as (cs & Hs & H'). rewrite Hs.
    eexists; split; [reflexivity | apply healthy_applyAutoExposure, H'].
  - eexists; split; [reflexivity | apply healthy_setManualExposure, H].
  - eexists; split; [reflexivity | apply healthy_setEnabled, H].
  - eexists; split; [reflexivity | apply healthy_resetLuminance, H].
  - eexists; split; [reflexivity | apply healthy_setExposure, H].
  - eexists; split; [reflexivity | apply healthy_applyStateSnapshot, H].
  - eexists; split; [reflexivity | apply healthy_dispose, H].
Qed.

(** X5: whatever public methods a host calls on a constructed controller,
    in whatever order, no call throws, the manual, current and automatic
    exposure and the smoothed luminance are never null (so no [??] fallback
    is ever taken), the smoothed luminance stays in [0, 1] and the readback
    buffer keeps its 256 bytes. *)
Theorem session_stays_healthy
    (Math_pow : num -> num -> num) (has_renderer : bool) (pass : option num)
    (callback : bool) (calls : list call) :
  exists c',
    perform_all Math_pow calls (new has_renderer pass callback) = Normal c'
    /\ healthy c'.
Proof.
  generalize (healthy_new has_renderer pass callback).
  generalize (new has_renderer pass callback).
  induction calls as [| k calls IH]; intros c H.
  - exists c. split; [reflexivity | exact H].
  - destruct (healthy_perform Math_pow k c H) as (c1 & Hp & H1).
    cbn [perform_all]. rewrite Hp. apply IH, H1.
Qed.


(** *** The exposure uniform *)

Lemma sync_setExposure v c : is_Some (exposurePass c) -> uniform_in_sync (setExposure v c).
Proof.
  intros [u Hu]. destruct (setExposure_spec v c) as (Hc & Hp & _).
  unfold uniform_in_sync. rewrite Hc, Hp, Hu. split; [eexists |]; reflexivity.
Qed.

Lemma sync_perform Math_pow k c :
  uniform_in_sync c ->
  exists c', perform Math_pow k c = Normal c' /\ uniform_in_sync c'.
Proof.
  intros [Hp Hs].
  assert (Hset : forall v c0, exposurePass c0 = exposurePass c ->
                              uniform_in_sync (setExposure v c0))
    by (intros v c0 E; apply sync_setExposure; rewrite E; exact Hp).
  destruct k as [[e a | u rb | v | b |] | v | e a |]; cbn [perform step].
  - eexists; split; [reflexivity |]. destruct Hp as [u Hu].
    destruct c as [r p cb en m cu au rt buf av fx]. cbn in Hu. subst p.
    split; [eexists |]; reflexivity.
  - unfold update. destruct u; [eexists; split; [reflexivity | split; trivial] |].
    destruct (sampleSceneLuminance_spec rb c)
      as (cs & Hsm & _ & _ & _ & _ & _ & Hcu & _ & Hpp & _).
    rewrite Hsm. eexists; split; [reflexivity |].
    unfold applyAutoExposure. destruct (negb (enabled cs)).
    + split; congruence.
    + apply Hset. destruct cs; exact Hpp.
  - eexists; split; [reflexivity |]. unfold setManualExposure.
    destruct (negb (enabled (set_manualExposure (Some v) c))).
    + apply Hset. destruct c; reflexivity.
    + destruct c; split; assumption.
  - eexists; split; [reflexivity |]. unfold setEnabled.
    destruct b; cbn [enabled set_enabled].
    + destruct c; split; assumption.
    + apply Hset. destruct c; reflexivity.
  - eexists; split; [reflexivity |]. destruct c; split; assumption.
  - eexists; split; [reflexivity |]. apply Hset. reflexivity.
  - eexists; split; [reflexivity |].
    destruct c as [r p cb en m cu au rt buf av fx]. cbn in Hp, Hs.
    destruct Hp as [u ->]. subst cu.
    unfold applyStateSnapshot, setEnabled, setExposure.
    destruct (a ?? false), cb; split; try (eexists; reflexivity); reflexivity.
  - eexists; split; [reflexivity |]. unfold dispose.
    destruct (luminanceRenderTarget c); destruct c; split; assumption.
Qed.

(** X6: once initialised, a controller that was given an exposure pass keeps
    the pass's [exposure] uniform equal to [currentExposure] through every
    sequence of public calls. *)
Theorem uniform_follows_exposure
    (Math_pow : num -> num -> num) (has_renderer callback : bool) (u0 : num)
    (exposure : option num) (autoExposure : option bool) (calls : list call) :
  exists c',
    perform_all Math_pow (Call (Init exposure autoExposure) :: calls)
      (new has_renderer (Some u0) callback) = Normal c'
    /\ is_Some (currentExposure c')
    /\ exposurePass c' = currentExposure c'.
Proof.
  cbn [perform_all perform step].
  assert (H : uniform_in_sync (init exposure autoExposure (new has_renderer (Some u0) callback)))
    by (split; [eexists |]; reflexivity).
  revert H. generalize (init exposure autoExposure (new has_renderer (Some u0) callback)).
  induction calls as [| k calls IH]; intros c H.
  - exists c. split; [reflexivity |]. destruct H as [Hp Hs]. rewrite <- Hs. split; trivial.
  - destruct (sync_perform Math_pow k c H) as (c1 & Hp & H1).
    cbn [perform_all]. rewrite Hp. apply IH, H1.
Qed.

(** *** Brighter scene, lower target *)

Lemma clamp_monotone (x y lo hi : num) : x <= y -> clamp x lo hi <= clamp y lo hi.
Proof. intros H. case_minmax; qc_lra. Qed.


Lemma pow_square_monotone (x y : num) :
  0 <= x -> x <= y -> y <= 1 ->
  0 <= pow_square x (lit 1.8) /\ pow_square x (lit 1.8) <= pow_square y (lit 1.8)
  /\ pow_square y (lit 1.8) <= 1.
Proof. intros H0 H1 H2. unfold pow_square. repeat split; qc_nra. Qed.



(** *** After teardown, and loading a snapshot *)

(** X8: [dispose()] is idempotent, and on a disposed controller (as on one
    built without a renderer) a lit [update] makes no renderer call at all:
    it leaves the smoothed luminance and the buffer alone and only runs the
    exposure step, whose sole effect is the exposure callback. *)
Theorem disposed_controller_stops_sampling
    (Math_pow : num -> num -> num) (c : controller) (rb : readback) :
  dispose (dispose c) = dispose c
  /\ luminanceRenderTarget (dispose c) = false
  /\ (forall d, luminanceRenderTarget d = false \/ renderer d = false ->
        update Math_pow false rb d = Normal (applyAutoExposure Math_pow d)
        /\ averageLuminance (applyAutoExposure Math_pow d) = averageLuminance d
        /\ luminanceBuffer (applyAutoExposure Math_pow d) = luminanceBuffer d
        /\ exists tail,
             effects (applyAutoExposure Math_pow d) = effects d ++ tail
             /\ forall e, In e tail -> exists v, e = OnExposureChange v).
Proof.
  split; [destruct c as [r p cb en m cu au [] buf av fx]; reflexivity |].
  split; [destruct c as [r p cb en m cu au [] buf av fx]; reflexivity |].
  intros d Hd.
  assert (Hs : sampleSceneLuminance rb d = Normal d).
  { unfold sampleSceneLuminance. destruct Hd as [-> | ->]; [reflexivity |].
    rewrite orb_true_r. reflexivity. }
  split; [unfold update; rewrite Hs; reflexivity |].
  assert (Hkeep : averageLuminance (applyAutoExposure Math_pow d) = averageLuminance d
                  /\ luminanceBuffer (applyAutoExposure Math_pow d) = luminanceBuffer d).
  { unfold applyAutoExposure. destruct (negb (enabled d)); [split; reflexivity |].
    match goal with |- context [setExposure ?v ?c'] =>
      destruct (setExposure_spec v c') as (_ & _ & _ & _ & _ & _ & Hav & Hb & _);
      rewrite Hav, Hb
    end.
    destruct d; split; reflexivity. }
  split; [apply Hkeep |]. split; [apply Hkeep |].
  destruct (applyAutoExposure_effects Math_pow d) as (tail & Ht & _ & Honly).
  exists tail. split; trivial.
Qed.

Lemma disposed_controller_stops_sampling_witness :
  update pow_square false (PixelsRead white_frame) (dispose fresh_auto)
  = Normal (applyAutoExposure pow_square (dispose fresh_auto)).
Proof.
  destruct (disposed_controller_stops_sampling pow_square fresh_auto
              (PixelsRead white_frame)) as (_ & Hd & H).
  apply (H (dispose fresh_auto)). left. exact Hd.
Defined.

(** X9: [applyStateSnapshot(state)] always installs [state.exposure ?? 1.0]
    as the manual exposure.  With auto-exposure off in the snapshot it also
    becomes the current and the automatic exposure and the uniform, and the
    callback hears it twice.  With auto-exposure on, the picture keeps the
    exposure it had: the automatic value restarts from the current exposure,
    not from the snapshot's, and nothing is notified. *)
Theorem applyStateSnapshot_outcome
    (exposure : option num) (autoExposure : option bool) (c : controller) :
  let m := exposure ?? lit 1.0 in
  let c' := applyStateSnapshot exposure autoExposure c in
  manualExposure c' = Some m
  /\ enabled c' = autoExposure ?? false
  /\ averageLuminance c' = averageLuminance c
  /\ (if autoExposure ?? false then
        currentExposure c' = currentExposure c
        /\ exposurePass c' = exposurePass c
        /\ autoExposureValue c' = Some (currentExposure c ?? m)
        /\ effects c' = effects c
      else
        currentExposure c' = Some m
        /\ autoExposureValue c' = Some m
        /\ exposurePass c' = (fun _ => m) <$> exposurePass c
        /\ effects c'
           = effects c ++ (if onExposureChange c
                           then [OnExposureChange m; OnExposureChange m] else [])).
Proof.
  destruct c as [r p cb en mo cu au rt buf av fx].
  unfold applyStateSnapshot, setEnabled, setExposure.
  destruct (autoExposure ?? false), cb, p, cu; cbn;
    rewrite <- ?app_assoc, ?app_nil_r; repeat split; reflexivity.
Qed.

End AutoExposureFrameProps.

(** ** LightsController: dimming, rotation and indicators *)

Module LightsDimmingProps.
Import LightsController LightsDimming RotationSpec.

Section Rig.
Variable Math_cos Math_sin : num -> num.
Variable DEG2RAD : num.
Variable Vector3_normalize : Vector3 -> Vector3.
Variable setFromUnitVectors : Vector3 -> Vector3 -> Quaternion.

Local Abbreviation setRotation :=
  (LightsController.setRotation Math_cos Math_sin DEG2RAD Vector3_normalize
     setFromUnitVectors).
Local Abbreviation updateIndicators :=
  (LightsController.updateIndicators Vector3_normalize setFromUnitVectors).
Local Abbreviation refreshed := (refreshed Vector3_normalize setFromUnitVectors).
Local Abbreviation applySettings := (applySettings Vector3_normalize setFromUnitVectors).
Local Abbreviation setEnabled := (setEnabled Vector3_normalize setFromUnitVectors).
Local Abbreviation setMaster := (setMaster Vector3_normalize setFromUnitVectors).
Local Abbreviation updateLightProperty :=
  (updateLightProperty Vector3_normalize setFromUnitVectors).
Local Abbreviation rig_run :=
  (rig_run Vector3_normalize setFromUnitVectors Math_cos Math_sin DEG2RAD).
Local Abbreviation rig_step :=
  (rig_step Vector3_normalize setFromUnitVectors Math_cos Math_sin DEG2RAD).

(** [updateIndicators] and [setRotation] in closed form. *)
Lemma updateIndicators_closed (c : controller) :
  updateIndicators c
  = set_lightIndicators (refreshed (lights c) (modelBounds c) (lightIndicators c)) c.
Proof.
  unfold LightsController.updateIndicators, LightsDimming.refreshed.
  destruct c as [en ma ro sp [bd |] sh [g |] lg bp]; reflexivity.
Qed.

Lemma setRotation_closed (v : num) (c : controller) :
  snd (setRotation v c)
  = match basePositions c with
    | Some b =>
        let r := turned b (Math_cos (degToRad DEG2RAD (normalize v)))
                   (Math_sin (degToRad DEG2RAD (normalize v))) (lights c) in
        Controller (lightsEnabled c) (lightsMaster c) (normalize v) (autoRotateSpeed c)
          (modelBounds c) (showIndicators c)
          (refreshed r (modelBounds c) (lightIndicators c)) r (basePositions c)
    | None => set_rotation (normalize v) c
    end.
Proof.
  unfold LightsController.setRotation.
  destruct c as [en ma ro sp mb sh li lg [b |]];
    cbn [basePositions set_rotation snd]; [| reflexivity].
  rewrite updateIndicators_closed. reflexivity.
Qed.

Lemma refreshed_twice r r' b g : refreshed r b (refreshed r' b g) = refreshed r b g.
Proof.
  unfold LightsDimming.refreshed. destruct g as [g |], b as [bd |]; try reflexivity.
  rewrite map_map. reflexivity.
Qed.

Lemma turned_over b cs sn cs' sn' r :
  turned b cs sn (turned b cs' sn' r) = turned b cs sn r.
Proof. destruct r as [[] [] [] ?]. reflexivity. Qed.

(** X10: the rig's rotation is absolute: after any earlier rotation, rotating
    to [a] gives the state that rotating to [a] directly gives; angles never
    accumulate. *)
Theorem rig_rotation_is_absolute (a b : num) (c : controller) :
  snd (setRotation a (snd (setRotation b c))) = snd (setRotation a c).
Proof.
  rewrite !setRotation_closed.
  destruct c as [en ma ro sp mb sh li lg [bs |]];
    cbn [basePositions set_rotation lights modelBounds lightIndicators lightsEnabled
         lightsMaster autoRotateSpeed showIndicators]; [| reflexivity].
  cbv zeta. rewrite turned_over, refreshed_twice. reflexivity.
Qed.


(** *** Dimming *)

Lemma applySettings_closed (st : list (string * lightConfig)) (c : controller) :
  applySettings st c
  = let r := fold_left (apply_entry (lightsEnabled c) (lightsMaster c)) st (lights c) in
    Controller (lightsEnabled c) (lightsMaster c) (rotation c) (autoRotateSpeed c)
      (modelBounds c) (showIndicators c)
      (refreshed r (modelBounds c) (lightIndicators c)) r (basePositions c).
Proof.
  unfold LightsDimming.applySettings. rewrite updateIndicators_closed.
  destruct c; reflexivity.
Qed.

Lemma apply_entry_intensity en m r e n :
  intensity (lookup_light n (apply_entry en m r e))
  = (if bool_decide (light_named (fst e) = Some n)
     then dimmed en m (cfg_intensity (snd e)) (lookup_light n r)
     else intensity (lookup_light n r))
  /\ isAmbientLight (lookup_light n (apply_entry en m r e))
     = isAmbientLight (lookup_light n r)
  /\ position (lookup_light n (apply_entry en m r e)) = position (lookup_light n r).
Proof.
  unfold apply_entry. destruct (light_named (fst e)) as [n' |];
    [| rewrite bool_decide_eq_false_2 by discriminate; repeat split; reflexivity].
  destruct (truthy_color (cfg_color (snd e)));
    destruct n, n';
    rewrite ?(bool_decide_eq_true_2 _ eq_refl);
    rewrite ?bool_decide_eq_false_2 by discriminate;
    destruct r as [[] [] [] []]; repeat split; reflexivity.
Qed.

Lemma fold_apply_entry_off m st : forall r,
  dark r -> dark (fold_left (apply_entry false m) st r).
Proof.
  induction st as [| e st IH]; intros r Hr; [exact Hr |].
  cbn [fold_left]. apply IH. intros n.
  destruct (apply_entry_intensity false m r e n) as (Hi & _).
  rewrite Hi. case_bool_decide; [reflexivity | apply Hr].
Qed.

Lemma dark_all_off (r : rig) :
  dark (fold_left (fun r n => store_light n (with_intensity 0 (lookup_light n r)) r)
          [key_name; fill_name; rim_name; ambient_name] r).
Proof. intros []; destruct r as [[] [] [] []]; reflexivity. Qed.

Lemma turned_intensity b cs sn r n :
  intensity (lookup_light n (turned b cs sn r)) = intensity (lookup_light n r).
Proof. destruct n, r as [[] [] [] []]; reflexivity. Qed.

(** What a call does to the switch and to the lights. *)
Lemma rig_step_dark (k : rig_call) (c : controller) :
  (lightsEnabled c = false -> dark (lights c)) ->
  lightsEnabled (rig_step k c) = false -> dark (lights (rig_step k c)).
Proof.
  intros Hinv. destruct k as [st | b st | v st | id p | v | b | b]; cbn [LightsDimming.rig_step].
  - rewrite applySettings_closed. cbn [lightsEnabled lights]. intros E.
    rewrite E. apply fold_apply_entry_off, Hinv, E.
  - unfold LightsDimming.setEnabled. destruct b; cbn [lightsEnabled set_lightsEnabled].
    + rewrite applySettings_closed. cbn [lightsEnabled set_lightsEnabled]. discriminate.
    + intros _. destruct c; apply dark_all_off.
  - unfold LightsDimming.setMaster. rewrite updateIndicators_closed.
    cbn [lightsEnabled set_lightIndicators lights].
    destruct (lightsEnabled (set_lightsMaster (v ?? 1) c)) eqn:E.
    + rewrite applySettings_closed. cbn [lightsEnabled]. rewrite E. discriminate.
    + intros _. destruct c. apply Hinv, E.
  - unfold LightsDimming.updateLightProperty. destruct (light_named id) as [n |]; [| exact Hinv].
    rewrite updateIndicators_closed. cbn [lightsEnabled set_lightIndicators lights].
    destruct p as [col | val | other].
    + destruct c as [en ma ro sp mb sh li lg bp]. cbn. intros ->.
      specialize (Hinv eq_refl). cbn in Hinv. intros n'. specialize (Hinv n').
      revert Hinv. destruct n, n', lg as [[] [] [] []]; cbn; trivial.
    + destruct c as [en ma ro sp mb sh li lg bp]. cbn. intros ->.
      specialize (Hinv eq_refl). cbn in Hinv. intros n'. specialize (Hinv n').
      revert Hinv. destruct n, n', lg as [[] [] [] []]; cbn; trivial.
    + exact Hinv.
  - rewrite setRotation_closed. destruct (basePositions c);
      [| destruct c; exact Hinv].
    cbn [lightsEnabled lights]. intros E n. rewrite turned_intensity. apply Hinv, E.
  - unfold setModelBounds, createIndicators, clearIndicators.
    rewrite ?updateIndicators_closed.
    destruct c as [en ma ro sp mb sh [li |] lg [bp |]], sh, b; exact Hinv.
  - unfold setIndicatorsVisible, createIndicators, clearIndicators.
    rewrite ?updateIndicators_closed.
    destruct c as [en ma ro sp [mb |] sh [li |] lg [bp |]], b; exact Hinv.
Qed.

(** X12: once [setEnabled(false)] has switched the rig off, every light,
    ambient included, has intensity 0 and keeps it through any calls of
    [applySettings], [setMaster], [updateLightProperty], [setRotation] and
    the indicator methods, for as long as the rig stays disabled. *)
Theorem rig_stays_dark_while_disabled
    (st : list (string * lightConfig)) (calls : list rig_call) (c : controller) :
  let c' := rig_run calls (setEnabled false st c) in
  dark (lights (setEnabled false st c))
  /\ (lightsEnabled c' = false -> dark (lights c')).
Proof.
  assert (H0 : dark (lights (setEnabled false st c)))
    by (unfold LightsDimming.setEnabled; cbn [lightsEnabled set_lightsEnabled];
        destruct c; apply dark_all_off).
  split; [exact H0 |].
  assert (H : lightsEnabled (setEnabled false st c) = false
              -> dark (lights (setEnabled false st c))) by (intros _; exact H0).
  revert H. generalize (setEnabled false st c).
  induction calls as [| k calls IH]; intros d H; [exact H |].
  cbn [LightsDimming.rig_run fold_left]. apply IH. apply rig_step_dark, H.
Qed.

Lemma dimmed_ext en m v l l' :
  isAmbientLight l = isAmbientLight l' -> dimmed en m v l = dimmed en m v l'.
Proof. unfold dimmed. intros ->. reflexivity. Qed.

Lemma fold_apply_entry_intensity en m n st : forall r,
  intensity (lookup_light n (fold_left (apply_entry en m) st r))
  = match last_config n st with
    | Some cfg => dimmed en m (cfg_intensity cfg) (lookup_light n r)
    | None => intensity (lookup_light n r)
    end.
Proof.
  induction st as [| e st IH]; intros r; [reflexivity |].
  cbn [fold_left last_config]. rewrite IH.
  destruct (apply_entry_intensity en m r e n) as (Hi & Ha & _).
  destruct (last_config n st) as [cfg |].
  - apply dimmed_ext, Ha.
  - rewrite Hi. case_bool_decide; reflexivity.
Qed.

(** X13: on an enabled rig [setMaster(m, lightsState)] gives every light
    that [lightsState] names the intensity
    [configured * multiplier * m], with multiplier 4 for the ambient light
    and 2 for a directional one, so intensities are proportional to the
    master value; a light the state does not name keeps its intensity, and
    keys that name no light are ignored. *)
Theorem master_dims_configured_lights
    (m : num) (st : list (string * lightConfig)) (c : controller) (n : lightName) :
  lightsEnabled c = true ->
  lightsMaster (setMaster (Some m) st c) = m
  /\ intensity (lookup_light n (lights (setMaster (Some m) st c)))
     = match last_config n st with
       | Some cfg =>
           (cfg_intensity cfg ?? 0)
           * (if isAmbientLight (lookup_light n (lights c)) then lit 4 else lit 2) * m
       | None => intensity (lookup_light n (lights c))
       end.
Proof.
  intros He. unfold LightsDimming.setMaster. rewrite updateIndicators_closed.
  assert (E : lightsEnabled (set_lightsMaster (Some m ?? 1) c) = true)
    by (destruct c; exact He).
  rewrite E, applySettings_closed.
  cbn [lightsMaster lights set_lightIndicators lightsEnabled]. rewrite E.
  split; [destruct c; reflexivity |].
  rewrite fold_apply_entry_intensity. unfold dimmed.
  destruct c; reflexivity.
Qed.

(** *** Rotation and dimming are independent *)

Lemma apply_entry_turned en m b cs sn e r :
  apply_entry en m (turned b cs sn r) e = turned b cs sn (apply_entry en m r e).
Proof.
  unfold apply_entry. destruct (light_named (fst e)) as [n |]; [| reflexivity].
  destruct (truthy_color (cfg_color (snd e))); destruct n, r as [[] [] [] []]; reflexivity.
Qed.

Lemma fold_apply_entry_turned en m b cs sn st : forall r,
  fold_left (apply_entry en m) st (turned b cs sn r)
  = turned b cs sn (fold_left (apply_entry en m) st r).
Proof.
  induction st as [| e st IH]; intros r; [reflexivity |].
  cbn [fold_left]. rewrite apply_entry_turned. apply IH.
Qed.

(** X14: turning the rig and applying light settings commute: either order
    ends in the same lights, rotation and indicators. *)
Theorem rotation_commutes_with_settings
    (v : num) (st : list (string * lightConfig)) (c : controller) :
  applySettings st (snd (setRotation v c)) = snd (setRotation v (applySettings st c)).
Proof.
  rewrite !setRotation_closed, !applySettings_closed.
  destruct c as [en ma ro sp mb sh li lg [b |]];
    cbn [basePositions set_rotation lights modelBounds lightIndicators lightsEnabled
         lightsMaster autoRotateSpeed showIndicators rotation]; cbv zeta.
  - rewrite fold_apply_entry_turned, !refreshed_twice. reflexivity.
  - reflexivity.
Qed.

(** *** Indicators *)

(** X15: indicators exist only with model bounds.  Asking for them without
    bounds builds nothing (the wish is remembered and honoured by the next
    [setModelBounds]); with bounds they are the three cones of key, fill and
    rim, in that order, each in the colour of its light; hiding them or
    withdrawing the bounds removes them all. *)
Theorem indicators_need_bounds (c : controller) (b : bounds) (bs : bases) :
  basePositions c = Some bs ->
  let show := setIndicatorsVisible Vector3_normalize setFromUnitVectors true in
  let hide := setIndicatorsVisible Vector3_normalize setFromUnitVectors false in
  let bound := setModelBounds Vector3_normalize setFromUnitVectors in
  (modelBounds c = None -> lightIndicators (show c) = None)
  /\ lightIndicators (hide c) = None
  /\ lightIndicators (bound None (show c)) = None
  /\ (exists group,
        lightIndicators (bound (Some b) (show c)) = Some group
        /\ map lightId_of group = [key; fill; rim]
        /\ map ind_color group
           = map (fun id => color (light_of id (lights c))) [key; fill; rim])
  /\ lights (bound (Some b) (show c)) = lights c.
Proof.
  intros Hb show hide bound.
  destruct c as [en ma ro sp mb sh li lg bp]. cbn in Hb. subst bp.
  unfold show, hide, bound, setIndicatorsVisible, setModelBounds, createIndicators,
    clearIndicators.
  split; [intros E; cbn in E; subst mb; destruct li; reflexivity |].
  split; [destruct li; reflexivity |].
  split; [destruct li, mb; reflexivity |].
  split; [| destruct li, mb; reflexivity].
  destruct li, mb; eexists; (split; [reflexivity |]); split; reflexivity.
Qed.

End Rig.

Lemma master_dims_configured_lights_witness :
  intensity (ambient_light (lights (setMaster taxicab_normalize identity_rotation
                                      (Some (lit 0.5)) two_lights_state studio_rig)))
  = lit 0.5 * lit 4 * lit 0.5.
Proof.
  destruct (master_dims_configured_lights taxicab_normalize identity_rotation
              (lit 0.5) two_lights_state studio_rig ambient_name eq_refl) as [_ H].
  exact H.
Defined.

Lemma indicators_need_bounds_witness :
  lightIndicators (setIndicatorsVisible taxicab_normalize identity_rotation true studio_rig)
  = None.
Proof.
  destruct (indicators_need_bounds taxicab_normalize identity_rotation studio_rig
              (Bounds (Vec 0 0 0) 1) _ eq_refl) as [H _].
  apply H. reflexivity.
Defined.

End LightsDimmingProps.

(** ** EnvironmentController: resources and the scene over a session *)

Module EnvironmentSessionProps.
Import Num EnvironmentController EnvironmentSession NumProps RemProps EnvironmentProps.

Lemma gpu_footprint_refl c : gpu_footprint c c.
Proof. unfold gpu_footprint. repeat split; auto. Qed.

Lemma gpu_footprint_trans c1 c2 c3 :
  gpu_footprint c1 c2 -> gpu_footprint c2 c3 -> gpu_footprint c1 c3.
Proof.
  intros (Hp & Hn & Hd & Ho & He & Hr & Hne & Hnr)
         (Hp' & Hn' & Hd' & Ho' & He' & Hr' & Hne' & Hnr').
  unfold gpu_footprint. split; [congruence |]. split; [lia |]. split; [set_solver |].
  split.
  { intros r Hin. destruct (Ho' r Hin) as [H | [H | [H | [H | H]]]].
    - destruct (Ho r H) as [? | [? | [? | [? | ?]]]]; auto. do 4 right; lia.
    - destruct (environmentRenderTarget c2) as [rt |] eqn:E; [| discriminate].
      cbn in H. injection H as ->.
      destruct (Hne rt eq_refl) as [E1 | ?]; [| do 4 right; lia].
      right; left. rewrite E1. reflexivity.
    - destruct (rotationRenderTarget c2) as [rt |] eqn:E; [| discriminate].
      cbn in H. injection H as ->.
      destruct (Hnr rt eq_refl) as [E1 | ?]; [| do 4 right; lia].
      right; right; left. rewrite E1. reflexivity.
    - rewrite Hp in H. auto.
    - do 4 right; lia. }
  split; [intros rt E; destruct (He rt E) as [E' | ?]; [apply He', E' | right; set_solver] |].
  split; [intros rt E; destruct (Hr rt E) as [E' | ?]; [apply Hr', E' | right; set_solver] |].
  split.
  - intros rt E. destruct (Hne' rt E) as [E' | ?]; [| right; lia].
    destruct (Hne rt E') as [? | ?]; [auto | right; lia].
  - intros rt E. destruct (Hnr' rt E) as [E' | ?]; [| right; lia].
    destruct (Hnr rt E') as [? | ?]; [auto | right; lia].
Qed.

Lemma derives_refl c : derives c c.
Proof. split; [reflexivity | apply gpu_footprint_refl]. Qed.

Lemma derives_trans c1 c2 c3 : derives c1 c2 -> derives c2 c3 -> derives c1 c3.
Proof.
  intros [S1 F1] [S2 F2]. split; [congruence | eapply gpu_footprint_trans; eassumption].
Qed.


(** Steps that touch neither the settings nor the GPU bookkeeping. *)
Lemma derives_same c c' :
  settings c' = settings c -> next_id c' = next_id c -> disposed c' = disposed c ->
  environmentRenderTarget c' = environmentRenderTarget c ->
  rotationRenderTarget c' = rotationRenderTarget c ->
  derives c c'.
Proof.
  intros Hs Hn Hd He Hr. split; [exact Hs |]. unfold gpu_footprint.
  rewrite Hn, Hd, He, Hr. split; [| repeat split; auto].
  unfold settings in Hs. congruence.
Qed.

Lemma derives_set_scene sc c : derives c (set_scene sc c).
Proof. apply derives_same; destruct c; reflexivity. Qed.

Lemma derives_emit e c : derives c (emit e c).
Proof. apply derives_same; destruct c; reflexivity. Qed.

Lemma derives_clear c : derives c (clear_to_fallback c).
Proof. apply derives_same; destruct c; reflexivity. Qed.

Lemma derives_notify t i c : derives c (_notifyEnvironmentMapUpdated t i c).
Proof.
  unfold _notifyEnvironmentMapUpdated. destruct (onEnvironmentMapUpdated c);
    [apply derives_emit | apply derives_refl].
Qed.

Lemma derives_release_environment_target c :
  derives c (release_environment_target c).
Proof.
  unfold release_environment_target. destruct (environmentRenderTarget c) as [rt |] eqn:E; [| apply derives_refl].
  destruct c as [pr mo cb en bg st bl ro fc pg ca cp ct ert rrt sc cc ni d fx].
  cbn in E. subst ert. split; [reflexivity |].
  unfold gpu_footprint, target_id. cbn.
  split; [reflexivity |]. split; [lia |]. split; [set_solver |].
  split; [intros r; rewrite elem_of_union, elem_of_singleton; intros [-> | ?]; auto |].
  split; [intros rt' [= <-]; right; set_solver |].
  split; [auto |]. split; [discriminate | auto].
Qed.

Lemma derives_release_rotation_target c :
  derives c (release_rotation_target c).
Proof.
  unfold release_rotation_target. destruct (rotationRenderTarget c) as [rt |] eqn:E; [| apply derives_refl].
  destruct c as [pr mo cb en bg st bl ro fc pg ca cp ct ert rrt sc cc ni d fx].
  cbn in E. subst rrt. split; [reflexivity |].
  unfold gpu_footprint, target_id. cbn.
  split; [reflexivity |]. split; [lia |]. split; [set_solver |].
  split; [intros r; rewrite elem_of_union, elem_of_singleton; intros [-> | ?]; auto |].
  split; [auto |].
  split; [intros rt' [= <-]; right; set_solver |].
  split; [auto | discriminate].
Qed.


Lemma release_environment_target_none c :
  environmentRenderTarget (release_environment_target c) = None.
Proof.
  unfold release_environment_target.
  destruct (environmentRenderTarget c) eqn:E; [destruct c; reflexivity | exact E].
Qed.

Lemma release_rotation_target_none c :
  rotationRenderTarget (release_rotation_target c) = None.
Proof.
  unfold release_rotation_target.
  destruct (rotationRenderTarget c) eqn:E; [destruct c; reflexivity | exact E].
Qed.

(** [_createRotatedTexture] either gives up on a texture whose size it
    cannot find, or allocates the target, the material and the quad,
    renders, and disposes the material and the quad. *)
Lemma createRotatedTexture_cases src deg c :
  (_createRotatedTexture src deg c
   = (src, emit (ConsoleWarn "Could not detect HDRI texture dimensions, skipping rotation")
             (release_rotation_target c)))
  \/ exists t, tex_id t = next_id c /\
       _createRotatedTexture src deg c
       = (t, set_rotationRenderTarget (Some (RenderTarget (next_id c) t))
               (gpu_dispose (S (next_id c)) (gpu_dispose (S (S (next_id c)))
                  (emit (RenderQuad (next_id c) (tex_id src) (rem (deg / lit 360) (lit 1.0)))
                     (set_next_id (S (S (S (next_id c)))) (release_rotation_target c)))))).
Proof.
  unfold _createRotatedTexture, alloc, release_rotation_target. cbv beta iota zeta.
  match goal with |- context [if negb (truthy_nat (fst ?w)) then _ else _] =>
    generalize w; intros wh end.
  destruct (negb (truthy_nat (fst wh))); [left; reflexivity |].
  right. destruct c as [pr mo cb en bg st bl ro fc pg ca cp ct ert [rrt |] sc cc ni d fx];
    cbn; (eexists; split; [| reflexivity]; reflexivity).
Qed.

Lemma derives_new_rotation_target c t e :
  rotationRenderTarget c = None ->
  derives c (set_rotationRenderTarget (Some (RenderTarget (next_id c) t))
               (gpu_dispose (S (next_id c)) (gpu_dispose (S (S (next_id c)))
                  (emit e (set_next_id (S (S (S (next_id c)))) c))))).
Proof.
  destruct c as [pr mo cb en bg st bl ro fc pg ca cp ct ert rrt sc cc ni d fx].
  cbn. intros ->. split; [reflexivity |].
  unfold gpu_footprint, target_id. cbn.
  split; [reflexivity |]. split; [lia |]. split; [set_solver |].
  split; [intros r; rewrite !elem_of_union, !elem_of_singleton;
          intros [-> | [-> | ?]]; [do 4 right; lia .. | auto] |].
  split; [auto |]. split; [discriminate |]. split; [auto |].
  intros rt [= <-]. right. cbn. lia.
Qed.

Lemma derives_new_environment_target c t :
  environmentRenderTarget c = None ->
  derives c (set_environmentRenderTarget (Some (RenderTarget (next_id c) t))
               (set_next_id (S (next_id c)) c)).
Proof.
  destruct c as [pr mo cb en bg st bl ro fc pg ca cp ct ert rrt sc cc ni d fx].
  cbn. intros ->. split; [reflexivity |].
  unfold gpu_footprint, target_id. cbn.
  split; [reflexivity |]. split; [lia |]. split; [set_solver |].
  split; [auto |]. split; [discriminate |]. split; [auto |].
  split; [| auto]. intros rt [= <-]. right. cbn. lia.
Qed.


(** *** Well-formedness through the primitive steps *)

Lemma well_formed_same c c' :
  next_id c' = next_id c -> disposed c' = disposed c ->
  environmentRenderTarget c' = environmentRenderTarget c ->
  rotationRenderTarget c' = rotationRenderTarget c ->
  pmremGenerator c' = pmremGenerator c ->
  cache c' = cache c -> currentEnvironmentTexture c' = currentEnvironmentTexture c ->
  well_formed c -> well_formed c'.
Proof.
  unfold well_formed, live_target, held_texture.
  intros -> -> -> -> -> -> ->. auto.
Qed.

Lemma well_formed_release_environment_target c :
  well_formed c -> well_formed (release_environment_target c).
Proof.
  unfold release_environment_target.
  destruct (environmentRenderTarget c) as [rt |] eqn:E; [| auto].
  destruct c as [pr mo cb en bg st bl ro fc pg ca cp ct ert rrt sc cc ni d fx].
  cbn in E. subst ert.
  unfold well_formed, live_target, held_texture. cbn.
  intros (Hd & Hh & He & Hr & Hne & Hg).
  destruct (He rt eq_refl) as (_ & Hlt & Hnd & Hnh).
  split. { intros r. rewrite elem_of_union, elem_of_singleton. intros [-> | ?]; auto. }
  split. { intros r H. split; [apply Hh, H |].
           rewrite elem_of_union, elem_of_singleton. intros [-> | ?]; [auto |].
           apply (Hh r H); assumption. }
  split; [discriminate |].
  split. { intros rr ->. destruct (Hr rr eq_refl) as (? & ? & ? & ?).
           split; [assumption |]. split; [assumption |]. split; [| assumption].
           rewrite elem_of_union, elem_of_singleton.
           intros [Heq | ?]; [| auto]. apply (Hne rt rr eq_refl eq_refl). auto. }
  split; [discriminate | exact Hg].
Qed.

Lemma well_formed_release_rotation_target c :
  well_formed c -> well_formed (release_rotation_target c).
Proof.
  unfold release_rotation_target.
  destruct (rotationRenderTarget c) as [rt |] eqn:E; [| auto].
  destruct c as [pr mo cb en bg st bl ro fc pg ca cp ct ert rrt sc cc ni d fx].
  cbn in E. subst rrt.
  unfold well_formed, live_target, held_texture. cbn.
  intros (Hd & Hh & He & Hr & Hne & Hg).
  destruct (Hr rt eq_refl) as (_ & Hlt & Hnd & Hnh).
  split. { intros r. rewrite elem_of_union, elem_of_singleton. intros [-> | ?]; auto. }
  split. { intros r H. split; [apply Hh, H |].
           rewrite elem_of_union, elem_of_singleton. intros [-> | ?]; [auto |].
           apply (Hh r H); assumption. }
  split. { intros re ->. destruct (He re eq_refl) as (? & ? & ? & ?).
           split; [assumption |]. split; [assumption |]. split; [| assumption].
           rewrite elem_of_union, elem_of_singleton.
           intros [Heq | ?]; [| auto]. apply (Hne re rt eq_refl eq_refl). auto. }
  split; [discriminate |].
  split; [discriminate | exact Hg].
Qed.

Lemma well_formed_new_rotation_target c t e :
  tex_id t = next_id c -> rotationRenderTarget c = None ->
  well_formed c ->
  well_formed (set_rotationRenderTarget (Some (RenderTarget (next_id c) t))
                 (gpu_dispose (S (next_id c)) (gpu_dispose (S (S (next_id c)))
                    (emit e (set_next_id (S (S (S (next_id c)))) c))))).
Proof.
  destruct c as [pr mo cb en bg st bl ro fc pg ca cp ct ert rrt sc cc ni d fx].
  unfold well_formed, live_target, held_texture. cbn.
  intros Ht -> (Hd & Hh & He & _ & _ & (g & Hg & Hgl & Hgh)).
  split. { intros r. rewrite !elem_of_union, !elem_of_singleton.
           intros [-> | [-> | H]]; [lia | lia | apply Hd in H; lia]. }
  split. { intros r H. destruct (Hh r H) as [Hlt Hnd]. split; [lia |].
           rewrite !elem_of_union, !elem_of_singleton. intros [-> | [-> | ?]]; [lia | lia | auto]. }
  split. { intros re ->. destruct (He re eq_refl) as (? & ? & ? & ?).
           split; [assumption |]. split; [lia |]. split; [| assumption].
           rewrite !elem_of_union, !elem_of_singleton. intros [? | [? | ?]]; [lia | lia | auto]. }
  split. { intros rr [= <-]. cbn. split; [exact Ht |]. split; [lia |].
           split. { rewrite !elem_of_union, !elem_of_singleton.
                    intros [? | [? | H]]; [lia | lia | apply Hd in H; lia]. }
           intros H. apply Hh in H. lia. }
  split. { intros re rr -> [= <-]. cbn. destruct (He re eq_refl) as (? & ? & ? & ?). lia. }
  exists g. split; [assumption |]. split; [lia | assumption].
Qed.

Lemma well_formed_new_environment_target c t :
  tex_id t = next_id c ->
  well_formed c ->
  well_formed (set_environmentRenderTarget (Some (RenderTarget (next_id c) t))
                 (set_next_id (S (next_id c)) c)).
Proof.
  destruct c as [pr mo cb en bg st bl ro fc pg ca cp ct ert rrt sc cc ni d fx].
  unfold well_formed, live_target, held_texture. cbn.
  intros Ht (Hd & Hh & _ & Hr & _ & (g & Hg & Hgl & Hgh)).
  split. { intros r H. apply Hd in H. lia. }
  split. { intros r H. destruct (Hh r H) as [Hlt Hnd]. split; [lia | auto]. }
  split. { intros re [= <-]. cbn. split; [exact Ht |]. split; [lia |].
           split; [intros H; apply Hd in H; lia | intros H; apply Hh in H; lia]. }
  split. { intros rr ->. destruct (Hr rr eq_refl) as (? & ? & ? & ?).
           split; [assumption |]. split; [lia |]. split; assumption. }
  split. { intros re rr [= <-] ->. cbn. destruct (Hr rr eq_refl) as (? & ? & ? & ?). lia. }
  exists g. split; [assumption |]. split; [lia | assumption].
Qed.


Lemma settings_eq c c' :
  settings c' = settings c ->
  enabled c' = enabled c /\ backgroundEnabled c' = backgroundEnabled c
  /\ strength c' = strength c /\ blurriness c' = blurriness c
  /\ rotation c' = rotation c /\ fallbackColor c' = fallbackColor c
  /\ pmremGenerator c' = pmremGenerator c /\ cache c' = cache c
  /\ currentPreset c' = currentPreset c
  /\ currentEnvironmentTexture c' = currentEnvironmentTexture c
  /\ onEnvironmentMapUpdated c' = onEnvironmentMapUpdated c
  /\ moods c' = moods c /\ presets c' = presets c.
Proof. unfold settings. intros [= -> -> -> -> -> -> -> -> -> -> -> -> ->]. repeat split. Qed.

Lemma well_formed_derives c c' :
  settings c' = settings c -> next_id c' = next_id c -> disposed c' = disposed c ->
  environmentRenderTarget c' = environmentRenderTarget c ->
  rotationRenderTarget c' = rotationRenderTarget c ->
  well_formed c -> well_formed c'.
Proof.
  intros Hs. apply settings_eq in Hs.
  destruct Hs as (_ & _ & _ & _ & _ & _ & Hg & Hc & _ & Ht & _).
  intros. apply (well_formed_same c c'); auto.
Qed.

Lemma next_id_release_rotation_target c :
  next_id (release_rotation_target c) = next_id c.
Proof.
  unfold release_rotation_target. destruct (rotationRenderTarget c); destruct c; reflexivity.
Qed.

(** The rotation pass: its footprint, what it leaves alone, and where the
    texture it returns lives. *)
Lemma createRotatedTexture_spec src deg c :
  derives c (snd (_createRotatedTexture src deg c))
  /\ (well_formed c -> well_formed (snd (_createRotatedTexture src deg c)))
  /\ environmentRenderTarget (snd (_createRotatedTexture src deg c))
     = environmentRenderTarget c
  /\ scene (snd (_createRotatedTexture src deg c)) = scene c
  /\ clearColor (snd (_createRotatedTexture src deg c)) = clearColor c
  /\ (fst (_createRotatedTexture src deg c) = src
      \/ exists rt, rotationRenderTarget (snd (_createRotatedTexture src deg c)) = Some rt
                    /\ rt_texture rt = fst (_createRotatedTexture src deg c)).
Proof.
  pose proof (derives_release_rotation_target c) as HD.
  pose proof (well_formed_release_rotation_target c) as HW.
  pose proof (release_rotation_target_none c) as HN.
  pose proof (next_id_release_rotation_target c) as HI.
  assert (HE : environmentRenderTarget (release_rotation_target c) = environmentRenderTarget c
               /\ scene (release_rotation_target c) = scene c
               /\ clearColor (release_rotation_target c) = clearColor c).
  { unfold release_rotation_target. destruct (rotationRenderTarget c); destruct c; repeat split. }
  destruct (createRotatedTexture_cases src deg c) as [-> | (t & Ht & ->)]; cbn [fst snd].
  - set (c1 := release_rotation_target c) in *. clearbody c1.
    split; [eapply derives_trans; [exact HD | apply derives_emit] |].
    split; [intros H; apply HW in H; revert H; apply well_formed_same; destruct c1; reflexivity |].
    destruct HE as (<- & <- & <-). destruct c1. repeat split. left; reflexivity.
  - rewrite <- HI in *. set (c1 := release_rotation_target c) in *. clearbody c1.
    split; [eapply derives_trans; [exact HD | apply derives_new_rotation_target, HN] |].
    split; [intros H; apply well_formed_new_rotation_target; auto |].
    destruct HE as (<- & <- & <-). destruct c1. cbn. repeat split.
    right. eexists. split; reflexivity.
Qed.


Local Lemma stage_refl c : stage c c.
Proof. split; [apply derives_refl |]. split; auto. Qed.

Local Lemma stage_step c c1 c2 :
  stage c c1 -> derives c1 c2 -> (well_formed c1 -> well_formed c2) ->
  has_backgroundBlurriness (scene c2) = has_backgroundBlurriness (scene c1) ->
  stage c c2.
Proof.
  intros (D & W & H) D' W' H'. split; [eapply derives_trans; eassumption |].
  split; [auto | congruence].
Qed.

Local Lemma stage_same c c1 c2 :
  stage c c1 ->
  settings c2 = settings c1 -> next_id c2 = next_id c1 -> disposed c2 = disposed c1 ->
  environmentRenderTarget c2 = environmentRenderTarget c1 ->
  rotationRenderTarget c2 = rotationRenderTarget c1 ->
  has_backgroundBlurriness (scene c2) = has_backgroundBlurriness (scene c1) ->
  stage c c2.
Proof.
  intros St Hs Hn Hd He Hr Hb. apply (stage_step c c1 c2 St); auto.
  - apply derives_same; auto.
  - apply well_formed_derives; auto.
Qed.

Local Lemma stage_rotate c c1 current :
  stage c c1 ->
  stage c (snd (if bool_decide (rotation c1 <> 0)
                then _createRotatedTexture current (rotation c1) c1
                else (current, c1)))
  /\ environmentRenderTarget
       (snd (if bool_decide (rotation c1 <> 0)
             then _createRotatedTexture current (rotation c1) c1
             else (current, c1))) = environmentRenderTarget c1
  /\ scene (snd (if bool_decide (rotation c1 <> 0)
                 then _createRotatedTexture current (rotation c1) c1
                 else (current, c1))) = scene c1
  /\ clearColor (snd (if bool_decide (rotation c1 <> 0)
                 then _createRotatedTexture current (rotation c1) c1
                 else (current, c1))) = clearColor c1
  /\ (fst (if bool_decide (rotation c1 <> 0)
           then _createRotatedTexture current (rotation c1) c1
           else (current, c1)) = current
      \/ exists rt,
           rotationRenderTarget
             (snd (if bool_decide (rotation c1 <> 0)
                   then _createRotatedTexture current (rotation c1) c1
                   else (current, c1))) = Some rt
           /\ rt_texture rt
              = fst (if bool_decide (rotation c1 <> 0)
                     then _createRotatedTexture current (rotation c1) c1
                     else (current, c1))).
Proof.
  intros St. case_bool_decide.
  - destruct (createRotatedTexture_spec current (rotation c1) c1) as (D & W & E & S & C & R).
    split; [apply (stage_step c c1 _ St); [exact D | exact W | rewrite S; reflexivity] |].
    split; [exact E |]. split; [exact S |]. split; [exact C | exact R].
  - cbn [fst snd]. split; [exact St |]. split; [reflexivity |]. split; [reflexivity |].
    split; [reflexivity | left; reflexivity].
Qed.


Lemma applyEnvironment_spec c :
  stage c (_applyEnvironment c)
  /\ match (if enabled c then currentEnvironmentTexture c else None) with
     | None => cleared c (_applyEnvironment c)
     | Some current => lit_by current c (_applyEnvironment c)
     end.
Proof.
  unfold _applyEnvironment.
  destruct (if enabled c then currentEnvironmentTexture c else None) as [current |].
  - unfold lit_by.
    change (match environmentRenderTarget c with
            | Some rt => set_environmentRenderTarget None (gpu_dispose (rt_id rt) c)
            | None => c
            end) with (release_environment_target c).
    assert (St1 : stage c (release_environment_target c)).
    { apply (stage_step c c _ (stage_refl c)).
      - apply derives_release_environment_target.
      - apply well_formed_release_environment_target.
      - unfold release_environment_target.
        destruct (environmentRenderTarget c); destruct c; reflexivity. }
    pose proof (release_environment_target_none c) as E1.
    set (c1 := release_environment_target c) in *. clearbody c1.
    destruct (stage_rotate c c1 current St1) as (St2 & E2 & _ & _ & _).
    rewrite E1 in E2. clear St1 E1.
    set (p2 := if bool_decide (rotation c1 <> 0)
               then _createRotatedTexture current (rotation c1) c1
               else (current, c1)) in *.
    clearbody p2. clear c1. destruct p2 as [sourceTexture c2]. cbn [fst snd] in *.
    set (p3 := match pmremGenerator c2 with
               | Some _ =>
                   let '(target, c) := fromEquirectangular sourceTexture c2 in
                   (rt_texture target, set_environmentRenderTarget (Some target) c)
               | None => (sourceTexture, c2)
               end).
    assert (St3 : stage c (snd p3)
                  /\ (is_Some (pmremGenerator c) ->
                      exists rt, environmentRenderTarget (snd p3) = Some rt
                                 /\ rt_texture rt = fst p3
                                 /\ mipmapFilters (rt_texture rt) = true
                                 /\ tex_id (rt_texture rt) = rt_id rt)).
    { pose proof St2 as ([Hs _] & _). apply settings_eq in Hs.
      destruct Hs as (_ & _ & _ & _ & _ & _ & Hg & _).
      unfold p3. rewrite Hg. destruct (pmremGenerator c) as [g |].
      - unfold fromEquirectangular, alloc. cbn [fst snd].
        split.
        + apply (stage_step c c2 _ St2).
          * apply derives_new_environment_target, E2.
          * apply well_formed_new_environment_target. reflexivity.
          * destruct c2; reflexivity.
        + intros _. eexists. split; [destruct c2; reflexivity |].
          split; [reflexivity |]. split; reflexivity.
      - cbn [fst snd]. split; [exact St2 |]. intros [? [=]]. }
    clearbody p3. clear St2 E2. destruct p3 as [envTexture c3]. cbn [fst snd] in St3.
    destruct St3 as [St3 F3].
    match goal with |- context [_notifyEnvironmentMapUpdated ?t ?i ?c'] =>
      set (c4 := _notifyEnvironmentMapUpdated t i c')
    end.
    pose proof St3 as ([Hs3 _] & _). apply settings_eq in Hs3.
    destruct Hs3 as (Hen3 & Hbg3 & Hst3 & Hbl3 & Hro3 & Hfc3 & Hg3 & _).
    assert (St4 : stage c c4
                  /\ environmentRenderTarget c4 = environmentRenderTarget c3
                  /\ environment (scene c4) = Some envTexture
                  /\ environmentIntensity (scene c4) = strength c).
    { unfold c4, _notifyEnvironmentMapUpdated. rewrite <- Hst3.
      split; [apply (stage_same c c3 _ St3) |];
        destruct c3 as [pr mo [|] en bg st bl ro fc pg ca cp ct ert rrt sc cc ni d fx];
        cbn [set_scene emit set_effects scene environment environmentIntensity
             environmentRenderTarget rotationRenderTarget next_id disposed settings
             has_backgroundBlurriness onEnvironmentMapUpdated strength presets moods
             enabled backgroundEnabled blurriness rotation fallbackColor pmremGenerator
             cache currentPreset currentEnvironmentTexture effects clearColor
             background backgroundBlurriness backgroundIntensity];
        repeat split. }
    clearbody c4. destruct St4 as (St4 & E4 & S4 & I4).
    pose proof St4 as ([Hs4 _] & _ & Hb4). apply settings_eq in Hs4.
    destruct Hs4 as (Hen4 & Hbg4 & Hst4 & Hbl4 & Hro4 & Hfc4 & Hg4 & _).
    rewrite Hbg4. destruct (backgroundEnabled c).
    + destruct (stage_rotate c c4 current St4) as (St5 & E5 & S5 & _ & R5).
      set (p5 := if bool_decide (rotation c4 <> 0)
                 then _createRotatedTexture current (rotation c4) c4
                 else (current, c4)) in *.
      clearbody p5. destruct p5 as [bgTexture c5]. cbn [fst snd] in *.
      pose proof St5 as ([Hs5 _] & _ & Hb5). apply settings_eq in Hs5.
      destruct Hs5 as (Hen5 & Hbg5 & Hst5 & Hbl5 & Hro5 & Hfc5 & Hg5 & _).
      rewrite Hbl5, Hst5, S5.
      split.
      { apply (stage_same c c5 _ St5); try (destruct c5; reflexivity).
        rewrite S5. destruct (has_backgroundBlurriness (scene c4)); destruct c5; reflexivity. }
      split.
      { destruct (has_backgroundBlurriness (scene c4)); destruct c5; exact I4. }
      split.
      { intros Hg. destruct (F3 Hg) as (rt & Ert & Hrt & Hmm & Hid).
        exists rt. split; [destruct c5; cbn in *; congruence |].
        split; [destruct (has_backgroundBlurriness (scene c4)); destruct c5;
                cbn [scene set_scene environment]; rewrite S4, Hrt; reflexivity |].
        split; [exact Hmm |]. split; [exact Hid |].
        eexists. split; [destruct (has_backgroundBlurriness (scene c4)); destruct c5; reflexivity |].
        case_bool_decide; [symmetry; exact Hrt |].
        destruct R5 as [-> | (rr & Hrr & <-)]; [left; reflexivity |].
        right. exists rr. split; [destruct c5; exact Hrr | reflexivity]. }
      intros Hb. rewrite Hb4, Hb. destruct c5. split; reflexivity.
    + split.
      { apply (stage_same c c4 _ St4); try (destruct c4; reflexivity).
        destruct (has_backgroundBlurriness (scene c4)); destruct c4; reflexivity. }
      split.
      { destruct (has_backgroundBlurriness (scene c4)); destruct c4; exact I4. }
      split.
      { intros Hg. destruct (F3 Hg) as (rt & Ert & Hrt & Hmm & Hid).
        exists rt. split; [destruct c4; cbn in *; congruence |].
        split; [destruct (has_backgroundBlurriness (scene c4)); destruct c4;
                cbn [scene set_scene clear_to_fallback emit set_effects set_clearColor
                     environment] in S4 |- *; rewrite S4, Hrt; reflexivity |].
        split; [exact Hmm |]. split; [exact Hid |].
        split; [destruct (has_backgroundBlurriness (scene c4)); destruct c4; reflexivity |].
        rewrite <- Hfc4. destruct c4; reflexivity. }
      intros Hb. rewrite Hb4, Hb. destruct c4. split; reflexivity.
  - split.
    + apply (stage_same c c _ (stage_refl c));
        unfold _notifyEnvironmentMapUpdated;
        destruct c as [pr mo [|] en bg st bl ro fc pg ca cp ct ert rrt sc cc ni d fx];
        reflexivity.
    + unfold cleared, _notifyEnvironmentMapUpdated.
      destruct c as [pr mo [|] en bg st bl ro fc pg ca cp ct ert rrt sc cc ni d fx];
        repeat split.
Qed.


(** *** Every call, one by one *)

Lemma gpu_footprint_same c c' :
  pmremGenerator c' = pmremGenerator c -> next_id c' = next_id c ->
  disposed c' = disposed c ->
  environmentRenderTarget c' = environmentRenderTarget c ->
  rotationRenderTarget c' = rotationRenderTarget c ->
  gpu_footprint c c'.
Proof.
  intros Hp Hn Hd He Hr. unfold gpu_footprint.
  rewrite Hp, Hn, Hd, He, Hr. repeat split; auto.
Qed.

Lemma gpu_footprint_applyEnvironment c : gpu_footprint c (_applyEnvironment c).
Proof. destruct (applyEnvironment_spec c) as (([_ F] & _) & _). exact F. Qed.

Lemma well_formed_applyEnvironment c : well_formed c -> well_formed (_applyEnvironment c).
Proof. destruct (applyEnvironment_spec c) as ((_ & W & _) & _). exact W. Qed.

Lemma settings_applyEnvironment c : settings (_applyEnvironment c) = settings c.
Proof. destruct (applyEnvironment_spec c) as (([S _] & _) & _). exact S. Qed.

Lemma dispose_unfold c :
  dispose c
  = match pmremGenerator (release_rotation_target (release_environment_target c)) with
    | Some g => gpu_dispose g (release_rotation_target (release_environment_target c))
    | None => release_rotation_target (release_environment_target c)
    end.
Proof. reflexivity. Qed.

Lemma gpu_footprint_dispose c : gpu_footprint c (dispose c).
Proof.
  rewrite dispose_unfold.
  pose proof (derives_release_environment_target c) as [_ F1].
  set (c1 := release_environment_target c) in *. clearbody c1.
  pose proof (derives_release_rotation_target c1) as [_ F2].
  set (c2 := release_rotation_target c1) in *. clearbody c2.
  apply (gpu_footprint_trans c c1 _ F1). apply (gpu_footprint_trans c1 c2 _ F2).
  destruct (pmremGenerator c2) as [g |] eqn:E; [| apply gpu_footprint_refl].
  destruct c2 as [pr mo cb en bg st bl ro fc pg ca cp ct ert rrt sc cc ni d fx].
  cbn in E. subst pg. unfold gpu_footprint, target_id. cbn.
  split; [reflexivity |]. split; [lia |]. split; [set_solver |].
  split; [intros r; rewrite elem_of_union, elem_of_singleton; intros [-> | ?]; auto |].
  repeat split; auto.
Qed.

Lemma dispose_releases c :
  environmentRenderTarget (dispose c) = None /\ rotationRenderTarget (dispose c) = None.
Proof.
  destruct c as [pr mo cb en bg st bl ro fc [g |] ca cp ct [ert |] [rrt |] sc cc ni d fx];
    split; reflexivity.
Qed.

Lemma well_formed_dispose c : well_formed c -> well_formed (dispose c).
Proof.
  intros W. rewrite dispose_unfold.
  apply well_formed_release_environment_target in W.
  pose proof (release_environment_target_none c) as E1.
  set (c1 := release_environment_target c) in *. clearbody c1.
  apply well_formed_release_rotation_target in W.
  pose proof (release_rotation_target_none c1) as E2.
  assert (E1' : environmentRenderTarget (release_rotation_target c1) = None).
  { unfold release_rotation_target. destruct (rotationRenderTarget c1); [| exact E1].
    destruct c1; exact E1. }
  set (c2 := release_rotation_target c1) in *. clearbody c2. clear c1 E1.
  destruct (pmremGenerator c2) as [g |] eqn:E; [| exact W].
  destruct c2 as [pr mo cb en bg st bl ro fc pg ca cp ct ert rrt sc cc ni d fx].
  cbn in E, E1', E2. subst pg ert rrt. revert W.
  unfold well_formed, live_target, held_texture. cbn.
  intros (Hd & Hh & _ & _ & _ & (g' & [= <-] & Hgl & Hgh)).
  split. { intros r. rewrite elem_of_union, elem_of_singleton. intros [-> | ?]; auto. }
  split. { intros r H. split; [apply Hh, H |].
           rewrite elem_of_union, elem_of_singleton. intros [-> | ?]; [auto |].
           apply (Hh r H); assumption. }
  split; [discriminate |]. split; [discriminate |]. split; [discriminate |].
  exists g. split; [reflexivity |]. split; assumption.
Qed.

(** A texture the loader delivered enters the cache under a fresh identity
    and becomes the current one. *)
Lemma well_formed_load c p t :
  tex_id t = next_id c -> well_formed c ->
  well_formed (set_currentEnvironmentTexture (Some t)
                 (set_currentPreset (Some p)
                    (set_cache (<[p := t]> (cache (set_next_id (S (next_id c)) c)))
                       (set_next_id (S (next_id c)) c)))).
Proof.
  destruct c as [pr mo cb en bg st bl ro fc pg ca cp ct ert rrt sc cc ni d fx].
  unfold well_formed, live_target, held_texture. cbn.
  intros Ht (Hd & Hh & He & Hr & Hne & (g & Hg & Hgl & Hgh)).
  assert (Hheld : forall r,
            (exists p' t', <[p := t]> ca !! p' = Some t' /\ tex_id t' = r)
            \/ (exists t', Some t = Some t' /\ tex_id t' = r) ->
            r = ni \/ (exists p' t', ca !! p' = Some t' /\ tex_id t' = r)).
  { intros r [(p' & t' & Hl & Hid) | (t' & [= <-] & Hid)]; [| left; congruence].
    apply lookup_insert_Some in Hl. destruct Hl as [[_ <-] | [_ Hl]]; [left; congruence |].
    right. eauto. }
  split. { intros r H. apply Hd in H. lia. }
  split. { intros r H. apply Hheld in H. destruct H as [-> | H].
           - split; [lia |]. intros H'. apply Hd in H'. lia.
           - destruct (Hh r (or_introl H)). split; [lia | assumption]. }
  split. { intros re ->. destruct (He re eq_refl) as (? & ? & ? & Hn).
           split; [assumption |]. split; [lia |]. split; [assumption |].
           intros Hx. apply Hheld in Hx. destruct Hx as [? | Hx]; [lia | apply Hn; left; exact Hx]. }
  split. { intros rr ->. destruct (Hr rr eq_refl) as (? & ? & ? & Hn).
           split; [assumption |]. split; [lia |]. split; [assumption |].
           intros Hx. apply Hheld in Hx. destruct Hx as [? | Hx]; [lia | apply Hn; left; exact Hx]. }
  split; [exact Hne |].
  exists g. split; [assumption |]. split; [lia |].
  intros Hx. apply Hheld in Hx. destruct Hx as [? | Hx]; [lia | apply Hgh; left; exact Hx].
Qed.

(** A texture taken back out of the cache becomes the current one. *)
Lemma well_formed_recall c p t :
  cache c !! p = Some t -> well_formed c ->
  well_formed (set_currentEnvironmentTexture (Some t) c).
Proof.
  destruct c as [pr mo cb en bg st bl ro fc pg ca cp ct ert rrt sc cc ni d fx].
  unfold well_formed, live_target, held_texture. cbn.
  intros Hc (Hd & Hh & He & Hr & Hne & (g & Hg & Hgl & Hgh)).
  assert (Hheld : forall r,
            (exists p' t', ca !! p' = Some t' /\ tex_id t' = r)
            \/ (exists t', Some t = Some t' /\ tex_id t' = r) ->
            exists p' t', ca !! p' = Some t' /\ tex_id t' = r).
  { intros r [H | (t' & [= <-] & Hid)]; [exact H | eauto]. }
  split; [exact Hd |].
  split. { intros r H. apply Hheld in H. apply Hh. left; exact H. }
  split. { intros re ->. destruct (He re eq_refl) as (? & ? & ? & Hn).
           split; [assumption |]. split; [assumption |]. split; [assumption |].
           intros Hx. apply Hheld in Hx. apply Hn. left; exact Hx. }
  split. { intros rr ->. destruct (Hr rr eq_refl) as (? & ? & ? & Hn).
           split; [assumption |]. split; [assumption |]. split; [assumption |].
           intros Hx. apply Hheld in Hx. apply Hn. left; exact Hx. }
  split; [exact Hne |].
  exists g. split; [assumption |]. split; [assumption |].
  intros Hx. apply Hheld in Hx. apply Hgh. left; exact Hx.
Qed.

Lemma setPreset_resume_footprint p ldr o c :
  gpu_footprint c (snd (setPreset_resume p ldr o c))
  /\ (well_formed c -> well_formed (snd (setPreset_resume p ldr o c))).
Proof.
  unfold setPreset_resume, setPreset_catch.
  destruct o as [[t |] | err]; cbn [snd].
  - unfold alloc. cbv beta iota zeta. cbn [snd]. split.
    + eapply gpu_footprint_trans; [| apply gpu_footprint_applyEnvironment].
      destruct c; unfold gpu_footprint; cbn. repeat split; auto.
    + intros W. apply well_formed_applyEnvironment.
      apply (well_formed_load c p); [reflexivity | exact W].
  - split; [apply gpu_footprint_same; destruct c; reflexivity |].
    apply well_formed_same; destruct c; reflexivity.
  - split; [apply gpu_footprint_same; destruct c; reflexivity |].
    apply well_formed_same; destruct c; reflexivity.
Qed.

Lemma setPreset_footprint p o c :
  gpu_footprint c (snd (setPreset p o c))
  /\ (well_formed c -> well_formed (snd (setPreset p o c))).
Proof.
  unfold setPreset, setPreset_start.
  destruct p as [p |]; [| split; [apply gpu_footprint_refl | auto]].
  destruct (if truthy_string p then presets c !! p else None) as [config |];
    [| split; [apply gpu_footprint_refl | auto]].
  destruct (if bool_decide (currentPreset c = Some p) then cache c !! p else None)
    as [t |] eqn:Hc.
  - cbn [snd]. split.
    + eapply gpu_footprint_trans; [| apply gpu_footprint_applyEnvironment].
      apply gpu_footprint_same; destruct c; reflexivity.
    + intros W. apply well_formed_applyEnvironment.
      case_bool_decide; [| discriminate]. apply (well_formed_recall c p t Hc W).
  - destruct (load_request config) as [err | [url ldr]].
    + unfold setPreset_catch. cbn [snd].
      split; [apply gpu_footprint_same; destruct c; reflexivity |].
      apply well_formed_same; destruct c; reflexivity.
    + apply setPreset_resume_footprint.
Qed.

(** Changing a setting and deriving again. *)
Lemma setting_footprint c c0 :
  pmremGenerator c0 = pmremGenerator c -> next_id c0 = next_id c ->
  disposed c0 = disposed c ->
  environmentRenderTarget c0 = environmentRenderTarget c ->
  rotationRenderTarget c0 = rotationRenderTarget c ->
  cache c0 = cache c -> currentEnvironmentTexture c0 = currentEnvironmentTexture c ->
  gpu_footprint c (_applyEnvironment c0)
  /\ (well_formed c -> well_formed (_applyEnvironment c0)).
Proof.
  intros. split.
  - eapply gpu_footprint_trans; [| apply gpu_footprint_applyEnvironment].
    apply gpu_footprint_same; assumption.
  - intros W. apply well_formed_applyEnvironment.
    revert W. apply well_formed_same; assumption.
Qed.

Lemma env_step_footprint k c :
  gpu_footprint c (env_step k c) /\ (well_formed c -> well_formed (env_step k c)).
Proof.
  destruct k; cbn [env_step].
  - apply setPreset_footprint.
  - apply setPreset_resume_footprint.
  - apply setting_footprint; destruct c; reflexivity.
  - apply setting_footprint; destruct c; reflexivity.
  - apply setting_footprint; destruct c; reflexivity.
  - apply setting_footprint; destruct c; reflexivity.
  - unfold setRotation. case_bool_decide; [split; [apply gpu_footprint_refl | auto] |].
    apply setting_footprint; destruct c; reflexivity.
  - unfold setFallbackColor. cbv zeta.
    match goal with |- context [if ?b then _ else _] => destruct b end;
      (split; [apply gpu_footprint_same | apply well_formed_same]; destruct c; reflexivity).
  - split; [apply gpu_footprint_dispose | apply well_formed_dispose].
Qed.

Lemma env_run_app ks1 ks2 c : env_run (ks1 ++ ks2) c = env_run ks2 (env_run ks1 c).
Proof. apply fold_left_app. Qed.

Lemma env_run_footprint ks c :
  gpu_footprint c (env_run ks c) /\ (well_formed c -> well_formed (env_run ks c)).
Proof.
  revert c. induction ks as [| k ks IH]; intros c.
  - split; [apply gpu_footprint_refl | auto].
  - cbn [env_run fold_left]. destruct (env_step_footprint k c) as [F W].
    destruct (IH (env_step k c)) as [F' W'].
    split; [eapply gpu_footprint_trans; eassumption | auto].
Qed.

Lemma well_formed_constructor sc pr mo ip en bg st bl ro fc cb :
  well_formed (constructor sc pr mo ip en bg st bl ro fc cb).
Proof.
  unfold well_formed, live_target, held_texture, constructor. cbn.
  split; [intros r H; apply elem_of_empty in H; contradiction |].
  split. { intros r [(p & t & H & _) | (t & H & _)]; [| discriminate].
           rewrite lookup_empty in H. discriminate. }
  split; [discriminate |]. split; [discriminate |]. split; [discriminate |].
  exists 0%nat. split; [reflexivity |]. split; [lia |].
  intros [(p & t & H & _) | (t & H & _)]; [| discriminate].
  rewrite lookup_empty in H. discriminate.
Qed.


(** *** What holds over a whole session *)

(** X16: over any sequence of calls the controller's GPU bookkeeping stays
    within its footprint: the PMREM generator is never replaced, resource
    identities only grow, nothing disposed comes back, only the controller's
    own render targets, its generator and resources created on the way are
    ever disposed, and no render target is dropped without being disposed. *)
Theorem session_stays_within_footprint (ks : list env_call) (c : controller) :
  gpu_footprint c (env_run ks c).
Proof.
  revert c. induction ks as [| k ks IH]; intros c; [apply gpu_footprint_refl |].
  cbn [env_run fold_left].
  eapply gpu_footprint_trans; [apply env_step_footprint | apply IH].
Qed.

(** X17: a render target the controller holds at any moment of a session has
    been disposed by the time a final [dispose()] returns, whatever was
    called in between, and the controller then holds no render target. *)
Theorem every_render_target_is_released
    (ks1 ks2 : list env_call) (c : controller) (rt : renderTarget) :
  held_target (env_run ks1 c) rt ->
  rt_id rt ∈ disposed (env_run (ks1 ++ ks2 ++ [Dispose]) c)
  /\ environmentRenderTarget (env_run (ks1 ++ ks2 ++ [Dispose]) c) = None
  /\ rotationRenderTarget (env_run (ks1 ++ ks2 ++ [Dispose]) c) = None.
Proof.
  rewrite !env_run_app. set (c1 := env_run ks1 c). clearbody c1.
  destruct (env_run_footprint ks2 c1) as [(_ & _ & _ & _ & He & Hr & _) _].
  set (c2 := env_run ks2 c1) in *. clearbody c2.
  change (env_run [Dispose] c2) with (dispose c2).
  destruct (gpu_footprint_dispose c2) as (_ & _ & Hd & _ & He' & Hr' & _).
  destruct (dispose_releases c2) as [E R]. rewrite E, R in *.
  intros H. split; [| split; reflexivity].
  destruct H as [H | H].
  - destruct (He rt H) as [H2 | H2]; [| apply Hd, H2].
    destruct (He' rt H2) as [? | ?]; [discriminate | assumption].
  - destruct (Hr rt H) as [H2 | H2]; [| apply Hd, H2].
    destruct (Hr' rt H2) as [? | ?]; [discriminate | assumption].
Qed.

Lemma every_render_target_is_released_witness :
  2%nat ∈ disposed (env_run ([load_studio] ++ [SetEnabled false] ++ [Dispose])
                      TeardownSpec.viewer).
Proof.
  destruct (every_render_target_is_released [load_studio] [SetEnabled false]
              TeardownSpec.viewer studio_target) as [H _]; [| exact H].
  left. vm_compute. reflexivity.
Defined.

(** X18: no call ever disposes a decoded texture.  A texture found in the
    cache at any moment of a session that started with the constructor is
    still undisposed after any further calls, [dispose()] among them. *)
Theorem decoded_textures_are_never_disposed
    (sc : sceneGraph) (pr : gmap string preset_config) (mo : gmap string string)
    (ip : option string) (en bg : bool) (st bl ro : num) (fc : string) (cb : bool)
    (ks1 ks2 : list env_call) (p : string) (t : texture) :
  cache (env_run ks1 (constructor sc pr mo ip en bg st bl ro fc cb)) !! p = Some t ->
  tex_id t ∉ disposed (env_run (ks1 ++ ks2) (constructor sc pr mo ip en bg st bl ro fc cb)).
Proof.
  rewrite env_run_app.
  destruct (env_run_footprint ks1 (constructor sc pr mo ip en bg st bl ro fc cb)) as [_ W].
  specialize (W (well_formed_constructor sc pr mo ip en bg st bl ro fc cb)).
  set (c1 := env_run ks1 _) in *. clearbody c1.
  destruct (env_run_footprint ks2 c1) as [(_ & _ & _ & Ho & _) _].
  intros Hc Hin.
  destruct W as (_ & Hh & He & Hr & _ & (g & Hg & _ & Hgh)).
  assert (Hheld : held_texture c1 (tex_id t)) by (left; eauto).
  destruct (Hh _ Hheld) as [Hlt Hnd].
  destruct (Ho _ Hin) as [H | [H | [H | [H | H]]]].
  - exact (Hnd H).
  - destruct (environmentRenderTarget c1) as [rt |]; [| discriminate].
    cbn in H. injection H as H. destruct (He rt eq_refl) as (_ & _ & _ & Hn).
    apply Hn. rewrite <- H. exact Hheld.
  - destruct (rotationRenderTarget c1) as [rt |]; [| discriminate].
    cbn in H. injection H as H. destruct (Hr rt eq_refl) as (_ & _ & _ & Hn).
    apply Hn. rewrite <- H. exact Hheld.
  - rewrite Hg in H. injection H as H. apply Hgh. rewrite <- H. exact Hheld.
  - lia.
Qed.


Lemma decoded_textures_are_never_disposed_witness :
  1%nat ∉ disposed (env_run ([load_studio] ++ [SetRotation (Some (lit 90)); Dispose])
                      TeardownSpec.viewer).
Proof.
  apply (decoded_textures_are_never_disposed
           (SceneGraph None 1 None true 0 1)
           {[ "studio"%string := ConfigUrl "hdri/studio.hdr" ]}
           {[ "studio"%string := "neutral"%string ]}
           None true true 1 0 0 "#000000" false
           [load_studio] [SetRotation (Some (lit 90)); Dispose] "studio" studio_loaded).
  vm_compute. reflexivity.
Defined.

(** A derivation on consistent identities leaves the scene pointing at
    live textures only, whatever it pointed at before. *)
Lemma applyEnvironment_shown_live c :
  well_formed c -> shown_live (_applyEnvironment c).
Proof.
  intros W. destruct (applyEnvironment_spec c) as (([Hs _] & W' & _) & Hpost).
  specialize (W' W). apply settings_eq in Hs.
  destruct Hs as (_ & _ & _ & _ & _ & _ & _ & _ & _ & Hct & _).
  set (c' := _applyEnvironment c) in *. clearbody c'.
  destruct (if enabled c then currentEnvironmentTexture c else None) as [current |] eqn:Hact.
  - assert (Hcur : currentEnvironmentTexture c = Some current)
      by (destruct (enabled c); [exact Hact | discriminate]).
    destruct Hpost as (_ & Hlit & _).
    destruct W as (_ & _ & _ & _ & _ & (g & Hg & _)).
    destruct (Hlit (ex_intro _ g Hg)) as (rt & Ert & Henv & _ & Hid & Hbg).
    destruct W' as (_ & Hh & He & Hr & _).
    destruct (He rt Ert) as (_ & _ & Hlive & _).
    intros t [Ht | Ht].
    + rewrite Henv in Ht. injection Ht as <-. rewrite Hid. exact Hlive.
    + destruct (backgroundEnabled c); [| destruct Hbg as [Hn _]; congruence].
      destruct Hbg as (bg & Hb & Hwhich). rewrite Hb in Ht. injection Ht as <-.
      case_bool_decide; [subst bg; rewrite Hid; exact Hlive |].
      destruct Hwhich as [-> | (rr & Hrr & <-)].
      * apply Hh. right. exists current. split; [congruence | reflexivity].
      * destruct (Hr rr Hrr) as (Hid' & _ & Hlive' & _). rewrite Hid'. exact Hlive'.
  - destruct Hpost as (He & _ & Hb & _). intros t [Ht | Ht]; congruence.
Qed.

Lemma shown_live_same c c' :
  scene c' = scene c -> disposed c' = disposed c -> shown_live c -> shown_live c'.
Proof. unfold shown_live, shown. intros -> ->. auto. Qed.

Lemma env_step_shown_live k c :
  is_dispose k = false -> well_formed c -> shown_live c -> shown_live (env_step k c).
Proof.
  intros Hk W L. destruct k; cbn [env_step]; try discriminate.
  - unfold setPreset, setPreset_start.
    destruct preset as [p |]; [| exact L].
    destruct (if truthy_string p then presets c !! p else None) as [config |]; [| exact L].
    destruct (if bool_decide (currentPreset c = Some p) then cache c !! p else None)
      as [t |] eqn:Hc.
    + cbn [snd]. apply applyEnvironment_shown_live.
      case_bool_decide; [| discriminate]. apply (well_formed_recall c p t Hc W).
    + destruct (load_request config) as [err | [url ldr]].
      * unfold setPreset_catch. cbn [snd]. revert L. apply shown_live_same; destruct c; reflexivity.
      * change (Some p ?? ""%string) with p.
        unfold setPreset_resume, setPreset_catch.
        destruct outcome as [[t |] | err]; cbn [snd];
          [| revert L; apply shown_live_same; destruct c; reflexivity ..].
        unfold alloc. cbv beta iota zeta. cbn [snd].
        apply applyEnvironment_shown_live.
        apply (well_formed_load c p); [reflexivity | exact W].
  - unfold setPreset_resume, setPreset_catch.
    destruct outcome as [[t |] | err]; cbn [snd];
      [| revert L; apply shown_live_same; destruct c; reflexivity ..].
    unfold alloc. cbv beta iota zeta. cbn [snd].
    apply applyEnvironment_shown_live.
    apply (well_formed_load c preset); [reflexivity | exact W].
  - apply applyEnvironment_shown_live. revert W. apply well_formed_same; destruct c; reflexivity.
  - apply applyEnvironment_shown_live. revert W. apply well_formed_same; destruct c; reflexivity.
  - apply applyEnvironment_shown_live. revert W. apply well_formed_same; destruct c; reflexivity.
  - apply applyEnvironment_shown_live. revert W. apply well_formed_same; destruct c; reflexivity.
  - unfold setRotation. case_bool_decide; [exact L |].
    apply applyEnvironment_shown_live. revert W. apply well_formed_same; destruct c; reflexivity.
  - unfold setFallbackColor. cbv zeta.
    match goal with |- context [if ?b then _ else _] => destruct b end;
      revert L; apply shown_live_same; destruct c; reflexivity.
Qed.

(** X19: as long as [dispose()] is not called, the scene never points at a
    disposed texture: after any sequence of other calls on a freshly built
    controller, neither [scene.environment] nor [scene.background] is a
    texture whose resource has been disposed. *)
Theorem scene_never_shows_a_disposed_texture
    (sc : sceneGraph) (pr : gmap string preset_config) (mo : gmap string string)
    (ip : option string) (en bg : bool) (st bl ro : num) (fc : string) (cb : bool)
    (ks : list env_call) (t : texture) :
  forallb (fun k => negb (is_dispose k)) ks = true ->
  shown (env_run ks (constructor sc pr mo ip en bg st bl ro fc cb)) t ->
  tex_id t ∉ disposed (env_run ks (constructor sc pr mo ip en bg st bl ro fc cb)).
Proof.
  intros Hks.
  assert (H : well_formed (constructor sc pr mo ip en bg st bl ro fc cb)
              /\ shown_live (constructor sc pr mo ip en bg st bl ro fc cb)).
  { split; [apply well_formed_constructor |]. intros t' _. apply not_elem_of_empty. }
  revert H. generalize (constructor sc pr mo ip en bg st bl ro fc cb).
  induction ks as [| k ks IH]; intros c [W L]; [apply L |].
  cbn [forallb] in Hks. apply andb_true_iff in Hks. destruct Hks as [Hk Hks].
  apply negb_true_iff in Hk.
  cbn [env_run fold_left]. apply (IH Hks). split.
  - apply env_step_footprint, W.
  - apply env_step_shown_live; assumption.
Qed.

Lemma scene_never_shows_a_disposed_texture_witness :
  tex_id (rt_texture studio_target)
  ∉ disposed (env_run [load_studio; SetFallbackColor (Some "#202020"%string)]
               TeardownSpec.viewer).
Proof.
  apply (scene_never_shows_a_disposed_texture
           (SceneGraph None 1 None true 0 1)
           {[ "studio"%string := ConfigUrl "hdri/studio.hdr" ]}
           {[ "studio"%string := "neutral"%string ]}
           None true true 1 0 0 "#000000" false
           [load_studio; SetFallbackColor (Some "#202020"%string)]
           (rt_texture studio_target)).
  - reflexivity.
  - left. vm_compute. reflexivity.
Defined.

(** X20: [dispose()] does not detach the scene.  When an environment is
    showing, the scene's environment map is the texture of the PMREM render
    target, and after [dispose()] the scene still points at it although
    the target has been disposed. *)
Theorem dispose_leaves_the_scene_attached (c : controller) (t : texture) :
  enabled c = true -> currentEnvironmentTexture c = Some t ->
  is_Some (pmremGenerator c) ->
  exists rt,
    environmentRenderTarget (_applyEnvironment c) = Some rt
    /\ environment (scene (_applyEnvironment c)) = Some (rt_texture rt)
    /\ environment (scene (dispose (_applyEnvironment c))) = Some (rt_texture rt)
    /\ tex_id (rt_texture rt) ∈ disposed (dispose (_applyEnvironment c)).
Proof.
  intros He Hc Hg. destruct (applyEnvironment_spec c) as (_ & Hpost).
  rewrite He, Hc in Hpost. destruct Hpost as (_ & Hlit & _).
  destruct (Hlit Hg) as (rt & Ert & Henv & _ & Hid & _).
  set (c' := _applyEnvironment c) in *. clearbody c'.
  exists rt. split; [exact Ert |]. split; [exact Henv |].
  destruct c' as [pr mo cb en bg st bl ro fc [g |] ca cp ct ert [rrt |] sc cc ni d fx];
    cbn in Ert, Henv; subst ert; unfold dispose; cbn;
    (split; [exact Henv |]); rewrite Hid, !elem_of_union, !elem_of_singleton; auto 10.
Qed.


Lemma dispose_leaves_the_scene_attached_witness :
  exists rt,
    environment (scene (dispose (_applyEnvironment TeardownSpec.viewer_loaded)))
    = Some (rt_texture rt)
    /\ tex_id (rt_texture rt) ∈ disposed (dispose (_applyEnvironment TeardownSpec.viewer_loaded)).
Proof.
  destruct (dispose_leaves_the_scene_attached TeardownSpec.viewer_loaded studio_loaded)
    as (rt & _ & _ & H3 & H4).
  - reflexivity.
  - vm_compute. reflexivity.
  - exists 0%nat. reflexivity.
  - exists rt. split; assumption.
Defined.

Lemma applyEnvironment_dark c :
  enabled c = false -> unlit (_applyEnvironment c) /\ gpu_untouched c (_applyEnvironment c).
Proof.
  intros He. destruct (applyEnvironment_spec c) as (([Hs _] & _) & Hpost).
  rewrite He in Hpost. apply settings_eq in Hs.
  destruct Hs as (Hen & _ & _ & _ & _ & Hfc & _).
  destruct Hpost as (H1 & H2 & H3 & H4 & _ & H6 & H7 & H8).
  split; [| split; [exact H6 | split; assumption]].
  split; [congruence |]. split; [exact H1 |]. split; [exact H3 |]. split; [exact H2 |].
  rewrite Hfc. exact H4.
Qed.

Lemma dark_same c c' :
  enabled c' = enabled c -> scene c' = scene c -> clearColor c' = clearColor c ->
  fallbackColor c' = fallbackColor c -> unlit c -> unlit c'.
Proof. unfold unlit. intros -> -> -> ->. auto. Qed.

Lemma gpu_untouched_trans c0 c c' :
  gpu_untouched c0 c -> gpu_untouched c c' -> gpu_untouched c0 c'.
Proof. unfold gpu_untouched. intros (-> & -> & ->) (-> & -> & ->). auto. Qed.

Lemma gpu_untouched_same c c' :
  disposed c' = disposed c -> environmentRenderTarget c' = environmentRenderTarget c ->
  rotationRenderTarget c' = rotationRenderTarget c -> gpu_untouched c c'.
Proof. unfold gpu_untouched. auto. Qed.

(** A derivation of a disabled controller, after a change that does not
    reach the GPU side. *)
Lemma derive_disabled c c0 :
  enabled c0 = false -> gpu_untouched c c0 ->
  unlit (_applyEnvironment c0) /\ gpu_untouched c (_applyEnvironment c0).
Proof.
  intros He G. destruct (applyEnvironment_dark c0 He) as [D G'].
  split; [exact D | eapply gpu_untouched_trans; eassumption].
Qed.

Lemma env_step_dark k c :
  keeps_disabled k = true -> unlit c ->
  unlit (env_step k c) /\ gpu_untouched c (env_step k c).
Proof.
  intros Hk D. pose proof D as (He & _).
  assert (Hidle : forall c', enabled c' = enabled c -> scene c' = scene c ->
            clearColor c' = clearColor c -> fallbackColor c' = fallbackColor c ->
            disposed c' = disposed c ->
            environmentRenderTarget c' = environmentRenderTarget c ->
            rotationRenderTarget c' = rotationRenderTarget c ->
            unlit c' /\ gpu_untouched c c').
  { intros c' ? ? ? ? ? ? ?. split; [apply (dark_same c c'); assumption |].
    apply gpu_untouched_same; assumption. }
  destruct k; cbn [env_step]; cbn [keeps_disabled] in Hk; try discriminate.
  - unfold setPreset, setPreset_start.
    destruct preset as [p |]; [| apply Hidle; reflexivity].
    destruct (if truthy_string p then presets c !! p else None) as [config |];
      [| apply Hidle; reflexivity].
    destruct (if bool_decide (currentPreset c = Some p) then cache c !! p else None)
      as [t |] eqn:Hc.
    + cbn [snd]. apply derive_disabled; [| apply gpu_untouched_same]; destruct c; assumption || reflexivity.
    + destruct (load_request config) as [err | [url ldr]].
      * unfold setPreset_catch. cbn [snd]. apply Hidle; destruct c; reflexivity.
      * change (Some p ?? ""%string) with p.
        unfold setPreset_resume, setPreset_catch.
        destruct outcome as [[t |] | err]; cbn [snd];
          [| apply Hidle; destruct c; reflexivity ..].
        unfold alloc. cbv beta iota zeta. cbn [snd].
        apply derive_disabled; [| apply gpu_untouched_same]; destruct c; assumption || reflexivity.
  - unfold setPreset_resume, setPreset_catch.
    destruct outcome as [[t |] | err]; cbn [snd];
      [| apply Hidle; destruct c; reflexivity ..].
    unfold alloc. cbv beta iota zeta. cbn [snd].
    apply derive_disabled; [| apply gpu_untouched_same]; destruct c; assumption || reflexivity.
  - destruct b; [discriminate |].
    apply derive_disabled; [| apply gpu_untouched_same]; destruct c; reflexivity.
  - apply derive_disabled; [| apply gpu_untouched_same]; destruct c; assumption || reflexivity.
  - apply derive_disabled; [| apply gpu_untouched_same]; destruct c; assumption || reflexivity.
  - apply derive_disabled; [| apply gpu_untouched_same]; destruct c; assumption || reflexivity.
  - unfold setRotation. case_bool_decide; [apply Hidle; reflexivity |].
    apply derive_disabled; [| apply gpu_untouched_same]; destruct c; assumption || reflexivity.
  - unfold setFallbackColor. cbv zeta.
    destruct c as [pr mo cb en bg st bl ro fc pg ca cp ct ert rrt sc cc ni d fx].
    cbn in He. subst en. clear Hidle. destruct D as (_ & D1 & D2 & D3 & _).
    cbn in D1, D2, D3.
    cbn [set_fallbackColor backgroundEnabled enabled currentEnvironmentTexture presets moods
         onEnvironmentMapUpdated strength blurriness rotation fallbackColor pmremGenerator
         cache currentPreset environmentRenderTarget rotationRenderTarget scene clearColor
         next_id disposed effects negb orb].
    rewrite orb_true_r. cbn [orb].
    unfold unlit, gpu_untouched. cbn. repeat split; assumption.
Qed.

(** X21: a disabled controller stays dark.  After [setEnabled(false)], and
    through any further calls other than [setEnabled(true)] and [dispose()],
    the scene has no environment map and no background, its environment
    intensity is 0, the renderer clears to the current fallback colour, and
    the GPU side is left exactly as it was: nothing is disposed, and the
    render targets of the environment shown before are kept. *)
Theorem disabled_environment_stays_dark (ks : list env_call) (c : controller) :
  forallb keeps_disabled ks = true ->
  unlit (env_run ks (setEnabled false c))
  /\ gpu_untouched c (env_run ks (setEnabled false c)).
Proof.
  intros Hks.
  assert (H : unlit (setEnabled false c) /\ gpu_untouched c (setEnabled false c)).
  { unfold setEnabled. apply derive_disabled; [| apply gpu_untouched_same];
      destruct c; reflexivity. }
  revert H. generalize (setEnabled false c). intros c1.
  revert c1. induction ks as [| k ks IH]; intros c1 [D G]; [split; assumption |].
  cbn [forallb] in Hks. apply andb_true_iff in Hks. destruct Hks as [Hk Hks].
  cbn [env_run fold_left]. apply (IH Hks).
  destruct (env_step_dark k c1 Hk D) as [D' G'].
  split; [exact D' | eapply gpu_untouched_trans; eassumption].
Qed.


Lemma disabled_environment_stays_dark_witness :
  unlit (env_run [SetStrength (Some (lit 2)); SetFallbackColor (Some "#202020"%string)]
           (setEnabled false TeardownSpec.viewer_loaded)).
Proof.
  apply (disabled_environment_stays_dark
           [SetStrength (Some (lit 2)); SetFallbackColor (Some "#202020"%string)]
           TeardownSpec.viewer_loaded).
  reflexivity.
Defined.

Lemma current_is_cached_same c c' :
  cache c' = cache c -> currentPreset c' = currentPreset c ->
  currentEnvironmentTexture c' = currentEnvironmentTexture c ->
  current_is_cached c -> current_is_cached c'.
Proof. unfold current_is_cached. intros -> -> ->. auto. Qed.

Lemma current_is_cached_applyEnvironment c :
  current_is_cached c -> current_is_cached (_applyEnvironment c).
Proof.
  pose proof (settings_applyEnvironment c) as Hs. apply settings_eq in Hs.
  destruct Hs as (_ & _ & _ & _ & _ & _ & _ & Hc & Hp & Ht & _).
  apply current_is_cached_same; assumption.
Qed.

Lemma current_is_cached_load c p t :
  current_is_cached (set_currentEnvironmentTexture (Some t)
                       (set_currentPreset (Some p) (set_cache (<[p := t]> (cache c)) c))).
Proof.
  destruct c. unfold current_is_cached. cbn. intros t' [= <-].
  exists p. split; [reflexivity | apply lookup_insert_Some; left; auto].
Qed.

Lemma env_step_current_is_cached k c :
  current_is_cached c -> current_is_cached (env_step k c).
Proof.
  intros Q.
  assert (Hresume : forall p ldr o, current_is_cached (snd (setPreset_resume p ldr o c))).
  { intros p ldr o. unfold setPreset_resume, setPreset_catch.
    destruct o as [[t |] | err]; cbn [snd];
      [| revert Q; apply current_is_cached_same; destruct c; reflexivity ..].
    unfold alloc. cbv beta iota zeta. cbn [snd].
    apply current_is_cached_applyEnvironment.
    match goal with |- current_is_cached
        (set_currentEnvironmentTexture (Some ?t') (set_currentPreset _ (set_cache _ ?c1))) =>
      apply (current_is_cached_load c1 p t') end. }
  destruct k; cbn [env_step].
  - unfold setPreset, setPreset_start.
    destruct preset as [p |]; [| exact Q].
    destruct (if truthy_string p then presets c !! p else None) as [config |]; [| exact Q].
    destruct (if bool_decide (currentPreset c = Some p) then cache c !! p else None)
      as [t |] eqn:Hc.
    + cbn [snd]. apply current_is_cached_applyEnvironment.
      case_bool_decide as Hp; [| discriminate].
      destruct c. unfold current_is_cached. cbn in *. intros t' [= <-]. eauto.
    + destruct (load_request config) as [err | [url ldr]].
      * unfold setPreset_catch. cbn [snd].
        revert Q; apply current_is_cached_same; destruct c; reflexivity.
      * apply Hresume.
  - apply Hresume.
  - apply current_is_cached_applyEnvironment.
    revert Q; apply current_is_cached_same; destruct c; reflexivity.
  - apply current_is_cached_applyEnvironment.
    revert Q; apply current_is_cached_same; destruct c; reflexivity.
  - apply current_is_cached_applyEnvironment.
    revert Q; apply current_is_cached_same; destruct c; reflexivity.
  - apply current_is_cached_applyEnvironment.
    revert Q; apply current_is_cached_same; destruct c; reflexivity.
  - unfold setRotation. case_bool_decide; [exact Q |].
    apply current_is_cached_applyEnvironment.
    revert Q; apply current_is_cached_same; destruct c; reflexivity.
  - unfold setFallbackColor. cbv zeta.
    match goal with |- context [if ?b then _ else _] => destruct b end;
      revert Q; apply current_is_cached_same; destruct c; reflexivity.
  - revert Q. apply current_is_cached_same;
      destruct c as [pr mo cb en bg st bl ro fc [g |] ca cp ct [ert |] [rrt |] sc cc ni d fx];
      reflexivity.
Qed.

(** X22: the current texture is always the cache entry of the current
    preset.  However the calls and the completions of pending loads
    interleave, whenever the controller has a current environment texture
    it also has a current preset, and the cache holds that very texture
    under it. *)
Theorem current_texture_is_the_cached_preset
    (sc : sceneGraph) (pr : gmap string preset_config) (mo : gmap string string)
    (ip : option string) (en bg : bool) (st bl ro : num) (fc : string) (cb : bool)
    (ks : list env_call) (t : texture) :
  currentEnvironmentTexture (env_run ks (constructor sc pr mo ip en bg st bl ro fc cb))
  = Some t ->
  exists p,
    currentPreset (env_run ks (constructor sc pr mo ip en bg st bl ro fc cb)) = Some p
    /\ cache (env_run ks (constructor sc pr mo ip en bg st bl ro fc cb)) !! p = Some t.
Proof.
  revert t. change (current_is_cached (env_run ks (constructor sc pr mo ip en bg st bl ro fc cb))).
  assert (H : current_is_cached (constructor sc pr mo ip en bg st bl ro fc cb))
    by (intros t; discriminate).
  revert H. generalize (constructor sc pr mo ip en bg st bl ro fc cb).
  induction ks as [| k ks IH]; intros c Q; [exact Q |].
  cbn [env_run fold_left]. apply IH, env_step_current_is_cached, Q.
Qed.

Lemma current_texture_is_the_cached_preset_witness :
  exists p,
    currentPreset (env_run [load_studio; SetRotation (Some (lit 90))] TeardownSpec.viewer)
    = Some p
    /\ cache (env_run [load_studio; SetRotation (Some (lit 90))] TeardownSpec.viewer) !! p
       = Some studio_loaded.
Proof.
  apply (current_texture_is_the_cached_preset
           (SceneGraph None 1 None true 0 1)
           {[ "studio"%string := ConfigUrl "hdri/studio.hdr" ]}
           {[ "studio"%string := "neutral"%string ]}
           None true true 1 0 0 "#000000" false
           [load_studio; SetRotation (Some (lit 90))] studio_loaded).
  vm_compute. reflexivity.
Defined.

(** X23: [setPreset] is all or nothing.  Either it returns null and has
    changed nothing but the console, where it has logged at most one error,
    or the preset is now current, its texture is cached and current, only
    that cache slot was written, and the preset's mood is returned. *)
Theorem setPreset_is_all_or_nothing
    (preset : option string) (outcome : load_outcome) (c : controller) :
  (fst (setPreset preset outcome c) = None
   /\ settings (snd (setPreset preset outcome c)) = settings c
   /\ scene (snd (setPreset preset outcome c)) = scene c
   /\ clearColor (snd (setPreset preset outcome c)) = clearColor c
   /\ next_id (snd (setPreset preset outcome c)) = next_id c
   /\ gpu_untouched c (snd (setPreset preset outcome c))
   /\ (effects (snd (setPreset preset outcome c)) = effects c
       \/ exists msg p, effects (snd (setPreset preset outcome c))
                        = effects c ++ [ConsoleError msg p]))
  \/ (exists p t,
        preset = Some p /\ is_Some (presets c !! p)
        /\ fst (setPreset preset outcome c) = moods c !! p
        /\ currentPreset (snd (setPreset preset outcome c)) = Some p
        /\ cache (snd (setPreset preset outcome c)) !! p = Some t
        /\ currentEnvironmentTexture (snd (setPreset preset outcome c)) = Some t
        /\ forall q, q <> p ->
             cache (snd (setPreset preset outcome c)) !! q = cache c !! q).
Proof.
  assert (Hnone : fst (@None string, c) = None /\ settings (snd (@None string, c)) = settings c
            /\ scene (snd (@None string, c)) = scene c
            /\ clearColor (snd (@None string, c)) = clearColor c
            /\ next_id (snd (@None string, c)) = next_id c
            /\ gpu_untouched c (snd (@None string, c))
            /\ (effects (snd (@None string, c)) = effects c
                \/ exists msg p, effects (snd (@None string, c))
                                 = effects c ++ [ConsoleError msg p])).
  { cbn [fst snd]. repeat split. left; reflexivity. }
  assert (Hcatch : forall p err,
            fst (setPreset_catch p err c) = None
            /\ settings (snd (setPreset_catch p err c)) = settings c
            /\ scene (snd (setPreset_catch p err c)) = scene c
            /\ clearColor (snd (setPreset_catch p err c)) = clearColor c
            /\ next_id (snd (setPreset_catch p err c)) = next_id c
            /\ gpu_untouched c (snd (setPreset_catch p err c))
            /\ (effects (snd (setPreset_catch p err c)) = effects c
                \/ exists msg p', effects (snd (setPreset_catch p err c))
                                 = effects c ++ [ConsoleError msg p'])).
  { intros p err. unfold setPreset_catch. cbn [fst snd]. destruct c. cbn.
    repeat split. right. eauto. }
  unfold setPreset, setPreset_start.
  destruct preset as [p |]; [| left; exact Hnone].
  destruct (if truthy_string p then presets c !! p else None) as [config |] eqn:Hcfg;
    [| left; exact Hnone].
  assert (Hknown : is_Some (presets c !! p))
    by (destruct (truthy_string p); [rewrite Hcfg; eauto | discriminate]).
  destruct (if bool_decide (currentPreset c = Some p) then cache c !! p else None)
    as [t |] eqn:Hc.
  - right. exists p, t. cbn [fst snd].
    case_bool_decide as Hp; [| discriminate].
    pose proof (settings_applyEnvironment (set_currentEnvironmentTexture (Some t) c)) as Hs.
    apply settings_eq in Hs.
    destruct Hs as (_ & _ & _ & _ & _ & _ & _ & Hca & Hcp & Hct & _ & Hmo & _).
    rewrite Hmo, Hcp, Hca, Hct. destruct c. cbn in *.
    repeat split; auto.
  - destruct (load_request config) as [err | [url ldr]]; [left; apply Hcatch |].
    change (Some p ?? ""%string) with p.
    unfold setPreset_resume.
    destruct outcome as [[t |] | err]; [| left; apply Hcatch ..].
    right. unfold alloc. cbv beta iota zeta. cbn [fst snd].
    match goal with |- context [_applyEnvironment ?c0] =>
      pose proof (settings_applyEnvironment c0) as Hs; set (c1 := c0) in * end.
    apply settings_eq in Hs.
    destruct Hs as (_ & _ & _ & _ & _ & _ & _ & Hca & Hcp & Hct & _ & Hmo & _).
    rewrite Hmo, Hcp, Hca, Hct. unfold c1. clear c1 Hmo Hcp Hca Hct.
    destruct c. cbn. eexists p, _.
    split; [reflexivity |]. split; [exact Hknown |]. split; [reflexivity |].
    split; [reflexivity |]. split; [apply lookup_insert_Some; left; split; reflexivity |].
    split; [reflexivity |].
    intros q Hq. apply lookup_insert_ne. congruence.
Qed.


Lemma Math_max_nonneg (x : num) : 0 <= Math_max 0 x.
Proof. unfold Math_max. case_decide; [assumption | apply Qcle_refl]. Qed.

Lemma Math_max_id (x : num) : 0 <= x -> Math_max 0 x = x.
Proof. intros H. unfold Math_max. case_decide; [reflexivity | contradiction]. Qed.

Lemma unit_clamp (x : num) : 0 <= Math_min 1 (Math_max 0 x) /\ Math_min 1 (Math_max 0 x) <= 1.
Proof. pose proof (Math_max_nonneg x). case_minmax; split; qc_lra. Qed.

(** X24: strength and blurriness reach the scene clamped.  [setStrength]
    stores a strength that is never negative (a non-negative argument is
    stored as it is), and the scene's environment intensity afterwards is
    that strength when an environment is showing and 0 when not;
    [setBlurriness] stores a blurriness in [0, 1], and when an environment
    is showing in a scene that has the property, the scene's background
    blurriness afterwards lies in [0, 1] as well. *)
Theorem strength_and_blurriness_are_clamped (v : option num) (c : controller) :
  (0 <= strength (setStrength v c)
   /\ (forall x, v = Some x -> 0 <= x -> strength (setStrength v c) = x)
   /\ environmentIntensity (scene (setStrength v c))
      = match (if enabled c then currentEnvironmentTexture c else None) with
        | Some _ => strength (setStrength v c)
        | None => 0
        end)
  /\ (0 <= blurriness (setBlurriness v c) /\ blurriness (setBlurriness v c) <= 1
      /\ (forall t, enabled c = true -> currentEnvironmentTexture c = Some t ->
          has_backgroundBlurriness (scene c) = true ->
          0 <= backgroundBlurriness (scene (setBlurriness v c))
          /\ backgroundBlurriness (scene (setBlurriness v c)) <= 1)).
Proof.
  split.
  - unfold setStrength. set (c0 := set_strength (Math_max 0 (v ?? strength c)) c).
    assert (H0 : strength c0 = Math_max 0 (v ?? strength c)) by (destruct c; reflexivity).
    assert (He : enabled c0 = enabled c) by (destruct c; reflexivity).
    assert (Ht : currentEnvironmentTexture c0 = currentEnvironmentTexture c)
      by (destruct c; reflexivity).
    destruct (applyEnvironment_spec c0) as (([Hs _] & _) & Hpost).
    apply settings_eq in Hs. destruct Hs as (_ & _ & Hst & _).
    rewrite Hst, H0. split; [apply Math_max_nonneg |].
    split; [intros x -> Hx; apply Math_max_id, Hx |].
    rewrite He, Ht in Hpost.
    destruct (if enabled c then currentEnvironmentTexture c else None).
    + destruct Hpost as (Hi & _). rewrite Hi. exact H0.
    + destruct Hpost as (_ & Hi & _). exact Hi.
  - unfold setBlurriness.
    set (c0 := set_blurriness (Math_min 1 (Math_max 0 (v ?? blurriness c))) c).
    assert (H0 : blurriness c0 = Math_min 1 (Math_max 0 (v ?? blurriness c)))
      by (destruct c; reflexivity).
    assert (He : enabled c0 = enabled c) by (destruct c; reflexivity).
    assert (Ht : currentEnvironmentTexture c0 = currentEnvironmentTexture c)
      by (destruct c; reflexivity).
    assert (Hb : scene c0 = scene c) by (destruct c; reflexivity).
    destruct (applyEnvironment_spec c0) as (([Hs _] & _) & Hpost).
    apply settings_eq in Hs. destruct Hs as (_ & _ & _ & Hbl & _).
    destruct (unit_clamp (v ?? blurriness c)) as [Hlo Hhi].
    rewrite Hbl, H0. split; [exact Hlo |]. split; [exact Hhi |].
    intros t Hen Hcur Hhas. rewrite He, Ht, Hen, Hcur in Hpost.
    destruct Hpost as (_ & _ & Hbb). rewrite Hb in Hbb. destruct (Hbb Hhas) as [-> _].
    rewrite H0. destruct (backgroundEnabled c0); [split; assumption |].
    split; [apply Qcle_refl | qc_lra].
Qed.

(** X25: the rotation pass cleans up after itself.  Whatever the source
    texture, the rotation target held before the call is disposed.  Then
    either the size of the texture could not be found, and the source
    texture is returned, no target is held and nothing was created; or three
    resources were created, of which the new target, carrying the returned
    texture, is held and the other two, the material and the quad, are
    disposed. *)
Theorem rotation_pass_cleans_up (src : texture) (deg : num) (c : controller) :
  (forall rt, rotationRenderTarget c = Some rt ->
     rt_id rt ∈ disposed (snd (_createRotatedTexture src deg c)))
  /\ ((fst (_createRotatedTexture src deg c) = src
       /\ rotationRenderTarget (snd (_createRotatedTexture src deg c)) = None
       /\ next_id (snd (_createRotatedTexture src deg c)) = next_id c)
      \/ (rotationRenderTarget (snd (_createRotatedTexture src deg c))
          = Some (RenderTarget (next_id c) (fst (_createRotatedTexture src deg c)))
          /\ tex_id (fst (_createRotatedTexture src deg c)) = next_id c
          /\ next_id (snd (_createRotatedTexture src deg c)) = S (S (S (next_id c)))
          /\ forall r, (next_id c < r < next_id (snd (_createRotatedTexture src deg c)))%nat ->
               r ∈ disposed (snd (_createRotatedTexture src deg c)))).
Proof.
  assert (Hrel : forall rt, rotationRenderTarget c = Some rt ->
            rt_id rt ∈ disposed (release_rotation_target c)).
  { intros rt E. unfold release_rotation_target. rewrite E. destruct c. cbn. set_solver. }
  pose proof (release_rotation_target_none c) as HN.
  pose proof (next_id_release_rotation_target c) as HI.
  destruct (createRotatedTexture_cases src deg c) as [-> | (t & Ht & ->)]; cbn [fst snd].
  - set (c1 := release_rotation_target c) in *. clearbody c1.
    split; [intros rt E; specialize (Hrel rt E); destruct c1; exact Hrel |].
    left. split; [reflexivity |]. destruct c1. split; assumption.
  - rewrite <- HI in *. set (c1 := release_rotation_target c) in *. clearbody c1.
    split; [intros rt E; specialize (Hrel rt E); destruct c1; cbn in *; set_solver |].
    right. destruct c1. cbn in *. split; [reflexivity |]. split; [exact Ht |].
    split; [reflexivity |].
    intros r Hr. rewrite !elem_of_union, !elem_of_singleton.
    destruct (decide (r = S next_id0)); [left; assumption | right; left; lia].
Qed.

Lemma rem_fraction (x : num) : 0 <= x -> x < 1 -> rem x (lit 1.0) = x.
Proof.
  intros H0 H1. assert (E1 : lit 1.0 = 1) by (apply Qc_is_canon; reflexivity).
  rewrite E1. assert (Hm : (0 : Qc) < 1) by qc_lra.
  destruct (rem_nonneg x 1 Hm H0) as [Ha Hb]. destruct (rem_shift x 1) as (k & E).
  apply (wrap_unique _ _ 1 (- k)%Z); trivial.
  rewrite E. unfold ofZ. rewrite inject_Z_opp. generalize (inject_Z k). intros f. qc_lra.
Qed.

(** X26: after [setRotation] the rotation shader is given a fraction of a
    full turn.  When the angle is one that [setRotation] has normalised, the
    rotation pass adds exactly one entry to the log, a warning or a rendered
    quad, and a quad carries the rotation uniform [angle / 360], a number
    in [0, 1), and samples the source texture. *)
Theorem rotation_uniform_is_a_fraction_of_a_turn
    (value : num) (src : texture) (c : controller) :
  exists tail,
    effects (snd (_createRotatedTexture src (normalize value) c)) = effects c ++ tail
    /\ length tail = 1%nat
    /\ forall target source r, In (RenderQuad target source r) tail ->
         r = normalize value / lit 360 /\ 0 <= r /\ r < 1 /\ source = tex_id src.
Proof.
  destruct (env_normalize_range value) as [H0 H1].
  assert (Hf : 0 <= normalize value / lit 360 /\ normalize value / lit 360 < 1).
  { assert (Hne : lit 360 <> 0) by (intros E; pose proof full_turn_pos as P; rewrite E in P;
                                     revert P; qc_lra).
    pose proof (div_mult (normalize value) (lit 360) Hne) as E.
    revert H0 H1 E. generalize (normalize value). intros n.
    generalize (n / lit 360). intros q H0 H1 E.
    split; qc_push; nra. }
  destruct Hf as [Hf0 Hf1].
  assert (Hrel : effects (release_rotation_target c) = effects c).
  { unfold release_rotation_target. destruct (rotationRenderTarget c); destruct c; reflexivity. }
  destruct (createRotatedTexture_cases src (normalize value) c) as [-> | (t & Ht & ->)];
    cbn [fst snd].
  - set (c1 := release_rotation_target c) in *. clearbody c1. destruct c1. cbn in *.
    rewrite Hrel. eexists. split; [reflexivity |]. split; [reflexivity |].
    intros target source r [H | []]. discriminate.
  - rewrite (rem_fraction _ Hf0 Hf1).
    set (c1 := release_rotation_target c) in *. clearbody c1. destruct c1. cbn in *.
    rewrite Hrel. eexists. split; [reflexivity |]. split; [reflexivity |].
    intros target source r [H | []]. injection H as <- <- <-.
    repeat split; assumption.
Qed.

End EnvironmentSessionProps.

(** ** Rounding to the nearest double *)

Module Binary64Props.
Import Binary64 NumProps.

Lemma pow2_pos (e : Z) : 0 < pow2 e.
Proof.
  unfold pow2. qc_push. apply Qpower_0_lt. reflexivity.
Qed.

Lemma pow2_add (a b : Z) : pow2 (a + b) = pow2 a * pow2 b.
Proof.
  unfold pow2. qc_push. apply Qpower_plus. discriminate.
Qed.

Lemma pow2_of_nonneg (e : Z) : (0 <= e)%Z -> pow2 e = ofZ (2 ^ e).
Proof.
  intros H. unfold pow2, ofZ. qc_push. rewrite Zpower_Qpower by exact H. reflexivity.
Qed.

Lemma nearest_even_near (q : num) :
  ofZ (nearest_even q) - lit 0.5 <= q /\ q <= ofZ (nearest_even q) + lit 0.5.
Proof.
  unfold nearest_even.
  pose proof (Qfloor_le (this q)) as Hlo. pose proof (Qlt_floor (this q)) as Hhi.
  rewrite inject_Z_plus in Hhi. change (inject_Z 1) with 1%Q in Hhi.
  set (f := Qfloor q) in *. clearbody f.
  assert (E1 : ofZ (f + 1) = ofZ f + 1).
  { unfold ofZ. qc_push. rewrite inject_Z_plus. reflexivity. }
  repeat case_decide; try destruct (Z.even f); rewrite ?E1; unfold ofZ in *; qc_push;
    try (apply Qnot_lt_le in H); try (apply Qnot_lt_le in H0); split; lra.
Qed.


(** The binade found for a positive number does not overshoot it. *)
Lemma binade_le (a : num) : 0 < a -> pow2 (binade a) <= a.
Proof.
  intros Ha. unfold binade.
  set (n := Qnum (this a)). set (d := Qden (this a)).
  case_decide as H; [exact H |]. clear H.
  assert (Hn : (0 < n)%Z).
  { unfold n. unfold Qclt, Qlt in Ha. change (Qnum (this 0)) with 0%Z in Ha.
    change (Qden (this 0)) with 1%positive in Ha. lia. }
  pose proof (Z.log2_spec n Hn) as [Hn1 _].
  pose proof (Z.log2_spec (Zpos d) (Pos2Z.is_pos d)) as [_ Hd2].
  pose proof (Z.log2_nonneg n) as Hln. pose proof (Z.log2_nonneg (Zpos d)) as Hld.
  set (ln := Z.log2 n) in *. set (ld := Z.log2 (Zpos d)) in *.
  replace (ln - ld - 1)%Z with (ln - Z.succ ld)%Z by lia.
  unfold pow2. unfold Qcle. rewrite this_Q2Qc.
  rewrite Qpower_minus by discriminate.
  rewrite <- (Zpower_Qpower 2 ln) by lia. rewrite <- (Zpower_Qpower 2 (Z.succ ld)) by lia.
  set (A := (2 ^ ln)%Z) in *. set (B := (2 ^ Z.succ ld)%Z) in *.
  assert (HB : (0 < B)%Z) by lia.
  assert (E : this a == inject_Z n / inject_Z (Zpos d)).
  { rewrite <- Qmake_Qdiv. destruct (this a). reflexivity. }
  rewrite E.
  apply Qle_shift_div_l; [change 0%Q with (inject_Z 0); rewrite <- Zlt_Qlt; lia |].
  unfold Qdiv. rewrite <- Qmult_assoc, (Qmult_comm (/ inject_Z B)), Qmult_assoc.
  apply Qle_shift_div_r; [change 0%Q with (inject_Z 0); rewrite <- Zlt_Qlt; lia |].
  rewrite <- !inject_Z_mult, <- Zle_Qle. nia.
Qed.


Lemma pow2_half (e : Z) : pow2 (e - 1) = pow2 e * lit 0.5.
Proof.
  unfold Z.sub. rewrite pow2_add. f_equal; try (apply Qc_is_canon; reflexivity).
Qed.

(** Half a spacing is within the relative error [u64], or, below the
    normal range, within the absolute error [eta64]. *)
Lemma half_ulp (a : num) : 0 < a -> ulp a * lit 0.5 <= u64 * a + eta64.
Proof.
  intros Ha. unfold ulp, u64, eta64.
  pose proof (binade_le a Ha) as Hb. pose proof (pow2_pos (-53)) as Hu.
  pose proof (pow2_pos (-1075)) as He.
  destruct (Z.max_spec (binade a) (-1022)) as [[Hlt ->] | [Hge ->]].
  - change (-1022 - 52)%Z with (-1075 + 1)%Z.
    replace (pow2 (-1075 + 1) * lit 0.5) with (pow2 (-1075)).
    + revert Hu He. generalize (pow2 (-53)), (pow2 (-1075)). intros p q Hu He.
      revert Ha Hu He. qc_nra.
    + rewrite <- pow2_half. reflexivity.
  - replace (binade a - 52)%Z with (binade a + -53 + 1)%Z by lia.
    replace (pow2 (binade a + -53 + 1) * lit 0.5) with (pow2 (binade a + -53))
      by (rewrite <- pow2_half; f_equal; lia).
    rewrite pow2_add.
    revert Hb Hu He. generalize (pow2 (binade a)), (pow2 (-53)), (pow2 (-1075)).
    intros b p q Hb Hu He. revert Hb Hu He Ha. qc_nra.
Qed.

(** The magnitude that [round] gives a positive number. *)
Lemma round_magnitude (a : num) :
  0 < a ->
  0 <= ofZ (nearest_even (a / ulp a)) * ulp a
  /\ a - (u64 * a + eta64) <= ofZ (nearest_even (a / ulp a)) * ulp a
  /\ ofZ (nearest_even (a / ulp a)) * ulp a <= a + (u64 * a + eta64).
Proof.
  intros Ha. pose proof (half_ulp a Ha) as Hh.
  assert (Hq : 0 < ulp a) by apply pow2_pos.
  assert (Hne : ulp a <> 0) by (intros E; rewrite E in Hq; revert Hq; qc_lra).
  pose proof (div_mult a (ulp a) Hne) as E.
  destruct (nearest_even_near (a / ulp a)) as [Hlo Hhi].
  assert (Hk : (0 <= nearest_even (a / ulp a)%Qc)%Z).
  { assert (H0 : 0 <= a / ulp a) by (apply div_ge; [exact Hq | revert Ha; qc_lra]).
    assert (H1 : - lit 1 < ofZ (nearest_even (a / ulp a))) by (revert Hhi H0; qc_lra).
    revert H1. unfold ofZ. qc_push. change (- (1))%Q with (inject_Z (-1)).
    rewrite <- Zlt_Qlt. lia. }
  assert (Hk' : 0 <= ofZ (nearest_even (a / ulp a))).
  { unfold ofZ. qc_push. change 0%Q with (inject_Z 0). rewrite <- Zle_Qle. exact Hk. }
  revert E Hlo Hhi Hk' Hh Hq.
  generalize (ofZ (nearest_even (a / ulp a))), (a / ulp a), (ulp a), (u64 * a + eta64).
  intros k r q e E Hlo Hhi Hk' Hh Hq.
  split; [| split]; qc_nra.
Qed.

Lemma round_0 : round 0 = 0.
Proof. reflexivity. Qed.

Lemma round_nonneg (x : num) : 0 <= x -> 0 <= round x.
Proof.
  intros Hx. unfold round. case_decide as H0; [apply Qcle_refl |].
  rewrite decide_True by exact Hx.
  assert (Ha : 0 < Qcabs x).
  { unfold Qcabs. rewrite decide_True by exact Hx.
    apply Qcle_lt_or_eq in Hx. destruct Hx as [H | H]; [exact H | congruence]. }
  apply (round_magnitude _ Ha).
Qed.

(** The standard model of rounding to nearest: a relative error of at most
    [u64], or an absolute error of at most [eta64] below the normal range. *)
Lemma round_error (x : num) : Qcabs (round x - x) <= u64 * Qcabs x + eta64.
Proof.
  unfold round. case_decide as H0.
  - subst x. pose proof (pow2_pos (-53)) as Hu. pose proof (pow2_pos (-1075)) as He.
    unfold u64, eta64. case_minmax; revert Hu He; qc_nra.
  - assert (Ha : 0 < Qcabs x).
    { unfold Qcabs. case_decide as Hs.
      - apply Qcle_lt_or_eq in Hs. destruct Hs as [H | H]; [exact H | congruence].
      - revert Hs. qc_lra. }
    destruct (round_magnitude _ Ha) as (_ & Hlo & Hhi).
    revert Hlo Hhi.
    generalize (ofZ (nearest_even (Qcabs x / ulp (Qcabs x))) * ulp (Qcabs x)).
    intros m Hlo Hhi.
    assert (Hu : 0 < u64) by apply pow2_pos. assert (He : 0 < eta64) by apply pow2_pos.
    revert Hlo Hhi Hu He Ha. generalize u64, eta64. intros u e.
    unfold Qcabs. repeat case_decide; intros; qc_nra.
Qed.

End Binary64Props.

(** ** The two [setRotation]s in double precision *)

Module RotationRoundedProps.
Import NumProps RemProps.

(** Two numbers less than [m] apart that differ by a multiple of [m] are
    equal. *)
Lemma shift_unique (x y m : num) (k : Z) :
  0 < m -> - m < x - y -> x - y < m -> x = y + m * ofZ k -> x = y.
Proof.
  intros Hm Hlo Hhi E.
  assert (Hk : k = 0%Z).
  { assert (Hlt : (-1 < inject_Z k /\ inject_Z k < 1)%Q).
    { unfold ofZ in E. revert E. generalize (inject_Z k). intros f E.
      split; qc_push; nra. }
    destruct Hlt as [H1 H2].
    change (-1)%Q with (inject_Z (-1)) in H1. change 1%Q with (inject_Z 1) in H2.
    rewrite <- Zlt_Qlt in H1, H2. lia. }
  subst k. rewrite E. clear E. qc_push. change (inject_Z 0) with 0%Q. lra.
Qed.

Lemma rem_nonpos (x m : num) : 0 < m -> x <= 0 -> - m < rem x m /\ rem x m <= 0.
Proof.
  intros Hm Hx. destruct (Qcle_lt_or_eq _ _ Hx) as [H | ->].
  - apply rem_neg; assumption.
  - assert (E : rem 0 m = 0).
    { unfold rem. replace (0 / m) with 0 by (apply Qc_is_canon; reflexivity).
      unfold trunc. rewrite decide_True by apply Qcle_refl.
      match goal with |- context [ofZ ?z] => set (f := ofZ z) end.
      assert (Ef : f = 0) by (apply Qc_is_canon; reflexivity).
      rewrite Ef. qc_lra. }
    rewrite E. split; revert Hm; qc_lra.
Qed.

Lemma ofZ_plus (a b : Z) : ofZ (a + b) = ofZ a + ofZ b.
Proof. unfold ofZ. qc_push. rewrite inject_Z_plus. reflexivity. Qed.

Lemma ofZ_1 : ofZ 1 = 1.
Proof. apply Qc_is_canon. reflexivity. Qed.

(** Adding the modulus leaves the remainder alone, as long as the sign of
    the dividend does not change. *)
Lemma rem_add_nonneg (x m : num) : 0 < m -> 0 <= x -> rem (x + m) m = rem x m.
Proof.
  intros Hm Hx.
  assert (Hxm : 0 <= x + m) by (revert Hm Hx; qc_lra).
  destruct (rem_nonneg x m Hm Hx) as [Ha0 Ha1].
  destruct (rem_nonneg (x + m) m Hm Hxm) as [Hb0 Hb1].
  destruct (rem_shift x m) as (ka & Ea). destruct (rem_shift (x + m) m) as (kb & Eb).
  apply (shift_unique _ _ m (ka - kb + 1)%Z); trivial.
  - revert Ha0 Ha1 Hb0 Hb1. qc_lra.
  - revert Ha0 Ha1 Hb0 Hb1. qc_lra.
  - rewrite Ea, Eb. unfold Z.sub. rewrite !ofZ_plus, ofZ_1.
    replace (ofZ (- kb)) with (- ofZ kb)
      by (unfold ofZ; qc_push; rewrite inject_Z_opp; reflexivity).
    generalize (ofZ ka), (ofZ kb). intros a b. qc_lra.
Qed.

Lemma rem_add_nonpos (x m : num) : 0 < m -> x + m <= 0 -> rem (x + m) m = rem x m.
Proof.
  intros Hm Hxm.
  assert (Hx : x <= 0) by (revert Hm Hxm; qc_lra).
  destruct (rem_nonpos x m Hm Hx) as [Ha0 Ha1].
  destruct (rem_nonpos (x + m) m Hm Hxm) as [Hb0 Hb1].
  destruct (rem_shift x m) as (ka & Ea). destruct (rem_shift (x + m) m) as (kb & Eb).
  apply (shift_unique _ _ m (ka - kb + 1)%Z); trivial.
  - revert Ha0 Ha1 Hb0 Hb1. qc_lra.
  - revert Ha0 Ha1 Hb0 Hb1. qc_lra.
  - rewrite Ea, Eb. unfold Z.sub. rewrite !ofZ_plus, ofZ_1.
    replace (ofZ (- kb)) with (- ofZ kb)
      by (unfold ofZ; qc_push; rewrite inject_Z_opp; reflexivity).
    generalize (ofZ ka), (ofZ kb). intros a b. qc_lra.
Qed.

(** A dividend of magnitude below the modulus is its own remainder. *)
Lemma rem_small (x m : num) : 0 < m -> - m < x -> x < m -> rem x m = x.
Proof.
  intros Hm Hlo Hhi. destruct (rem_shift x m) as (k & E).
  apply (shift_unique _ _ m (- k)%Z); trivial.
  - destruct (Qclt_le_dec x 0) as [Hx | Hx].
    + destruct (rem_neg x m Hm Hx) as [H1 H2]. revert H1 H2 Hlo Hx. qc_lra.
    + destruct (rem_nonneg x m Hm Hx) as [H1 H2]. revert H1 H2 Hhi Hx. qc_lra.
  - destruct (Qclt_le_dec x 0) as [Hx | Hx].
    + destruct (rem_neg x m Hm Hx) as [H1 H2]. revert H1 H2 Hlo Hx. qc_lra.
    + destruct (rem_nonneg x m Hm Hx) as [H1 H2]. revert H1 H2 Hhi Hx. qc_lra.
  - rewrite E.
    replace (ofZ (- k)) with (- ofZ k)
      by (unfold ofZ; qc_push; rewrite inject_Z_opp; reflexivity).
    generalize (ofZ k). intros a. qc_lra.
Qed.

Lemma rem_multiple (m : num) (k : Z) : 0 < m -> rem (m * ofZ k) m = 0.
Proof.
  intros Hm. destruct (rem_shift (m * ofZ k) m) as (j & E).
  apply (shift_unique _ _ m (k - j)%Z); trivial.
  - destruct (Qclt_le_dec (m * ofZ k) 0) as [Hx | Hx].
    + destruct (rem_neg _ m Hm Hx) as [H1 H2]. revert H1 H2. qc_lra.
    + destruct (rem_nonneg _ m Hm Hx) as [H1 H2]. revert H1 H2 Hm. qc_lra.
  - destruct (Qclt_le_dec (m * ofZ k) 0) as [Hx | Hx].
    + destruct (rem_neg _ m Hm Hx) as [H1 H2]. revert H1 H2 Hm. qc_lra.
    + destruct (rem_nonneg _ m Hm Hx) as [H1 H2]. revert H1 H2. qc_lra.
  - rewrite E. unfold Z.sub. rewrite ofZ_plus.
    replace (ofZ (- j)) with (- ofZ j)
      by (unfold ofZ; qc_push; rewrite inject_Z_opp; reflexivity).
    generalize (ofZ k), (ofZ j). intros a b. qc_lra.
Qed.

Section Rounding.

Variable rnd : num -> num.
Variable u eta : num.

(** What the lemmas below assume of the rounding, one assumption at a
    time: zero and 360 are doubles, the rounding keeps the sign, and up to
    720 it is off by at most the fraction [u] of its argument plus [eta]. *)
Local Abbreviation rnd_0 := (rnd 0 = 0).
Local Abbreviation rnd_360 := (rnd (lit 360) = lit 360).
Local Abbreviation rnd_nonneg := (forall x, 0 <= x -> 0 <= rnd x).
Local Abbreviation rnd_error :=
  (forall x, 0 <= x -> x <= lit 720 -> Qcabs (rnd x - x) <= u * x + eta).

Local Abbreviation normalized := (EnvironmentRounded.normalize rnd).

Lemma rig_normalize_rounded (v : num) : LightsRounded.normalize rnd v = normalized v.
Proof. reflexivity. Qed.

(** The sum inside the wrapped angle lies between 0 and 720. *)
Lemma inner_sum_range (v : num) :
  0 <= rem v (lit 360) + lit 360 /\ rem v (lit 360) + lit 360 <= lit 720.
Proof.
  destruct (Qclt_le_dec v 0) as [Hv | Hv].
  - destruct (rem_neg v _ full_turn_pos Hv) as [H1 H2]. revert H1 H2. split; qc_lra.
  - destruct (rem_nonneg v _ full_turn_pos Hv) as [H1 H2]. revert H1 H2. split; qc_lra.
Qed.

Lemma normalize_range (v : num) :
  rnd_nonneg -> 0 <= normalized v /\ normalized v < lit 360.
Proof.
  intros Hnn.
  apply rem_nonneg; [exact full_turn_pos |].
  apply Hnn. apply inner_sum_range.
Qed.

(** The stored angle is a whole number of turns away from the argument, up
    to the one rounding of the sum. *)
Lemma normalize_turns (v : num) :
  0 <= u -> rnd_error ->
  exists n : Z, Qcabs (normalized v - (v - lit 360 * ofZ n)) <= lit 720 * u + eta.
Proof.
  intros Hu Herr. unfold EnvironmentRounded.normalize.
  destruct (inner_sum_range v) as [H0 H1].
  pose proof (Herr _ H0 H1) as He. clear Herr.
  destruct (rem_shift v (lit 360)) as (k1 & E1).
  destruct (rem_shift (rnd (rem v (lit 360) + lit 360)) (lit 360)) as (k2 & E2).
  exists (k1 + k2 - 1)%Z. rewrite E2. rewrite E1 in *.
  unfold Z.sub. rewrite !ofZ_plus.
  change (ofZ (Z.opp 1)) with (Q2Qc (-1)).
  assert (Hp : u * (v - lit 360 * ofZ k1 + lit 360) <= u * lit 720).
  { revert H1 Hu. generalize (v - lit 360 * ofZ k1 + lit 360). intros x. qc_nra. }
  revert He Hp.
  generalize (u * (v - lit 360 * ofZ k1 + lit 360)).
  generalize (rnd (v - lit 360 * ofZ k1 + lit 360)), (ofZ k1), (ofZ k2).
  intros s a b p He Hp. revert He.
  unfold Qcabs. repeat case_decide; intros; qc_lra.
Qed.

Lemma normalize_full_turns (k : Z) : rnd_360 -> normalized (lit 360 * ofZ k) = 0.
Proof.
  intros H360. unfold EnvironmentRounded.normalize.
  rewrite (rem_multiple _ k full_turn_pos).
  replace (0 + lit 360) with (lit 360) by qc_lra.
  rewrite H360.
  replace (lit 360) with (lit 360 * ofZ 1) at 1 by (rewrite ofZ_1; qc_lra).
  apply (rem_multiple _ 1 full_turn_pos).
Qed.

(** A full turn more gives the same stored angle when the argument is not
    between -360 and 0; between them, when the two sums are doubles. *)
Lemma normalize_period (v : num) :
  0 <= v \/ v <= - lit 360
  \/ (rnd (v + lit 360) = v + lit 360
      /\ rnd (v + lit 360 + lit 360) = v + lit 360 + lit 360) ->
  normalized (v + lit 360) = normalized v.
Proof.
  unfold EnvironmentRounded.normalize. intros [H | [H | [H1 H2]]].
  - rewrite (rem_add_nonneg v _ full_turn_pos H). reflexivity.
  - rewrite (rem_add_nonpos v (lit 360) full_turn_pos) by (revert H; qc_lra).
    reflexivity.
  - destruct (Qclt_le_dec v 0) as [Hneg | Hpos];
      [| rewrite (rem_add_nonneg v _ full_turn_pos Hpos); reflexivity].
    destruct (Qclt_le_dec (- lit 360) v) as [Hlo | Hlo];
      [| rewrite (rem_add_nonpos v (lit 360) full_turn_pos) by (revert Hlo; qc_lra);
         reflexivity].
    rewrite (rem_small v (lit 360) full_turn_pos Hlo) by (revert Hneg; qc_lra).
    rewrite (rem_small (v + lit 360) (lit 360) full_turn_pos)
      by (revert Hneg Hlo; qc_lra).
    rewrite H1, H2.
    rewrite (rem_add_nonneg (v + lit 360) _ full_turn_pos) by (revert Hlo; qc_lra).
    reflexivity.
Qed.

Lemma normalize_period_near (v : num) :
  0 <= u -> rnd_error ->
  exists n : Z,
    Qcabs (normalized (v + lit 360) - normalized v - lit 360 * ofZ n)
    <= 2 * (lit 720 * u + eta).
Proof.
  intros Hu Herr.
  destruct (normalize_turns v Hu Herr) as (n1 & H1).
  destruct (normalize_turns (v + lit 360) Hu Herr) as (n2 & H2). clear Herr.
  exists (1 - n2 + n1)%Z. unfold Z.sub. rewrite !ofZ_plus, ofZ_1.
  replace (ofZ (- n2)) with (- ofZ n2)
    by (unfold ofZ; qc_push; rewrite inject_Z_opp; reflexivity).
  revert H1 H2.
  generalize (normalized (v + lit 360)), (normalized v), (ofZ n1), (ofZ n2).
  intros a b p q. unfold Qcabs. repeat case_decide; intros; qc_lra.
Qed.

(** *** The environment *)

Import EnvironmentController.

Lemma rotation_createRotatedTexture_rounded t r c :
  rotation (snd (EnvironmentRounded._createRotatedTexture rnd t r c)) = rotation c.
Proof.
  unfold EnvironmentRounded._createRotatedTexture, alloc. cbv beta iota zeta.
  repeat case_match; cbn [snd]; autorewrite with env_rotation; reflexivity.
Qed.

Lemma rotation_applyEnvironment_rounded c :
  rotation (EnvironmentRounded._applyEnvironment rnd c) = rotation c.
Proof.
  unfold EnvironmentRounded._applyEnvironment.
  destruct (if enabled c then currentEnvironmentTexture c else None) as [current |].
  - set (c1 := match environmentRenderTarget c with
               | Some rt => set_environmentRenderTarget None (gpu_dispose (rt_id rt) c)
               | None => c
               end).
    assert (H1 : rotation c1 = rotation c)
      by (unfold c1; destruct (environmentRenderTarget c); destruct c; reflexivity).
    clearbody c1.
    set (p2 := if bool_decide (rotation c1 <> 0)
               then EnvironmentRounded._createRotatedTexture rnd current (rotation c1) c1
               else (current, c1)).
    assert (H2 : rotation (snd p2) = rotation c).
    { unfold p2. case_bool_decide; [rewrite rotation_createRotatedTexture_rounded |];
        exact H1. }
    clearbody p2. destruct p2 as [sourceTexture c2]. cbn [snd] in H2.
    set (p3 := match pmremGenerator c2 with
               | Some _ =>
                   let '(target, c) := fromEquirectangular sourceTexture c2 in
                   (rt_texture target, set_environmentRenderTarget (Some target) c)
               | None => (sourceTexture, c2)
               end).
    assert (H3 : rotation (snd p3) = rotation c).
    { unfold p3. destruct (pmremGenerator c2); [| exact H2].
      rewrite <- H2. unfold fromEquirectangular, alloc. cbn [snd].
      autorewrite with env_rotation. reflexivity. }
    clearbody p3. destruct p3 as [envTexture c3]. cbn [snd] in H3.
    match goal with |- context [_notifyEnvironmentMapUpdated ?t ?i ?c'] =>
      set (c4 := _notifyEnvironmentMapUpdated t i c')
    end.
    assert (H4 : rotation c4 = rotation c)
      by (unfold c4; rewrite EnvironmentProps.rotation_notify,
            EnvironmentProps.rotation_set_scene; exact H3).
    clearbody c4.
    destruct (backgroundEnabled c4).
    + set (p5 := if bool_decide (rotation c4 <> 0)
                 then EnvironmentRounded._createRotatedTexture rnd current (rotation c4) c4
                 else (current, c4)).
      assert (H5 : rotation (snd p5) = rotation c).
      { unfold p5. case_bool_decide; [rewrite rotation_createRotatedTexture_rounded |];
          exact H4. }
      clearbody p5. destruct p5 as [bgTexture c5]. cbn [snd] in H5.
      rewrite EnvironmentProps.rotation_set_scene. exact H5.
    + rewrite EnvironmentProps.rotation_clear, EnvironmentProps.rotation_set_scene.
      exact H4.
  - rewrite EnvironmentProps.rotation_notify, EnvironmentProps.rotation_clear,
      EnvironmentProps.rotation_set_scene. reflexivity.
Qed.

Lemma env_setRotation_stored_rounded (v : option num) (c : controller) :
  rotation (EnvironmentRounded.setRotation rnd v c) = normalized (v ?? 0).
Proof.
  unfold EnvironmentRounded.setRotation. case_bool_decide as H; [exact H |].
  rewrite rotation_applyEnvironment_rounded. destruct c; reflexivity.
Qed.

Lemma env_setRotation_idempotent_rounded (v : option num) (c : controller) :
  EnvironmentRounded.setRotation rnd v (EnvironmentRounded.setRotation rnd v c)
  = EnvironmentRounded.setRotation rnd v c.
Proof.
  pose proof (env_setRotation_stored_rounded v c) as H.
  unfold EnvironmentRounded.setRotation at 1.
  rewrite bool_decide_eq_true_2 by exact H. reflexivity.
Qed.

(** *** The lighting rig *)

Section Rig.
Import LightsController.

Variable Math_cos Math_sin : num -> num.
Variable DEG2RAD : num.
Variable Vector3_normalize : Vector3 -> Vector3.
Variable setFromUnitVectors : Vector3 -> Vector3 -> Quaternion.

Local Abbreviation rig_setRotation :=
  (LightsRounded.setRotation rnd Math_cos Math_sin DEG2RAD Vector3_normalize
     setFromUnitVectors).
Local Abbreviation rig_updateIndicators :=
  (LightsRounded.updateIndicators rnd Vector3_normalize setFromUnitVectors).
Local Abbreviation turned_rounded :=
  (fun b cos sin => fold_left (LightsRounded.rotate_light rnd b cos sin) [key; fill; rim]).

Lemma turned_rounded_position b cos sin r id :
  position (light_of id (turned_rounded b cos sin r))
  = Vec (rnd (rnd (x (base_of id b) * cos) + rnd (z (base_of id b) * sin)))
        (y (base_of id b))
        (rnd (rnd (- x (base_of id b) * sin) + rnd (z (base_of id b) * cos))).
Proof. destruct id; reflexivity. Qed.

Lemma turned_rounded_twice b cos sin r :
  turned_rounded b cos sin (turned_rounded b cos sin r) = turned_rounded b cos sin r.
Proof. destruct r as [[] [] [] ?]. reflexivity. Qed.

Lemma updateIndicators_rounded_fields c :
  rotation (rig_updateIndicators c) = rotation c
  /\ lights (rig_updateIndicators c) = lights c
  /\ basePositions (rig_updateIndicators c) = basePositions c.
Proof.
  unfold LightsRounded.updateIndicators. destruct (lightIndicators c), (modelBounds c) eqn:E;
    destruct c; cbn in *; repeat split; trivial.
Qed.

Lemma rig_setRotation_rounded_result (v : num) (c : controller) :
  fst (rig_setRotation v c) = normalized v
  /\ rotation (snd (rig_setRotation v c)) = normalized v
  /\ forall b, basePositions c = Some b ->
       lights (snd (rig_setRotation v c))
       = turned_rounded b (Math_cos (LightsRounded.degToRad rnd DEG2RAD (normalized v)))
           (Math_sin (LightsRounded.degToRad rnd DEG2RAD (normalized v))) (lights c).
Proof.
  unfold LightsRounded.setRotation.
  destruct c as [en ma ro sp mb sh li lg [b |]];
    cbn [basePositions set_rotation fst snd].
  - match goal with |- context [rig_updateIndicators ?c'] =>
      destruct (updateIndicators_rounded_fields c') as (Hr & Hl & Hbp)
    end.
    rewrite Hr, Hl.
    cbn [rotation lights basePositions set_lights set_rotation].
    split; [reflexivity |]. split; [reflexivity |].
    intros b' E. injection E as <-. reflexivity.
  - cbn [rotation]. split; [reflexivity |]. split; [reflexivity |]. discriminate.
Qed.

Lemma rig_setRotation_rounded_idempotent (v : num) (c : controller) :
  rig_setRotation v (snd (rig_setRotation v c)) = rig_setRotation v c.
Proof.
  unfold LightsRounded.setRotation.
  destruct c as [en ma ro sp mb sh li lg [b |]];
    cbn [basePositions set_rotation snd lights set_lights rotation]; [| reflexivity].
  set (cs := Math_cos _). set (sn := Math_sin _).
  unfold LightsRounded.updateIndicators.
  cbn [lightIndicators modelBounds set_lights].
  destruct li as [group |], mb as [bd |];
    cbn [basePositions set_rotation snd lights set_lights rotation
         lightIndicators modelBounds set_lightIndicators];
    rewrite ?turned_rounded_twice; try reflexivity.
  rewrite map_map. reflexivity.
Qed.

(** After any number of full turns every directional light is exactly on
    its base position, provided the base position is made of doubles. *)
Lemma rig_setRotation_rounded_full_turns (k : Z) (c : controller) (b : bases)
    (id : lightId) :
  rnd_0 -> rnd_360 ->
  Math_cos 0 = 1 -> Math_sin 0 = 0 ->
  basePositions c = Some b ->
  LightsRounded.representable rnd (base_of id b) ->
  position (light_of id (lights (snd (rig_setRotation (lit 360 * ofZ k) c))))
  = base_of id b.
Proof.
  intros H0 H360 Hcos Hsin Hb (Hx & _ & Hz).
  destruct (rig_setRotation_rounded_result (lit 360 * ofZ k) c) as (_ & _ & Hl).
  rewrite (Hl b Hb), turned_rounded_position, (normalize_full_turns _ H360).
  unfold LightsRounded.degToRad. rewrite Qcmult_0_l, H0, Hcos, Hsin.
  destruct (base_of id b) as [bx by_ bz]. cbn [x y z] in *.
  rewrite !Qcmult_1_r, !Qcmult_0_r, H0, Hx, Hz.
  rewrite Qcplus_0_r, Qcplus_0_l, Hx, Hz. reflexivity.
Qed.

End Rig.

End Rounding.


Lemma round_360 : Binary64.round (lit 360) = lit 360.
Proof. apply Qc_is_canon. vm_compute. reflexivity. Qed.

Lemma round_error_nonneg (x : num) :
  0 <= x -> Qcabs (Binary64.round x - x) <= Binary64.u64 * x + Binary64.eta64.
Proof.
  intros Hx. pose proof (Binary64Props.round_error x) as H.
  replace (Qcabs x) with x in H; [exact H |].
  unfold Qcabs. rewrite decide_True by exact Hx. reflexivity.
Qed.

Lemma studio_bases_representable (id : LightsController.lightId) :
  LightsRounded.representable Binary64.round
    (LightsController.base_of id
       (LightsController.Bases
          (LightsController.Vec (lit 5) (lit 5) (lit 5))
          (LightsController.Vec (- lit 4) (lit 3) (lit 3))
          (LightsController.Vec (- lit 2) (lit 4) (- lit 4)))).
Proof.
  destruct id; repeat split; apply Qc_is_canon; vm_compute; reflexivity.
Qed.



End RotationRoundedProps.

(** ** AutoExposureController in double precision: settling at the target *)

Module AutoExposureRoundedProps.
Import NumProps AutoExposureController AutoExposureRounded.

(** [lra] and [nra] from the named facts alone. *)
Tactic Notation "lra_from" ne_hyp_list(Hs) := revert Hs; clear; qc_lra.
Tactic Notation "nra_from" ne_hyp_list(Hs) := revert Hs; clear; qc_nra.

Lemma abs_le (x e : num) : Qcabs x <= e <-> - e <= x /\ x <= e.
Proof.
  unfold Qcabs. case_decide as H; split.
  - intros Hx. split; lra_from H Hx.
  - intros [_ Hx]. exact Hx.
  - intros Hx. apply Qcnot_le_lt in H. split; lra_from H Hx.
  - intros [Hx _]. revert Hx. qc_lra.
Qed.

(** A product of a factor in [[0, qm]] and a number of magnitude at most
    [D]. *)
Lemma mul_abs_bound (q x qm D : num) :
  0 <= q -> q <= qm -> - D <= x -> x <= D ->
  - (qm * D) <= q * x /\ q * x <= qm * D.
Proof. intros H1 H2 H3 H4. split; qc_nra. Qed.

Section Analysis.

Variable rnd : num -> num.
Variable u eta bound : num.
Hypothesis model : rounding_model rnd u eta bound.

Ltac model_facts :=
  destruct model as ((Hu0 & Hu1) & (He0 & He1) & bound_range & rnd_faithful).

(** A result of magnitude at most [X] is off by at most [u * X + eta]. *)
Lemma rnd_near (x X : num) :
  - X <= x -> x <= X -> X <= bound ->
  x - (u * X + eta) <= rnd x /\ rnd x <= x + (u * X + eta).
Proof.
  model_facts.
  intros Hlo Hhi Hb.
  assert (Hx : Qcabs x <= X) by (apply abs_le; split; assumption).
  assert (Hxb : Qcabs x <= bound) by (lra_from Hx Hb).
  pose proof (rnd_faithful x Hxb) as H. apply abs_le in H. destruct H as [H1 H2].
  assert (Hp : u * Qcabs x <= u * X) by (revert Hx Hu0; generalize (Qcabs x); intros a; qc_nra).
  revert H1 H2 Hp. generalize (u * Qcabs x), (u * X), (rnd x). intros p p' r. qc_lra.
Qed.

(** A result of magnitude at most 1 is off by at most [u + eta]. *)
Lemma rnd_near_1 (x : num) :
  - (1) <= x -> x <= 1 -> x - (u + eta) <= rnd x /\ rnd x <= x + (u + eta).
Proof.
  model_facts.
  intros Hlo Hhi.
  destruct (rnd_near x 1 Hlo Hhi) as [H1 H2]; [lra_from bound_range |].
  revert H1 H2. generalize (rnd x). intros r. split; qc_lra.
Qed.

(** The next smoothed luminance, before the clamp, is nearer to 0.45 than
    the last one by about a third, up to the spread of the sample and four
    roundings. *)
Lemma luminance_step (L avg delta : num) :
  0 <= L -> L <= 1 ->
  Qcabs (avg - lit 0.45) <= delta -> delta <= lit 0.05 ->
  Qcabs (lerp rnd L avg (dbl rnd 0.35) - lit 0.45)
  <= lit 0.66 * Qcabs (L - lit 0.45) + lit 0.36 * delta + lit 4 * (u + eta).
Proof.
  model_facts.
  intros HL0 HL1 Havg Hdelta. unfold lerp, dbl.
  apply abs_le in Havg. destruct Havg as [Ha1 Ha2].
  assert (HD : - Qcabs (L - lit 0.45) <= L - lit 0.45 /\ L - lit 0.45 <= Qcabs (L - lit 0.45))
    by (apply abs_le; apply Qcle_refl).
  destruct HD as [HD1 HD2]. revert HD1 HD2. generalize (Qcabs (L - lit 0.45)). intros D HD1 HD2.
  destruct (rnd_near_1 (lit 0.35)) as [Ht1 Ht2]; [clear; qc_lra | clear; qc_lra |].
  revert Ht1 Ht2. generalize (rnd (lit 0.35)). intros t Ht1 Ht2.
  destruct (rnd_near_1 (1 - t)) as [Hq1 Hq2];
    [lra_from Ht1 Ht2 Hu1 He1 | lra_from Ht1 Ht2 Hu1 He1 Hu0 He0 |].
  revert Hq1 Hq2. generalize (rnd (1 - t)). intros q Hq1 Hq2.
  assert (Hq : 0 <= q /\ q <= lit 0.654) by (split; lra_from Ht1 Ht2 Hq1 Hq2 Hu0 Hu1 He0 He1).
  assert (Ht : 0 <= t /\ t <= lit 0.352) by (split; lra_from Ht1 Ht2 Hu0 Hu1 He0 He1).
  destruct Hq as [Hq0 Hq3]. destruct Ht as [Ht0 Ht3].
  destruct (mul_abs_bound q (L - lit 0.45) (lit 0.654) D Hq0 Hq3 HD1 HD2) as [P1 P2].
  destruct (mul_abs_bound t (avg - lit 0.45) (lit 0.352) delta Ht0 Ht3 Ha1 Ha2) as [P3 P4].
  assert (HqL : 0 <= q * L /\ q * L <= lit 0.654) by (split; nra_from Hq0 Hq3 HL0 HL1).
  assert (Hta : 0 <= t * avg /\ t * avg <= lit 0.2)
    by (split; nra_from Ht0 Ht3 Ha1 Ha2 Hdelta).
  destruct HqL as [HqL0 HqL1]. destruct Hta as [Hta0 Hta1].
  destruct (rnd_near_1 (q * L)) as [HA1 HA2];
    [lra_from HqL0 | lra_from HqL1 |].
  destruct (rnd_near_1 (t * avg)) as [HB1 HB2];
    [lra_from Hta0 | lra_from Hta1 |].
  revert HA1 HA2 HB1 HB2. generalize (rnd (q * L)), (rnd (t * avg)). intros A B HA1 HA2 HB1 HB2.
  destruct (rnd_near_1 (A + B)) as [Hv1 Hv2];
    [lra_from HA1 HB1 HqL0 Hta0 Hu1 He1
    | lra_from HA2 HB2 HqL1 Hta1 Hu1 He1 |].
  revert Hv1 Hv2. generalize (rnd (A + B)). intros v Hv1 Hv2.
  apply abs_le. split.
  - lra_from P1 P3 HA1 HB1 Hv1 Hq1 Hq2 Ht1 Ht2 Hu0 He0 HD1 HD2 Ha1 Ha2.
  - lra_from P2 P4 HA2 HB2 Hv2 Hq1 Hq2 Ht1 Ht2 Hu0 He0 HD1 HD2 Ha1 Ha2.
Qed.


Lemma clamp_nearer (v lo hi c : num) :
  lo <= c -> c <= hi -> Qcabs (clamp v lo hi - c) <= Qcabs (v - c).
Proof. clear. intros H1 H2. case_minmax; qc_lra. Qed.

(** The doubles next to the decimals of the source. *)
Lemma dbl_small (q : Q) :
  0 <= lit q -> lit q <= 1 ->
  lit q - (u + eta) <= dbl rnd q /\ dbl rnd q <= lit q + (u + eta).
Proof.
  intros H0 H1. apply rnd_near_1; [lra_from H0 | exact H1].
Qed.

Lemma dbl_medium (q : Q) :
  0 <= lit q -> lit q <= lit 3 ->
  lit q - (lit 3 * u + eta) <= dbl rnd q /\ dbl rnd q <= lit q + (lit 3 * u + eta).
Proof.
  model_facts. intros H0 H1.
  destruct (rnd_near (lit q) (lit 3)) as [A B];
    [lra_from H0 | exact H1 | lra_from bound_range |].
  unfold dbl. revert A B. generalize (rnd (lit q)). intros r A B.
  split; [lra_from A | lra_from B].
Qed.

(** A quotient [x = tg / L] is near 1 when [tg] is near [L] and [L] is
    not small. *)
Lemma quotient_near_one (x L tg e : num) :
  x * L = tg -> lit 0.26 <= L -> - e <= tg - L -> tg - L <= e ->
  - (lit 4 * e) <= x - 1 /\ x - 1 <= lit 4 * e.
Proof. clear. intros E HL H1 H2. split; qc_nra. Qed.

Section Target.

Variable Math_pow : num -> num -> num.

Lemma targetExposure_range (c : controller) :
  lit 0.498 <= targetExposure rnd Math_pow c
  /\ targetExposure rnd Math_pow c <= lit 2.504.
Proof.
  model_facts. unfold targetExposure, min, max.
  destruct (dbl_small 0.5) as [A1 A2]; [clear; qc_lra | clear; qc_lra |].
  destruct (dbl_medium 2.5) as [B1 B2]; [clear; qc_lra | clear; qc_lra |].
  revert A1 A2 B1 B2. generalize (dbl rnd 0.5), (dbl rnd 2.5). intros mn mx A1 A2 B1 B2.
  destruct (clamp_bounds (rawTargetExposure rnd Math_pow c) mn mx) as [C1 C2];
    [lra_from A2 B1 Hu0 Hu1 He0 He1 |].
  revert C1 C2. generalize (clamp (rawTargetExposure rnd Math_pow c) mn mx).
  intros T C1 C2. split; [lra_from C1 A1 Hu1 He1 | lra_from C2 B2 Hu1 He1].
Qed.

(** The target exposure is as near to 1 as the smoothed luminance is to
    0.45, eight times over, up to eleven roundings. *)
Lemma targetExposure_near (c : controller) (L : num) :
  averageLuminance c = Some L -> 0 <= L -> L <= 1 ->
  Qcabs (targetExposure rnd Math_pow c - 1)
  <= lit 8 * Qcabs (L - lit 0.45) + lit 6 * u + lit 5 * eta.
Proof.
  intros HL HL0 HL1.
  destruct (targetExposure_range c) as [R1 R2].
  model_facts.
  assert (HD : - Qcabs (L - lit 0.45) <= L - lit 0.45 /\ L - lit 0.45 <= Qcabs (L - lit 0.45))
    by (apply abs_le; apply Qcle_refl).
  destruct HD as [HD1 HD2]. revert HD1 HD2. generalize (Qcabs (L - lit 0.45)). intros D HD1 HD2.
  destruct (Qclt_le_dec D (lit 0.19)) as [Hnear | Hfar].
  - unfold targetExposure, rawTargetExposure, luminance. rewrite HL. cbn [nullish default from_option id].
    unfold brightThreshold, target, min, max.
    destruct (dbl_small 0.05) as [A1 A2]; [clear; qc_lra | clear; qc_lra |].
    destruct (dbl_medium 1.2) as [B1 B2]; [clear; qc_lra | clear; qc_lra |].
    destruct (dbl_small 0.65) as [C1 C2]; [clear; qc_lra | clear; qc_lra |].
    destruct (dbl_small 0.45) as [T1 T2]; [clear; qc_lra | clear; qc_lra |].
    destruct (dbl_small 0.5) as [M1 M2]; [clear; qc_lra | clear; qc_lra |].
    destruct (dbl_medium 2.5) as [N1 N2]; [clear; qc_lra | clear; qc_lra |].
    rewrite (clamp_id L);
      [| lra_from A2 HD1 Hnear Hu1 He1 | lra_from B1 HD2 Hnear Hu1 He1].
    rewrite decide_False by (apply Qcle_not_lt; lra_from C1 HD2 Hnear Hu1 He1).
    revert T1 T2 M1 M2 N1 N2.
    generalize (dbl rnd 0.45), (dbl rnd 0.5), (dbl rnd 2.5).
    intros tg mn mx T1 T2 M1 M2 N1 N2.
    assert (HLne : L <> 0) by (intros E; rewrite E in HD1; lra_from HD1 Hnear).
    pose proof (div_mult tg L HLne) as E.
    revert E. generalize (tg / L). intros x E.
    destruct (quotient_near_one x L tg (D + (u + eta)) E) as [Q1 Q2];
      [lra_from HD1 Hnear | lra_from T1 HD2 | lra_from T2 HD1 |].
    destruct (rnd_near x (lit 2)) as [X1 X2];
      [lra_from Q1 Hnear Hu1 He1 | lra_from Q2 Hnear Hu1 He1 | lra_from bound_range |].
    revert X1 X2. generalize (rnd x). intros raw X1 X2.
    eapply Qcle_trans; [apply clamp_nearer; [lra_from M2 Hu1 He1 | lra_from N1 Hu1 He1] |].
    apply abs_le. split; [lra_from X1 Q1 Hu0 He0 HD1 HD2 | lra_from X2 Q2 Hu0 He0 HD1 HD2].
  - revert R1 R2. generalize (targetExposure rnd Math_pow c). intros T R1 R2.
    apply abs_le. split; [lra_from R1 Hfar Hu0 He0 | lra_from R2 Hfar Hu0 He0].
Qed.

(** The next auto value is nearer to 1 than the last one by about an
    eighth, as far as the target exposure allows. *)
Lemma exposure_step (a T : num) :
  lit 0.498 <= T -> T <= lit 2.504 -> Qcabs a + 1 <= bound ->
  Qcabs (lerp rnd a T (smooth rnd) - 1)
  <= lit 0.886 * Qcabs (a - 1) + lit 0.122 * Qcabs (T - 1) + lit 5 * u + lit 4 * eta.
Proof.
  intros HT1 HT2 Hab. unfold lerp, smooth. model_facts.
  assert (Ha : - Qcabs a <= a /\ a <= Qcabs a) by (apply abs_le; apply Qcle_refl).
  assert (Ha0 : 0 <= Qcabs a) by apply Qcabs_nonneg.
  assert (Hae : Qcabs a <= Qcabs (a - 1) + 1) by (clear; case_minmax; qc_lra).
  assert (He : - Qcabs (a - 1) <= a - 1 /\ a - 1 <= Qcabs (a - 1))
    by (apply abs_le; apply Qcle_refl).
  assert (Hd : - Qcabs (T - 1) <= T - 1 /\ T - 1 <= Qcabs (T - 1))
    by (apply abs_le; apply Qcle_refl).
  destruct Ha as [Ha1 Ha2]. destruct He as [Hx1 Hx2]. destruct Hd as [Hd1 Hd2].
  revert Hab Ha0 Ha1 Ha2 Hae Hx1 Hx2 Hd1 Hd2.
  generalize (Qcabs a), (Qcabs (a - 1)), (Qcabs (T - 1)).
  intros m e d Hab Ha0 Ha1 Ha2 Hae Hx1 Hx2 Hd1 Hd2.
  destruct (dbl_small 0.12) as [Hs1 Hs2]; [clear; qc_lra | clear; qc_lra |].
  revert Hs1 Hs2. generalize (dbl rnd 0.12). intros s Hs1 Hs2.
  destruct (rnd_near_1 (1 - s)) as [Hq1 Hq2];
    [lra_from Hs1 Hs2 Hu1 He1 | lra_from Hs1 Hs2 Hu1 He1 Hu0 He0 |].
  revert Hq1 Hq2. generalize (rnd (1 - s)). intros q Hq1 Hq2.
  assert (Hq : 0 <= q /\ q <= lit 0.884)
    by (split; lra_from Hs1 Hs2 Hq1 Hq2 Hu0 Hu1 He0 He1).
  assert (Hs : 0 <= s /\ s <= lit 0.122) by (split; lra_from Hs1 Hs2 Hu0 Hu1 He0 He1).
  destruct Hq as [Hq0 Hq3]. destruct Hs as [Hs0 Hs3].
  destruct (mul_abs_bound q (a - 1) (lit 0.884) e Hq0 Hq3 Hx1 Hx2) as [P1 P2].
  destruct (mul_abs_bound s (T - 1) (lit 0.122) d Hs0 Hs3 Hd1 Hd2) as [P3 P4].
  assert (Hqa : - (lit 0.884 * m) <= q * a /\ q * a <= lit 0.884 * m)
    by (split; nra_from Hq0 Hq3 Ha1 Ha2 Ha0).
  assert (HsT : 0 <= s * T /\ s * T <= lit 0.31)
    by (split; nra_from Hs0 Hs3 HT1 HT2).
  destruct Hqa as [Hqa1 Hqa2]. destruct HsT as [HsT1 HsT2].
  assert (Hum : 0 <= u * m /\ u * m <= u * e + u /\ u * e <= lit 0.001 * e
                /\ u * m <= lit 0.001 * m)
    by (split; [| split; [| split]]; nra_from Hu0 Hu1 Ha0 Hae Hx1 Hx2).
  destruct Hum as (Hum0 & Hum1 & Hum2 & Hum3).
  destruct (rnd_near (q * a) m) as [HA1 HA2];
    [lra_from Hqa1 Ha0 | lra_from Hqa2 Ha0 | lra_from Hab |].
  destruct (rnd_near_1 (s * T)) as [HB1 HB2]; [lra_from HsT1 | lra_from HsT2 |].
  revert HA1 HA2 HB1 HB2. generalize (rnd (q * a)), (rnd (s * T)).
  intros A B HA1 HA2 HB1 HB2.
  destruct (rnd_near (A + B) (m + 1)) as [Hv1 Hv2];
    [lra_from HA1 HB1 Hqa1 HsT1 Hum0 Hum3 Hu1 He1 Ha0
    | lra_from HA2 HB2 Hqa2 HsT2 Hum0 Hum3 Hu1 He1 Ha0
    | exact Hab |].
  revert Hv1 Hv2. generalize (rnd (A + B)). intros v Hv1 Hv2.
  replace (u * (m + 1)) with (u * m + u) in Hv1, Hv2 by (clear; qc_lra).
  revert Hum0 Hum1 Hum2 HA1 HA2 Hv1 Hv2. generalize (u * m), (u * e).
  intros um ue Hum0 Hum1 Hum2 HA1 HA2 Hv1 Hv2.
  apply abs_le. split.
  - lra_from P1 P3 HA1 HB1 Hv1 Hq1 Hq2 Hs1 Hs2 Hu0 He0 Hx1 Hx2 Hd1 Hd2 Hum0 Hum1 Hum2.
  - lra_from P2 P4 HA2 HB2 Hv2 Hq1 Hq2 Hs1 Hs2 Hu0 He0 Hx1 Hx2 Hd1 Hd2 Hum0 Hum1 Hum2.
Qed.

(** The target exposure reads nothing of the state but the smoothed
    luminance. *)
Lemma targetExposure_reads_luminance (c1 c2 : controller) :
  averageLuminance c1 = averageLuminance c2 ->
  targetExposure rnd Math_pow c1 = targetExposure rnd Math_pow c2.
Proof.
  clear. intros H. unfold targetExposure, rawTargetExposure, luminance.
  rewrite H. reflexivity.
Qed.

(** One frame of a controller that samples: the new smoothed luminance and
    the new auto value. *)
Lemma update_sampled (c : controller) (pixels : list Byte.byte) :
  enabled c = true -> renderer c = true -> luminanceRenderTarget c = true ->
  length pixels = length (luminanceBuffer c) ->
  exists c',
    update rnd Math_pow false (PixelsRead pixels) c = Normal c'
    /\ enabled c' = true /\ renderer c' = true /\ luminanceRenderTarget c' = true
    /\ length (luminanceBuffer c') = length (luminanceBuffer c)
    /\ averageLuminance c'
       = Some (clamp (lerp rnd (averageLuminance c ?? average rnd pixels)
                        (average rnd pixels) (dbl rnd 0.35)) 0 1)
    /\ autoExposureValue c'
       = Some (lerp rnd (autoExposureValue c ?? targetExposure rnd Math_pow c')
                 (targetExposure rnd Math_pow c') (smooth rnd)).
Proof.
  clear. intros He Hr Ht Hlen.
  destruct c as [re pa cb en ma cu au lt buf av eff].
  cbn [enabled renderer luminanceRenderTarget luminanceBuffer] in He, Hr, Ht, Hlen.
  subst en re lt.
  unfold update, sampleSceneLuminance.
  cbn [luminanceRenderTarget renderer negb orb emit try_catch luminanceBuffer
       set_luminanceBuffer set_averageLuminance averageLuminance exposurePass
       onExposureChange enabled manualExposure currentExposure autoExposureValue effects].
  rewrite (AutoExposureProps.write_pixels_full buf pixels Hlen).
  set (L' := clamp _ 0 1).
  unfold applyAutoExposure.
  cbn [enabled negb set_autoExposureValue autoExposureValue renderer exposurePass
       onExposureChange manualExposure currentExposure luminanceRenderTarget
       luminanceBuffer averageLuminance effects].
  match goal with |- context [targetExposure rnd Math_pow ?c0] =>
    set (T := targetExposure rnd Math_pow c0);
    assert (HT : forall c1, averageLuminance c1 = Some L' ->
                            targetExposure rnd Math_pow c1 = T)
      by (intros c1 H1; apply targetExposure_reads_luminance; rewrite H1; reflexivity)
  end.
  clearbody T.
  eexists. split; [reflexivity |].
  unfold setExposure.
  cbn [set_currentExposure exposurePass onExposureChange enabled manualExposure
       currentExposure autoExposureValue luminanceRenderTarget luminanceBuffer
       averageLuminance effects renderer].
  destruct pa, cb;
    cbn [set_uniform emit enabled renderer luminanceRenderTarget luminanceBuffer
         averageLuminance autoExposureValue exposurePass onExposureChange
         manualExposure currentExposure effects];
    rewrite HT by reflexivity; repeat (split; [reflexivity |]);
    (split; [exact Hlen |]); split; reflexivity.
Qed.

(** The first frame brings any enabled controller that samples into the
    settling regime. *)
Lemma first_frame (c : controller) (delta : num) (pixels : list Byte.byte) :
  enabled c = true -> renderer c = true -> luminanceRenderTarget c = true ->
  start_error c + lit 8 <= bound ->
  near_target rnd delta c pixels ->
  exists c',
    update rnd Math_pow false (PixelsRead pixels) c = Normal c'
    /\ length (luminanceBuffer c') = length (luminanceBuffer c)
    /\ settling (lit 0.89 * (start_error c + lit 4)) c'.
Proof.
  intros He Hr Ht Hstart [Hlen _].
  destruct (update_sampled c pixels He Hr Ht Hlen)
    as (c' & Hu & He' & Hr' & Ht' & Hlen' & HL & Ha).
  exists c'. split; [exact Hu |]. split; [exact Hlen' |].
  split; [exact He' |]. split; [exact Hr' |]. split; [exact Ht' |].
  destruct (targetExposure_range c') as [R1 R2].
  revert HL Ha R1 R2. generalize (targetExposure rnd Math_pow c').
  generalize (lerp rnd (averageLuminance c ?? average rnd pixels)
                (average rnd pixels) (dbl rnd 0.35)).
  intros v T HL Ha R1 R2.
  eexists _, _. split; [exact HL |]. split; [exact Ha |].
  destruct (clamp_bounds v 0 1) as [C0 C1]; [clear; qc_lra |].
  split; [exact C0 |]. split; [exact C1 |].
  assert (HD : Qcabs (clamp v 0 1 - lit 0.45) <= lit 0.55).
  { revert C0 C1. generalize (clamp v 0 1). intros L C0 C1.
    apply abs_le. split; [lra_from C0 | lra_from C1]. }
  revert HD. generalize (Qcabs (clamp v 0 1 - lit 0.45)). intros D HD.
  assert (Hd : Qcabs (T - 1) <= lit 1.504)
    by (apply abs_le; split; [lra_from R1 | lra_from R2]).
  model_facts.
  unfold start_error in *. destruct (autoExposureValue c) as [a |]; cbn [nullish default from_option id].
  - assert (Hab : Qcabs a + 1 <= bound).
    { revert Hstart. clear. case_minmax; qc_lra. }
    pose proof (exposure_step a T R1 R2 Hab) as Hs.
    revert Hs Hd. generalize (lerp rnd a T (smooth rnd)), (Qcabs (T - 1)).
    intros a' d Hs Hd. revert Hs.
    pose proof (Qcabs_nonneg (a - 1)) as He0'. revert He0'.
    generalize (Qcabs (a' - 1)), (Qcabs (a - 1)). intros e' e He0' Hs.
    lra_from Hs Hd HD Hu0 Hu1 He0 He1 He0'.
  - assert (Hab : Qcabs T + 1 <= bound).
    { revert R1 R2 bound_range. clear. case_minmax; qc_lra. }
    pose proof (exposure_step T T R1 R2 Hab) as Hs.
    revert Hs Hd. generalize (lerp rnd T T (smooth rnd)), (Qcabs (T - 1)).
    intros a' d Hs Hd. revert Hs.
    generalize (Qcabs (a' - 1)). intros e' Hs.
    lra_from Hs Hd HD Hu0 Hu1 He0 He1.
Qed.

(** Every further frame shrinks the excess over the margin by the factor
    0.89. *)
Lemma next_frame (c : controller) (delta P : num) (pixels : list Byte.byte) :
  0 <= delta -> delta <= lit 0.05 -> 0 <= P ->
  margin delta u eta + P + lit 2 <= bound ->
  settling (margin delta u eta + P) c ->
  near_target rnd delta c pixels ->
  exists c',
    update rnd Math_pow false (PixelsRead pixels) c = Normal c'
    /\ length (luminanceBuffer c') = length (luminanceBuffer c)
    /\ settling (margin delta u eta + lit 0.89 * P) c'.
Proof.
  intros Hd0 Hd1 HP Hb (He & Hr & Ht & L & a & HL & Ha & HL0 & HL1 & HW) [Hlen Havg].
  destruct (update_sampled c pixels He Hr Ht Hlen)
    as (c' & Hu & He' & Hr' & Ht' & Hlen' & HL' & Ha').
  exists c'. split; [exact Hu |]. split; [exact Hlen' |].
  split; [exact He' |]. split; [exact Hr' |]. split; [exact Ht' |].
  rewrite HL in HL'. rewrite Ha in Ha'. cbn [nullish default from_option id] in HL', Ha'.
  pose proof (luminance_step L (average rnd pixels) delta HL0 HL1 Havg Hd1) as SL.
  revert HL' SL. generalize (lerp rnd L (average rnd pixels) (dbl rnd 0.35)).
  intros v HL' SL.
  destruct (clamp_bounds v 0 1) as [C0 C1]; [clear; qc_lra |].
  pose proof (clamp_nearer v 0 1 (lit 0.45)) as CN.
  assert (SL' : Qcabs (clamp v 0 1 - lit 0.45)
                <= lit 0.66 * Qcabs (L - lit 0.45) + lit 0.36 * delta + lit 4 * (u + eta)).
  { eapply Qcle_trans; [apply CN; clear; qc_lra | exact SL]. }
  clear CN SL.
  revert HL' C0 C1 SL'. generalize (clamp v 0 1). intros L' HL' C0 C1 SL'.
  destruct (targetExposure_range c') as [R1 R2].
  pose proof (targetExposure_near c' L' HL' C0 C1) as ST.
  revert Ha' R1 R2 ST. generalize (targetExposure rnd Math_pow c'). intros T Ha' R1 R2 ST.
  exists L', (lerp rnd a T (smooth rnd)).
  split; [exact HL' |]. split; [exact Ha' |]. split; [exact C0 |]. split; [exact C1 |].
  pose proof (Qcabs_nonneg (a - 1)) as E0. pose proof (Qcabs_nonneg (L - lit 0.45)) as D0.
  assert (Hab : Qcabs a + 1 <= bound).
  { assert (Hae : Qcabs a <= Qcabs (a - 1) + 1) by (clear; case_minmax; qc_lra).
    lra_from Hae HW D0 Hb. }
  pose proof (exposure_step a T R1 R2 Hab) as SA.
  model_facts.
  revert SA ST SL' HW E0 D0.
  generalize (Qcabs (lerp rnd a T (smooth rnd) - 1)), (Qcabs (T - 1)),
    (Qcabs (L' - lit 0.45)), (Qcabs (a - 1)), (Qcabs (L - lit 0.45)).
  intros e' d D' e D SA ST SL' HW E0 D0.
  unfold margin in *.
  lra_from SA ST SL' HW E0 D0 Hu0 He0 Hd0 HP.
Qed.

Lemma near_target_length (c c' : controller) (delta : num) (pixels : list Byte.byte) :
  length (luminanceBuffer c') = length (luminanceBuffer c) ->
  near_target rnd delta c pixels -> near_target rnd delta c' pixels.
Proof. clear. unfold near_target. intros ->. trivial. Qed.

Lemma settling_weaken (W W' : num) (c : controller) :
  W <= W' -> settling W c -> settling W' c.
Proof.
  clear. intros HW (He & Hr & Ht & L & a & HL & Ha & H0 & H1 & H).
  split; [exact He |]. split; [exact Hr |]. split; [exact Ht |].
  exists L, a. repeat (split; [assumption |]).
  eapply Qcle_trans; [exact H | exact HW].
Qed.

(** A run of frames after the first. *)
Lemma settle_run (delta : num) (frames : list (list Byte.byte)) :
  0 <= delta -> delta <= lit 0.05 ->
  forall (c : controller) (P : num),
    0 <= P -> margin delta u eta + P + lit 2 <= bound ->
    settling (margin delta u eta + P) c ->
    Forall (near_target rnd delta c) frames ->
    exists c',
      updates rnd Math_pow frames c = Normal c'
      /\ settling (margin delta u eta + lit 0.89 ^ length frames * P) c'.
Proof.
  intros Hd0 Hd1. induction frames as [| pixels frames IH]; intros c P HP Hb Hs Hall.
  - exists c. split; [reflexivity |]. cbn [length Qcpower].
    eapply settling_weaken; [| exact Hs]. clear. qc_lra.
  - inversion Hall as [| ? ? Hpx Hrest]; subst.
    destruct (next_frame c delta P pixels Hd0 Hd1 HP Hb Hs Hpx) as (c1 & Hu & Hlen & Hs1).
    destruct (IH c1 (lit 0.89 * P)) as (c' & Hr & Hs').
    + lra_from HP.
    + lra_from HP Hb.
    + exact Hs1.
    + eapply Forall_impl; [exact Hrest |]. intros px. apply near_target_length, Hlen.
    + exists c'. split; [cbn [updates]; rewrite Hu; exact Hr |].
      eapply settling_weaken; [| exact Hs']. cbn [length Qcpower].
      generalize (lit 0.89 ^ length frames). intros p. clear. qc_lra.
Qed.

End Target.

End Analysis.

(** The decay factor 0.89 and Bernoulli's bound for it. *)
Lemma decay89_range (n : nat) : 0 <= lit 0.89 ^ n /\ lit 0.89 ^ n <= 1.
Proof.
  induction n as [| n [IH0 IH1]]; cbn [Qcpower].
  - split; qc_lra.
  - revert IH0 IH1. generalize (lit 0.89 ^ n). intros p H0 H1. split; qc_lra.
Qed.

Lemma decay89_bound (n : nat) :
  lit 0.89 ^ n * (lit 89 + lit 11 * AutoExposureSpec.natQ n) <= lit 89.
Proof.
  induction n as [| n IH].
  - cbn [Qcpower]. change (AutoExposureSpec.natQ 0) with (0 : Qc). qc_lra.
  - pose proof (decay89_range n) as [H0 _].
    pose proof (AutoExposureProps.natQ_nonneg n) as Hn.
    rewrite AutoExposureProps.natQ_S. cbn [Qcpower]. revert IH H0 Hn.
    generalize (lit 0.89 ^ n), (AutoExposureSpec.natQ n). intros p k IH H0 Hn. qc_nra.
Qed.

Lemma decay89_vanishes (K eps : num) :
  0 <= K -> 0 < eps ->
  exists N : nat, forall n, (N <= n)%nat -> lit 0.89 ^ n * K < eps.
Proof.
  intros HK Heps.
  exists (S (Z.to_nat (Qceiling (lit 89 * K / eps)))).
  intros n Hn.
  pose proof (decay89_bound n) as Hb. pose proof (decay89_range n) as [H0 _].
  assert (Hbig : lit 89 * K < AutoExposureSpec.natQ n * eps).
  { assert (Hq : lit 89 * K / eps < AutoExposureSpec.natQ n).
    { apply Qclt_le_trans with (AutoExposureSpec.natQ (S (Z.to_nat (Qceiling (lit 89 * K / eps)))));
        [| apply AutoExposureProps.natQ_le; exact Hn].
      rewrite AutoExposureProps.natQ_S. unfold AutoExposureSpec.natQ.
      pose proof (Qle_ceiling (lit 89 * K / eps)) as Hc.
      set (z := Qceiling (lit 89 * K / eps)) in *.
      assert (Hz : (z <= Z.of_nat (Z.to_nat z))%Z) by lia.
      rewrite Zle_Qle in Hz. clearbody z.
      set (m := Z.of_nat (Z.to_nat z)) in *. clearbody m.
      qc_push. revert Hc Hz. generalize (89 * this K / this eps)%Q.
      intros q Hc Hz. lra. }
    assert (Hne : eps <> 0) by (intros ->; revert Heps; qc_lra).
    pose proof (div_mult (lit 89 * K) eps Hne) as E.
    revert Hq E. generalize (lit 89 * K / eps). intros q Hq E.
    rewrite <- E. revert Hq Heps. generalize (AutoExposureSpec.natQ n). intros k Hq Heps. qc_nra. }
  pose proof (AutoExposureProps.natQ_nonneg n) as Hk.
  revert Hb H0 Hbig Hk. generalize (lit 0.89 ^ n), (AutoExposureSpec.natQ n). intros p k Hb H0 Hbig Hk.
  destruct (Qclt_le_dec (p * K) eps) as [Hlt | Hge]; [exact Hlt | exfalso].
  revert Hb H0 Hbig Hk Hge HK Heps. qc_nra.
Qed.

(** From any enabled controller that samples, frames near the target
    bring [|a - 1| + 3 |L - 0.45|] within the margin, up to an excess
    that shrinks by the factor 0.89 per frame. *)
Lemma settle_from_any_state
    (rnd : num -> num) (Math_pow : num -> num -> num) (u eta bound delta : num)
    (c : controller) (frames : list (list Byte.byte)) :
  rounding_model rnd u eta bound ->
  0 <= delta -> delta <= lit 0.05 ->
  enabled c = true -> renderer c = true -> luminanceRenderTarget c = true ->
  start_error c + lit 8 <= bound ->
  Forall (near_target rnd delta c) frames -> frames <> [] ->
  exists c',
    updates rnd Math_pow frames c = Normal c'
    /\ settling (margin delta u eta + lit 0.89 ^ length frames * (start_error c + lit 4)) c'.
Proof.
  intros Hm Hd0 Hd1 He Hr Ht Hstart Hall Hne.
  destruct frames as [| pixels frames]; [contradiction |]. clear Hne.
  inversion Hall as [| ? ? Hpx Hrest]; subst.
  destruct (first_frame rnd u eta bound Hm Math_pow c delta pixels He Hr Ht Hstart Hpx)
    as (c1 & Hu & Hlen & Hs1).
  assert (He0 : 0 <= start_error c).
  { unfold start_error. destruct (autoExposureValue c); [apply Qcabs_nonneg | apply Qcle_refl]. }
  assert (HM : 0 <= margin delta u eta /\ margin delta u eta <= lit 1.1).
  { destruct Hm as ((Hu0 & Hu1) & (He0' & He1) & _). unfold margin.
    split; lra_from Hu0 Hu1 He0' He1 Hd0 Hd1. }
  destruct HM as [HM0 HM1].
  destruct (settle_run rnd u eta bound Hm Math_pow delta frames Hd0 Hd1 c1
              (lit 0.89 * (start_error c + lit 4))) as (c' & Hr' & Hs').
  - lra_from He0.
  - lra_from He0 HM1 Hstart.
  - eapply settling_weaken; [| exact Hs1]. lra_from HM0.
  - eapply Forall_impl; [exact Hrest |]. intros px. apply near_target_length, Hlen.
  - exists c'. split; [cbn [updates]; rewrite Hu; exact Hr' |].
    eapply settling_weaken; [| exact Hs']. cbn [length Qcpower].
    generalize (lit 0.89 ^ length frames), (start_error c), (margin delta u eta).
    intros p e m. clear. qc_lra.
Qed.


(** C5: in double precision, from any enabled controller that samples,
    frames whose sampled luminance stays within [delta] of the target 0.45
    bring the auto value to 1 up to the margin
    [14 delta + 200 u + 200 eta]: after [n >= 1] frames
    [|a - 1| + 3 |L - 0.45|] exceeds the margin by at most
    [0.89 ^ n * (|a0 - 1| + 4)], so the value comes within any [eps > 0]
    of that margin and stays there.  [u] and [eta] bound the relative and
    the absolute rounding error ([2 ^ -53] and [2 ^ -1075] for doubles). *)
Theorem auto_exposure_settles_up_to_rounding
    (rnd : num -> num) (Math_pow : num -> num -> num) (u eta bound delta : num)
    (c : controller) :
  0 <= u -> u <= lit 0.001 -> 0 <= eta -> eta <= lit 0.001 ->
  (forall x, Qcabs x <= bound -> Qcabs (rnd x - x) <= u * Qcabs x + eta) ->
  0 <= delta -> delta <= lit 0.05 ->
  enabled c = true -> renderer c = true -> luminanceRenderTarget c = true ->
  start_error c + lit 8 <= bound ->
  (forall frames, Forall (near_target rnd delta c) frames -> frames <> [] ->
     exists c' L a,
       updates rnd Math_pow frames c = Normal c'
       /\ averageLuminance c' = Some L /\ autoExposureValue c' = Some a
       /\ Qcabs (a - 1) + lit 3 * Qcabs (L - lit 0.45)
          <= margin delta u eta + lit 0.89 ^ length frames * (start_error c + lit 4))
  /\ (forall eps, 0 < eps ->
      exists N : nat, forall frames,
        Forall (near_target rnd delta c) frames -> (N <= length frames)%nat ->
        exists a, exposure_after rnd Math_pow frames c = Some a
                  /\ Qcabs (a - 1) < margin delta u eta + eps).
Proof.
  intros Hu0 Hu1 He0 He1 Hrnd Hd0 Hd1 He Hr Ht Hstart.
  assert (Hs0 : 0 <= start_error c).
  { unfold start_error. destruct (autoExposureValue c); [apply Qcabs_nonneg | apply Qcle_refl]. }
  assert (Hm : rounding_model rnd u eta bound).
  { split; [split; assumption |]. split; [split; assumption |].
    split; [lra_from Hs0 Hstart | exact Hrnd]. }
  split.
  - intros frames Hall Hne.
    destruct (settle_from_any_state rnd Math_pow u eta bound delta c frames
                Hm Hd0 Hd1 He Hr Ht Hstart Hall Hne)
      as (c' & Hrun & _ & _ & _ & L & a & HL & Ha & _ & _ & HW).
    exists c', L, a. repeat (split; [assumption |]). exact HW.
  - intros eps Heps.
    destruct (decay89_vanishes (start_error c + lit 4) eps) as (N & HN);
      [lra_from Hs0 | exact Heps |].
    exists (S N). intros frames Hall Hlen.
    assert (Hne : frames <> []) by (intros ->; cbn in Hlen; lia).
    destruct (settle_from_any_state rnd Math_pow u eta bound delta c frames
                Hm Hd0 Hd1 He Hr Ht Hstart Hall Hne)
      as (c' & Hrun & _ & _ & _ & L & a & HL & Ha & _ & _ & HW).
    exists a. unfold exposure_after. rewrite Hrun. split; [exact Ha |].
    assert (HN' : lit 0.89 ^ length frames * (start_error c + lit 4) < eps)
      by (apply HN; lia).
    pose proof (Qcabs_nonneg (L - lit 0.45)) as HD.
    revert HW HN' HD.
    generalize (lit 0.89 ^ length frames * (start_error c + lit 4)),
      (Qcabs (a - 1)), (Qcabs (L - lit 0.45)), (margin delta u eta).
    intros p e D m. clear. qc_lra.
Qed.

Lemma grey_frame_near_target :
  near_target Binary64.round (lit (1 # 1000000000000000)) AutoExposureSpec.fresh_auto
    AutoExposureSpec.grey_frame.
Proof.
  split; [reflexivity |]. unfold Qcle. vm_compute. discriminate.
Qed.

Lemma auto_exposure_settles_up_to_rounding_witness :
  exists c' L a,
    updates Binary64.round AutoExposureSpec.pow_square
      [AutoExposureSpec.grey_frame; AutoExposureSpec.grey_frame]
      AutoExposureSpec.fresh_auto = Normal c'
    /\ averageLuminance c' = Some L /\ autoExposureValue c' = Some a
    /\ Qcabs (a - 1) + lit 3 * Qcabs (L - lit 0.45)
       <= margin (lit (1 # 1000000000000000)) Binary64.u64 Binary64.eta64
          + lit 0.89 ^ 2 * (start_error AutoExposureSpec.fresh_auto + lit 4).
Proof.
  refine (proj1 (auto_exposure_settles_up_to_rounding Binary64.round
                   AutoExposureSpec.pow_square Binary64.u64 Binary64.eta64 (lit 1000)
                   (lit (1 # 1000000000000000)) AutoExposureSpec.fresh_auto
                   (Qclt_le_weak _ _ (Binary64Props.pow2_pos (-53))) _
                   (Qclt_le_weak _ _ (Binary64Props.pow2_pos (-1075))) _
                   (fun x _ => Binary64Props.round_error x)
                   _ _ eq_refl eq_refl eq_refl _)
            [AutoExposureSpec.grey_frame; AutoExposureSpec.grey_frame] _ _).
  - unfold Qcle. vm_compute. discriminate.
  - unfold Qcle. vm_compute. discriminate.
  - unfold Qcle. vm_compute. discriminate.
  - unfold Qcle. vm_compute. discriminate.
  - unfold Qcle. vm_compute. discriminate.
  - repeat constructor; apply grey_frame_near_target.
  - discriminate.
Defined.

(** C5 as stated fails in double precision.  From a freshly enabled
    controller, whose smoothed luminance starts at 0.5 and whose auto
    value starts at 1, frames that all sample the target luminance (to
    fifteen places) make the auto value leave 1, fall for four frames and
    rise from the fifth on.  And from the state right after
    [resetLuminance()], with the smoothed luminance at the target and the
    auto value at 1, the value is off 1 after the third such frame. *)
Lemma settling_counterexample :
  let near := near_target Binary64.round (lit (1 # 1000000000000000))
                AutoExposureSpec.fresh_auto in
  let a n := exposure_after Binary64.round AutoExposureSpec.pow_square
               (repeat AutoExposureSpec.grey_frame n) AutoExposureSpec.fresh_auto ?? 0 in
  let b n := exposure_after Binary64.round AutoExposureSpec.pow_square
               (repeat AutoExposureSpec.grey_frame n)
               (resetLuminance Binary64.round AutoExposureSpec.fresh_auto) ?? 0 in
  near AutoExposureSpec.grey_frame
  /\ (a 0%nat = 1 /\ a 1%nat < a 0%nat /\ a 4%nat < a 3%nat /\ a 4%nat < a 5%nat)
  /\ (b 0%nat = 1 /\ b 3%nat <> 1).
Proof.
  intros near a b. split; [exact grey_frame_near_target |].
  split.
  - split; [apply Qc_is_canon; vm_compute; reflexivity |].
    split; [| split]; unfold Qclt; vm_compute; reflexivity.
  - split; [apply Qc_is_canon; vm_compute; reflexivity |].
    intros H. apply Qc_eq_this in H. vm_compute in H. discriminate H.
Qed.

End AutoExposureRoundedProps.
